(** * MeowLogger: a shallow embedding of [modular_core.py]

    The development follows the module layout of the Python source:
    text helpers, the entry record, the two built-in processors, the two
    storage backends, the file watcher and the engine ([MeowLogger]),
    then their callers: the processors and the constructor of the
    example application and the handlers of the web API.

    Conventions.
    - Python [str] values are [string]; the text algorithms (regular
      expression search, [strip], [readlines], [lower]/[upper]) work on
      the character list of the string.  Characters are ASCII: [\w],
      [str.isspace], [upper] and [lower] are the ASCII restrictions of
      the Python ones.
    - Python [int] file offsets, sizes and counters are [nat]; the
      [limit] argument of [retrieve] is a [Z], since negative and zero
      values change what the slice [lines[-limit * 2:]] and the test
      [len(results) >= limit] do.
    - In the source, a formatting tool renamed some loop variables with a
      leading underscore ([for _line in new_lines: line = line.strip()]);
      [_x] and [x] are read as the same variable, and the constructor
      arguments named in the constructor bodies ([max_entries],
      [log_file], [max_size], [backup_count]) are fields of the records. *)

From Stdlib Require Import Ascii String ZArith Lia.
From stdpp Require Import base option list gmap strings fin_maps.

Abbreviation text := (list ascii).

(** ** Text helpers *)
Module Text.

Definition chars (s : string) : text := String.list_ascii_of_string s.
Definition str (t : text) : string := String.string_of_list_ascii t.

Definition code (c : ascii) : N := N_of_ascii c.

Definition in_range (lo hi : N) (c : ascii) : bool :=
  ((lo <=? code c) && (code c <=? hi))%N.

Definition is_upper_char : ascii → bool := in_range 65 90.
Definition is_lower_char : ascii → bool := in_range 97 122.
Definition is_digit : ascii → bool := in_range 48 57.

(** [\w]: letters, digits and the underscore. *)
Definition is_word (c : ascii) : bool :=
  is_upper_char c || is_lower_char c || is_digit c || bool_decide (c = "_"%char).

(** [str.isspace] on the ASCII range: TAB..CR, FS..US and the space. *)
Definition is_space (c : ascii) : bool :=
  in_range 9 13 c || in_range 28 32 c.

Definition to_upper (c : ascii) : ascii :=
  if is_lower_char c then ascii_of_N (code c - 32) else c.
Definition to_lower (c : ascii) : ascii :=
  if is_upper_char c then ascii_of_N (code c + 32) else c.

Definition upper (t : text) : text := to_upper <$> t.
Definition lower (t : text) : text := to_lower <$> t.

(** [t.startswith(p)], returning the remainder. *)
Fixpoint strip_prefix (p t : text) : option text :=
  match p, t with
  | [], _ => Some t
  | a :: p', b :: t' => if bool_decide (a = b) then strip_prefix p' t' else None
  | _ :: _, [] => None
  end.

Definition starts_with (p t : text) : bool := bool_decide (is_Some (strip_prefix p t)).

(** [needle in hay] *)
Fixpoint contains (needle hay : text) : bool :=
  starts_with needle hay ||
  match hay with
  | [] => false
  | _ :: hay' => contains needle hay'
  end.

(** [str.strip()]: whitespace removed at both ends. *)
Fixpoint lstrip (t : text) : text :=
  match t with
  | c :: t' => if is_space c then lstrip t' else t
  | [] => []
  end.
Definition rstrip (t : text) : text := reverse (lstrip (reverse t)).
Definition strip (t : text) : text := rstrip (lstrip t).

(** Longest prefix of characters satisfying [p], and the rest. *)
Fixpoint span (p : ascii → bool) (t : text) : text * text :=
  match t with
  | c :: t' =>
      if p c then let '(w, r) := span p t' in (c :: w, r) else ([], t)
  | [] => ([], [])
  end.

(** The first element of [l] on which [f] succeeds. *)
Fixpoint first_some {A B} (f : A → option B) (l : list A) : option B :=
  match l with
  | [] => None
  | x :: l' => match f x with Some y => Some y | None => first_some f l' end
  end.

(** [re.search] with a matcher anchored at the head of its argument:
    the first start position, from the left, at which it matches. *)
Fixpoint search {A} (m : text → option A) (t : text) : option A :=
  match m t with
  | Some x => Some x
  | None => match t with
            | [] => None
            | _ :: t' => search m t'
            end
  end.

(** *** Regular expressions, for the patterns whose only use is
    [pattern.search(message)] as a truth value.  Matching is by
    derivatives; [Chr p] is a character class. *)
Inductive regex :=
| Empty | Eps
| Chr (p : ascii → bool)
| Seq (r1 r2 : regex)
| Alt (r1 r2 : regex)
| Star (r : regex).

Fixpoint nullable (r : regex) : bool :=
  match r with
  | Empty | Chr _ => false
  | Eps | Star _ => true
  | Seq r1 r2 => nullable r1 && nullable r2
  | Alt r1 r2 => nullable r1 || nullable r2
  end.

Definition seq' (r1 r2 : regex) : regex :=
  match r1, r2 with
  | Empty, _ | _, Empty => Empty
  | Eps, _ => r2
  | _, _ => Seq r1 r2
  end.
Definition alt' (r1 r2 : regex) : regex :=
  match r1, r2 with
  | Empty, _ => r2
  | _, Empty => r1
  | _, _ => Alt r1 r2
  end.

Fixpoint deriv (c : ascii) (r : regex) : regex :=
  match r with
  | Empty | Eps => Empty
  | Chr p => if p c then Eps else Empty
  | Seq r1 r2 =>
      if nullable r1 then alt' (seq' (deriv c r1) r2) (deriv c r2)
      else seq' (deriv c r1) r2
  | Alt r1 r2 => alt' (deriv c r1) (deriv c r2)
  | Star r1 => seq' (deriv c r1) (Star r1)
  end.

(** [re.fullmatch] as a truth value *)
Definition fullmatch (r : regex) (t : text) : bool :=
  nullable (foldl (fun r c => deriv c r) r t).

Definition any : regex := Chr (fun _ => true).
Definition chr (c : ascii) : regex := Chr (fun x => bool_decide (x = c)).
(** A letter of a pattern compiled with [re.I], on ASCII text.  On other
    text [re.I] and [str.lower] fold differently (the dotless and the
    dotted capital i match [i] under [re.I] and are no [i] once
    lowercased): statements that compare the two say [ascii_only]. *)
Definition chr_ci (c : ascii) : regex := Chr (fun x => bool_decide (to_lower x = to_lower c)).
Definition opt (r : regex) : regex := Alt Eps r.
Definition plus (r : regex) : regex := Seq r (Star r).
Definition lit (s : string) : regex := foldr (fun c r => Seq (chr c) r) Eps (chars s).
Definition lit_ci (s : string) : regex := foldr (fun c r => Seq (chr_ci c) r) Eps (chars s).
Definition alts (rs : list regex) : regex := foldr Alt Empty rs.
(** [r{1,3}] *)
Definition rep13 (r : regex) : regex := Seq r (opt (Seq r (opt r))).

(** [re.search] as a truth value: some substring matches. *)
Definition found (r : regex) (t : text) : bool :=
  fullmatch (Seq (Star any) (Seq r (Star any))) t.

(** [\b r \b] for an [r] that starts and ends with a word character:
    the match is not preceded and not followed by a word character. *)
Definition found_word_bounded (r : regex) (t : text) : bool :=
  let nonword := Chr (fun c => negb (is_word c)) in
  fullmatch (Seq (opt (Seq (Star any) nonword))
               (Seq r (opt (Seq nonword (Star any))))) t.
End Text.

(** ** Entries *)

(** [extra_data]: the reserved key [patterns] holds a list of pattern
    names; every other key is kept as an opaque field. *)
Record ExtraData := mkExtra {
  patterns : option (list string);
  fields : gmap string string
}.

(** Python truthiness of the dict: it has at least one key. *)
Definition extra_nonempty (x : ExtraData) : bool :=
  bool_decide (is_Some (patterns x)) || negb (bool_decide (fields x = ∅)).

Record LogEntry := mkEntry {
  timestamp : Z;
  level : string;
  message : string;
  file_path : option string;
  line_number : option Z;
  extra_data : option ExtraData
}.

Definition set_level (l : string) (e : LogEntry) : LogEntry :=
  mkEntry (timestamp e) l (message e) (file_path e) (line_number e) (extra_data e).
Definition set_extra_data (x : option ExtraData) (e : LogEntry) : LogEntry :=
  mkEntry (timestamp e) (level e) (message e) (file_path e) (line_number e) x.

(** What a processor returns: the keys [level] and [patterns] of the
    result mapping (the engine reads no other key); [None] stands for a
    result that is [None] or empty. *)
Record Enrichment := mkEnrich {
  r_level : option string;
  r_patterns : option (list string)
}.

(** [LogProcessor.process] *)
Definition LogProcessor := LogEntry → option Enrichment.

(** ** Log level parser *)
Module LogLevelParser.
Import Text.

(** The alternatives of the third pattern, in the order of the source. *)
Definition LEVEL_KEYWORDS : list string :=
  ["DEBUG"; "INFO"; "WARNING"; "ERROR"; "CRITICAL"; "TRACE"].

(** [\[(\w+)\]] anchored at the head of [t]; yields group 1.  The
    greedy [\w+] takes the whole run of word characters: a shorter
    run is followed by a word character, never by the bracket. *)
Definition match_bracket (t : text) : option text :=
  match t with
  | "["%char :: r =>
      match span is_word r with
      | (c :: w, "]"%char :: _) => Some (c :: w)
      | _ => None
      end
  | _ => None
  end.

(** [^(\w+):] (no MULTILINE flag: only the start of the message). *)
Definition match_leading (t : text) : option text :=
  match span is_word t with
  | (c :: w, ":"%char :: _) => Some (c :: w)
  | _ => None
  end.

(** One alternative, under [re.I], anchored at the head of [t]; yields
    the matched text (group 0). *)
Definition match_word_ci (k : text) (t : text) : option text :=
  let cand := take (length k) t in
  if bool_decide (lower cand = lower k) then Some cand else None.

(** [(DEBUG|INFO|WARNING|ERROR|CRITICAL|TRACE)] anchored at the head of
    [t]: the first alternative that matches. *)
Definition match_keyword (t : text) : option text :=
  first_some (fun k => match_word_ci (chars k) t) LEVEL_KEYWORDS.

(** [LogLevelParser.process]: the three patterns in order; the group
    of the first one that matches, uppercased; INFO otherwise. *)
Definition level_of (msg : string) : string :=
  let t := chars msg in
  match search match_bracket t with
  | Some w => str (upper w)
  | None =>
      match match_leading t with
      | Some w => str (upper w)
      | None =>
          match search match_keyword t with
          | Some w => str (upper w)
          | None => "INFO"
          end
      end
  end.

Definition process : LogProcessor :=
  fun entry => Some (mkEnrich (Some (level_of (message entry))) None).

(** The three recognizers, as the shapes of text they recognize.  [pre]
    is the text before the match. *)

(** a word in square brackets, right after [pre] *)
Definition bracketed_at (t pre w : text) : Prop :=
  ∃ post, t = pre ++ "["%char :: w ++ "]"%char :: post ∧ w ≠ [] ∧
          Forall (fun c => is_word c = true) w.

(** a word followed by a colon, at the start of the text *)
Definition leading (t w : text) : Prop :=
  ∃ post, t = w ++ ":"%char :: post ∧ w ≠ [] ∧
          Forall (fun c => is_word c = true) w.

(** one of the level keywords, in any letter case, right after [pre] *)
Definition keyword_at (t pre k : text) : Prop :=
  ∃ post, t = pre ++ k ++ post ∧ str (upper k) ∈ LEVEL_KEYWORDS.

(** the leftmost occurrence *)
Definition first_at (P : text → text → Prop) (pre w : text) : Prop :=
  P pre w ∧ ∀ pre' w', P pre' w' → length pre ≤ length pre'.
End LogLevelParser.


(** ** Pattern detector *)
Module PatternDetector.
Import Text.

Definition digit : regex := Chr is_digit.
Definition space : regex := Chr is_space.
(** the group [\d+\.?\d* ] *)
Definition number : regex := Seq (plus digit) (Seq (opt (chr ".")) (Star digit)).

(** The dictionary [self.patterns], in insertion order: the name and
    the test [pattern.search(message)]. *)
Definition PATTERNS : list (string * (text → bool)) :=
  [ ("error", found (alts [lit_ci "error"; lit_ci "exception"; lit_ci "failed"]));
    ("warning", found (alts [lit_ci "warning"; lit_ci "warn"; lit_ci "caution"]));
    ("performance",
      found (Seq number (Seq (Star space)
               (alts [lit_ci "ms";
                      Seq (lit_ci "second") (opt (chr_ci "s"));
                      Seq (lit_ci "minute") (opt (chr_ci "s"))]))));
    ("memory",
      found (Seq number (Seq (Star space)
               (alts [lit_ci "MB"; lit_ci "GB"; lit_ci "KB"]))));
    ("ip_address",
      found_word_bounded
        (Seq (rep13 digit) (Seq (chr ".")
        (Seq (rep13 digit) (Seq (chr ".")
        (Seq (rep13 digit) (Seq (chr ".") (rep13 digit))))))));
    ("url",
      found (Seq (lit "http") (Seq (opt (chr "s")) (Seq (lit "://")
               (plus (Chr (fun c => negb (is_space c))))))));
    ("stacktrace",
      found (alts [lit_ci "traceback"; lit_ci "stack trace";
                   Seq (lit_ci "at line ") (plus digit)])) ].

Definition detect (msg : string) : list string :=
  (filter (fun p => Is_true (p.2 (chars msg))) PATTERNS).*1.

(** [PatternDetector.process] *)
Definition process : LogProcessor :=
  fun entry =>
    match detect (message entry) with
    | [] => None
    | detected => Some (mkEnrich None (Some detected))
    end.
End PatternDetector.

(** ** Storage backends *)

Inductive Exn :=
| AttributeError   (* [.lower()] on a filter value that is not a string *)
| ValueError (msg : string).

(** A filter value: the callers pass strings ([level], [search],
    [file_path]) and integers ([limit]). *)
Inductive Value := VStr (s : string) | VInt (n : Z).

#[export] Instance Value_eq_dec : EqDecision Value.
Proof. solve_decision. Defined.

Definition truthy (v : Value) : bool :=
  match v with
  | VStr s => negb (bool_decide (s = EmptyString))
  | VInt n => negb (bool_decide (n = 0%Z))
  end.

(** [filters.get(k)] when it is truthy *)
Definition active (filters : gmap string Value) (k : string) : option Value :=
  match filters !! k with
  | Some v => if truthy v then Some v else None
  | None => None
  end.

(** [entry.level != filters["level"]], when the filter is active *)
Definition level_differs (entry : LogEntry) (filters : gmap string Value) : bool :=
  match active filters "level" with
  | Some v => negb (bool_decide (VStr (level entry) = v))
  | None => false
  end.

(** [filters["search"].lower() not in entry.message.lower()], when the
    filter is active; an integer has no [lower]. *)
Definition search_misses (entry : LogEntry) (filters : gmap string Value)
  : Exn + bool :=
  match active filters "search" with
  | Some (VStr s) =>
      inr (negb (Text.contains (Text.lower (Text.chars s))
                   (Text.lower (Text.chars (message entry)))))
  | Some (VInt _) => inl AttributeError
  | None => inr false
  end.

(** [entry.file_path != filters["file_path"]], when the filter is active *)
Definition path_differs (entry : LogEntry) (filters : gmap string Value) : bool :=
  match active filters "file_path" with
  | Some v => negb (bool_decide (VStr <$> file_path entry = Some v))
  | None => false
  end.

(** The three tests of [MemoryStorage.retrieve], which are also the body
    of [FileStorage._matches_filters]: [inr true] keeps the entry,
    [inr false] is [continue] / [return False], [inl] is a raise. *)
Definition matches_filters (entry : LogEntry) (filters : gmap string Value)
  : Exn + bool :=
  if level_differs entry filters then inr false
  else
    match search_misses entry filters with
    | inl exn => inl exn
    | inr true => inr false
    | inr false => inr (negb (path_differs entry filters))
    end.

(** [LogStorage]: the abstract base class of the backends. *)
Class LogStorage (S : Type) := {
  store : LogEntry → S → S;
  retrieve : gmap string Value → Z → S → Exn + list LogEntry
}.

(** The default of the [limit] argument of [retrieve]. *)
Definition DEFAULT_LIMIT : Z := 100.

Module MemoryStorage.

(** [entries] is the deque, oldest entry first; [max_entries] is its
    [maxlen]. *)
Record t := mk {
  max_entries : nat;
  entries : list LogEntry
}.

Definition init (max_entries : nat) : t := mk max_entries [].

(** The default of [max_entries]. *)
#[warnings="-abstract-large-number"] Definition DEFAULT_MAX_ENTRIES : nat := 10000.

(** [deque.append] on a bounded deque: append on the right, then
    discard one item on the left when the bound is exceeded. *)
Definition deque_append (maxlen : nat) (d : list LogEntry) (x : LogEntry)
  : list LogEntry :=
  let d' := d ++ [x] in
  if bool_decide (maxlen < length d') then drop 1 d' else d'.

Definition store (entry : LogEntry) (s : t) : t :=
  mk (max_entries s) (deque_append (max_entries s) (entries s) entry).

(** The loop of [retrieve] over [todo], the entries still to visit,
    with [results] collected so far. *)
Fixpoint retrieve_loop (filters : gmap string Value) (limit : Z)
    (todo results : list LogEntry) : Exn + list LogEntry :=
  match todo with
  | [] => inr results
  | entry :: todo' =>
      match matches_filters entry filters with
      | inl exn => inl exn
      | inr false => retrieve_loop filters limit todo' results
      | inr true =>
          let results' := results ++ [entry] in
          if bool_decide (limit ≤ Z.of_nat (length results'))%Z
          then inr results'
          else retrieve_loop filters limit todo' results'
      end
  end.

Definition retrieve (filters : gmap string Value) (limit : Z) (s : t)
  : Exn + list LogEntry :=
  retrieve_loop filters limit (reverse (entries s)) [].
End MemoryStorage.

#[export] Instance MemoryStorage_LogStorage : LogStorage MemoryStorage.t :=
  {| store := MemoryStorage.store; retrieve := MemoryStorage.retrieve |}.

Module FileStorage.

(** One line of a persisted file, by what [json.loads] and the
    [LogEntry(...)] constructor make of it: the record of an entry, as
    [store] writes it, or bytes that make one of the two raise. *)
Inductive FileLine :=
| Json (entry : LogEntry)
| Malformed (raw : string).

Definition decode (l : FileLine) : option LogEntry :=
  match l with
  | Json entry => Some entry
  | Malformed _ => None
  end.

Definition is_valid (l : FileLine) : bool := bool_decide (is_Some (decode l)).

(** [primary] is the content of [log_file] ([None]: the file does not
    exist); [backups !! i] is the content of the file [log_file.i];
    [writable] tells whether opening [log_file] for appending
    succeeds. *)
Record t := mk {
  max_size : nat;
  backup_count : Z;
  primary : option (list FileLine);
  backups : gmap nat (list FileLine);
  writable : bool
}.

Definition init (max_size : nat) (backup_count : Z) (writable : bool) : t :=
  mk max_size backup_count None ∅ writable.

(** [lines[-limit * 2:]] with Python's slice rules: the start index is
    [-limit * 2]; a negative start counts from the end and is clipped
    at 0, a non-negative one is clipped at the length. *)
Definition tail_window (limit : Z) (lines : list FileLine) : list FileLine :=
  let start := (- limit * 2)%Z in
  let len := Z.of_nat (length lines) in
  let start' := if bool_decide (start < 0)%Z then Z.max (len + start) 0
                else Z.min start len in
  drop (Z.to_nat start') lines.

(** The loop over [reversed(lines)].  A line that fails to decode, or
    on which the filter raises, lands in the [except] clause and is
    skipped. *)
Fixpoint scan (filters : gmap string Value) (limit : Z)
    (todo : list FileLine) (entries : list LogEntry) : list LogEntry :=
  match todo with
  | [] => entries
  | line :: todo' =>
      match decode line with
      | None => scan filters limit todo' entries
      | Some entry =>
          match matches_filters entry filters with
          | inr true =>
              let entries' := entries ++ [entry] in
              if bool_decide (limit ≤ Z.of_nat (length entries'))%Z
              then entries'
              else scan filters limit todo' entries'
          | _ => scan filters limit todo' entries
          end
      end
  end.

(** [retrieve] on the content of the log file. *)
Definition retrieve_lines (filters : gmap string Value) (limit : Z)
    (lines : list FileLine) : list LogEntry :=
  scan filters limit (reverse (tail_window limit lines)) [].

Definition retrieve (filters : gmap string Value) (limit : Z) (s : t)
  : Exn + list LogEntry :=
  match primary s with
  | None => inr []
  | Some lines => inr (retrieve_lines filters limit lines)
  end.

(** One step of the loop of [_rotate]: [log_file.i] replaces
    [log_file.(i+1)]. *)
Definition shift_backup (b : gmap nat (list FileLine)) (i : nat)
  : gmap nat (list FileLine) :=
  match b !! i with
  | Some c => <[S i := c]> (delete i b)
  | None => b
  end.

(** [range(backup_count - 1, 0, -1)] *)
Definition rotate_range (backup_count : Z) : list nat :=
  reverse (seq 1 (Z.to_nat (backup_count - 1))).

Definition rotate (s : t) : t :=
  let b := foldl shift_backup (backups s) (rotate_range (backup_count s)) in
  match primary s with
  | Some c => mk (max_size s) (backup_count s) None (<[1 := c]> b) (writable s)
  | None => mk (max_size s) (backup_count s) None b (writable s)
  end.

Section Store.
(** The number of bytes of [json.dumps(entry.to_dict())] and of the
    line terminator that follows it. *)
Variable json_size : LogEntry → nat.

Definition line_size (l : FileLine) : nat :=
  match l with
  | Json entry => json_size entry
  | Malformed raw => String.length raw + 1
  end.

(** [os.path.getsize(self.log_file)] *)
Definition getsize (lines : list FileLine) : nat :=
  foldr (fun l n => line_size l + n) 0 lines.

Definition store (entry : LogEntry) (s : t) : t :=
  let s' := match primary s with
            | Some lines =>
                if bool_decide (max_size s < getsize lines) then rotate s else s
            | None => s
            end in
  if writable s'
  then mk (max_size s') (backup_count s')
          (Some (from_option id [] (primary s') ++ [Json entry]))
          (backups s') (writable s')
  else s'.
End Store.
End FileStorage.

(** ** The file system seen by the watcher *)
Module FS.
Import Text.

Inductive Node :=
| File (content : string)
| Dir (dsize : nat).

Definition exists_ (fs : gmap string Node) (p : string) : bool :=
  bool_decide (is_Some (fs !! p)).
Definition isfile (fs : gmap string Node) (p : string) : bool :=
  match fs !! p with Some (File _) => true | _ => false end.
Definition isdir (fs : gmap string Node) (p : string) : bool :=
  match fs !! p with Some (Dir _) => true | _ => false end.

(** [os.path.getsize] of an existing node *)
Definition node_size (n : Node) : nat :=
  match n with
  | File content => String.length content
  | Dir dsize => dsize
  end.

(** The last component of a path. *)
Definition basename (p : text) : text :=
  reverse (span (fun c => negb (bool_decide (c = "/"%char))) (reverse p)).1.

(** [fnmatch] of one path component against a pattern made of
    literals, [?] and [*]. *)
Fixpoint fnmatch (pat : text) (name : text) : bool :=
  match pat with
  | [] => bool_decide (name = [])
  | "*"%char :: pat' =>
      (fix star (name : text) : bool :=
         fnmatch pat' name ||
         match name with
         | [] => false
         | _ :: name' => star name'
         end) name
  | "?"%char :: pat' =>
      match name with
      | _ :: name' => fnmatch pat' name'
      | [] => false
      end
  | c :: pat' =>
      match name with
      | d :: name' => bool_decide (c = d) && fnmatch pat' name'
      | [] => false
      end
  end.

(** [p] lies below the directory [dir], at any depth. *)
Definition below (dir p : string) : bool :=
  match strip_prefix (chars dir ++ ["/"%char]) (chars p) with
  | Some (_ :: _) => true
  | _ => false
  end.

(** [Path(dir).glob("**/" + pattern)]: the paths below [dir] whose
    last component matches [pattern]. *)
Definition glob (fs : gmap string Node) (dir pattern : string) : list string :=
  filter (fun p => Is_true (below dir p && fnmatch (chars pattern) (basename (chars p))))
         (map_to_list fs).*1.
End FS.

(** ** File watcher *)
Module FileWatcher.
Import Text.

Definition LF : ascii := "010"%char.
Definition CR : ascii := "013"%char.

(** Text mode with universal newlines: CR LF and a lone CR are read
    as LF. *)
Fixpoint universal_newlines (t : text) : text :=
  match t with
  | [] => []
  | c :: t' =>
      if bool_decide (c = CR)
      then LF :: match t' with
                 | d :: t'' =>
                     if bool_decide (d = LF) then universal_newlines t''
                     else universal_newlines t'
                 | [] => []
                 end
      else c :: universal_newlines t'
  end.

(** [readlines]: split after every LF, the terminator kept. *)
Fixpoint readlines (t : text) : list text :=
  match t with
  | [] => []
  | c :: t' =>
      if bool_decide (c = LF) then [c] :: readlines t'
      else match readlines t' with
           | [] => [[c]]
           | l :: ls => (c :: l) :: ls
           end
  end.

(** What one pass over a file leaves in the log of the loop. *)
Inductive Event :=
| EvRead (path : string) (offset nbytes : nat)
    (* [f.seek(offset)], then [readlines] returned [nbytes] bytes *)
| EvError (path : string).
    (* [open] raised (the path is a directory); the loop printed
       "Error watching ..." and went on *)

Section Watcher.
(** The state the handlers act on. *)
Variable W : Type.

(** A handler [(file_path, line) -> None]; the state it returns is
    the one it leaves, also when it raises: the [except] clause
    around the call only prints. *)
Definition Handler := string → string → W → W.

(** The poll interval, a float, only sets the pace of the loop; it
    is left out. *)
Record t := mk {
  watched_files : gmap string nat;
  handlers : list Handler;
  running : bool
}.

Definition init : t := mk ∅ [] false.

Definition add_handler (handler : Handler) (w : t) : t :=
  mk (watched_files w) (handlers w ++ [handler]) (running w).

Definition set_watched (m : gmap string nat) (w : t) : t :=
  mk m (handlers w) (running w).

Definition watch_file (fs : gmap string FS.Node) (file_path : string) (w : t) : t :=
  match fs !! file_path with
  | Some n => set_watched (<[file_path := FS.node_size n]> (watched_files w)) w
  | None => w
  end.

Definition watch_directory (fs : gmap string FS.Node) (dir_path pattern : string)
    (w : t) : t :=
  if FS.isdir fs dir_path
  then foldl (fun w p => watch_file fs p w) w (FS.glob fs dir_path pattern)
  else w.

Definition start (w : t) : t :=
  mk (watched_files w) (handlers w) true.
Definition stop (w : t) : t :=
  mk (watched_files w) (handlers w) false.

(** The body of [for line in new_lines]. *)
Definition handle_line (hs : list Handler) (file_path : string)
    (world : W) (line : text) : W :=
  match strip line with
  | [] => world
  | c :: l => foldl (fun world handler => handler file_path (str (c :: l)) world) world hs
  end.

(** [f.seek(last_position); f.readlines()] *)
Definition new_lines (content : string) (last_position : nat) : list text :=
  readlines (universal_newlines (drop last_position (chars content))).

Record Run := mkRun {
  files : gmap string nat;
  world : W;
  log : list Event
}.

(** The body of [for file_path, last_position in files_to_check]. *)
Definition check_file (fs : gmap string FS.Node) (hs : list Handler)
    (r : Run) (item : string * nat) : Run :=
  let '(file_path, last_position) := item in
  match fs !! file_path with
  | None => r
  | Some node =>
      let current_size := FS.node_size node in
      if bool_decide (last_position < current_size)
      then
        match node with
        | FS.Dir _ => mkRun (files r) (world r) (log r ++ [EvError file_path])
        | FS.File content =>
            mkRun (<[file_path := current_size]> (files r))
                  (foldl (handle_line hs file_path) (world r)
                         (new_lines content last_position))
                  (log r ++ [EvRead file_path last_position
                               (current_size - last_position)])
        end
      else r
  end.

(** One iteration of [_watch_loop]. *)
Definition poll (fs : gmap string FS.Node) (w : t) (world0 : W) : t * W * list Event :=
  let r := foldl (check_file fs (handlers w))
                 (mkRun (watched_files w) world0 [])
                 (map_to_list (watched_files w)) in
  (set_watched (files r) w, world r, log r).
End Watcher.

Arguments mk {W}.
Arguments watched_files {W}.
Arguments handlers {W}.
Arguments running {W}.
Arguments add_handler {W}.
Arguments set_watched {W}.
Arguments watch_file {W}.
Arguments watch_directory {W}.
Arguments start {W}.
Arguments stop {W}.
Arguments handle_line {W}.
Arguments mkRun {W}.
Arguments files {W}.
Arguments world {W}.
Arguments log {W}.
Arguments check_file {W}.
Arguments poll {W}.
End FileWatcher.

(** ** The engine *)
Module MeowLogger.

(** The storage the engine holds: one of the two backends. *)
Inductive Backend :=
| InMemory (m : MemoryStorage.t)
| OnFile (f : FileStorage.t).

Record Stats := mkStats {
  total_logs : nat;
  by_level : gmap string nat;
  by_pattern : gmap string nat;
  start_time : Z
}.

(** [d.get(k, 0)] *)
Definition count (d : gmap string nat) (k : string) : nat := default 0 (d !! k).

(** [d[k] = d.get(k, 0) + 1] *)
Definition bump (d : gmap string nat) (k : string) : gmap string nat :=
  <[k := count d k + 1]> d.

(** The part of the logger that the pipeline reads and writes;
    [clock] is what [datetime.now()] returns. *)
Record Core := mkCore {
  storage : Backend;
  processors : list LogProcessor;
  stats : Stats;
  clock : Z
}.

Record t := mk {
  watcher : FileWatcher.t Core;
  core : Core
}.

Definition set_core (c : Core) (l : t) : t := mk (watcher l) c.

(** The body of [if result:] in [_process_and_store]. *)
Definition apply_result (result : Enrichment) (entry : LogEntry) : LogEntry :=
  let entry :=
    match r_level result with
    | Some detected_level =>
        if bool_decide (level entry ∈ ["INFO"; "DEBUG"])
        then set_level detected_level entry
        else entry
    | None => entry
    end in
  match r_patterns result with
  | Some names =>
      let extra :=
        match extra_data entry with
        | Some x => if extra_nonempty x then x else mkExtra None ∅
        | None => mkExtra None ∅
        end in
      set_extra_data (Some (mkExtra (Some names) (fields extra))) entry
  | None => entry
  end.

(** [for processor in self.processors] *)
Definition run_processors (ps : list LogProcessor) (entry : LogEntry) : LogEntry :=
  foldl (fun entry processor =>
           match processor entry with
           | Some result => apply_result result entry
           | None => entry
           end) entry ps.

(** The names the statistics loop iterates over. *)
Definition entry_patterns (entry : LogEntry) : list string :=
  match extra_data entry with
  | Some x => default [] (patterns x)
  | None => []
  end.

Definition update_stats (entry : LogEntry) (s : Stats) : Stats :=
  mkStats (total_logs s + 1)
          (bump (by_level s) (level entry))
          (foldl bump (by_pattern s) (entry_patterns entry))
          (start_time s).

Section Engine.
Variable json_size : LogEntry → nat.

#[export] Instance FileStorage_LogStorage : LogStorage FileStorage.t :=
  {| store := FileStorage.store json_size; retrieve := FileStorage.retrieve |}.

#[export] Instance Backend_LogStorage : LogStorage Backend :=
  {| store entry b :=
       match b with
       | InMemory m => InMemory (store entry m)
       | OnFile f => OnFile (store entry f)
       end;
     retrieve filters limit b :=
       match b with
       | InMemory m => retrieve filters limit m
       | OnFile f => retrieve filters limit f
       end |}.

Definition _process_and_store (entry : LogEntry) (c : Core) : Core :=
  let entry := run_processors (processors c) entry in
  mkCore (store entry (storage c)) (processors c)
         (update_stats entry (stats c)) (clock c).

(** [log(level, message, **kwargs)]; [message] is [None] or the text
    [str(message)]. *)
Definition log (level : string) (message : option string) (kwargs : ExtraData)
    (c : Core) : Core :=
  let entry :=
    mkEntry (clock c) (Text.str (Text.upper (Text.chars level)))
            (default EmptyString message) None None
            (if extra_nonempty kwargs then Some kwargs else None) in
  _process_and_store entry c.

Definition _handle_new_line (file_path line : string) (c : Core) : Core :=
  _process_and_store (mkEntry (clock c) "INFO" line (Some file_path) None None) c.

Definition get_logs (filters : gmap string Value) (c : Core)
  : Exn + list LogEntry :=
  retrieve filters DEFAULT_LIMIT (storage c).

Definition set_storage (b : Backend) (c : Core) : Core :=
  mkCore b (processors c) (stats c) (clock c).

Definition add_processor (p : LogProcessor) (c : Core) : Core :=
  mkCore (storage c) (processors c ++ [p]) (stats c) (clock c).

(** [MeowLogger()] at time [now] *)
Definition init (now : Z) : t :=
  mk (FileWatcher.add_handler _handle_new_line (FileWatcher.init Core))
     (mkCore (InMemory (MemoryStorage.init MemoryStorage.DEFAULT_MAX_ENTRIES))
             [LogLevelParser.process; PatternDetector.process]
             (mkStats 0 ∅ ∅ now) now).

(** [watch(path)]: the logger afterwards, and the exception raised,
    if any. *)
Definition watch (fs : gmap string FS.Node) (path : string) (l : t)
  : t * option Exn :=
  if FS.isfile fs path
  then (mk (FileWatcher.watch_file fs path (watcher l)) (core l), None)
  else if FS.isdir fs path
  then (mk (FileWatcher.watch_directory fs path "*.log" (watcher l)) (core l), None)
  else (l, Some (ValueError ("Path does not exist: " +:+ path))).

Definition start (l : t) : t := mk (FileWatcher.start (watcher l)) (core l).
Definition stop (l : t) : t := mk (FileWatcher.stop (watcher l)) (core l).

(** One iteration of the watcher loop of a started logger. *)
Definition poll (fs : gmap string FS.Node) (l : t) : t :=
  if FileWatcher.running (watcher l)
  then let '(w, c, _) := FileWatcher.poll fs (watcher l) (core l) in mk w c
  else l.

(** The operations of the engine. *)
Inductive Op :=
| OpLog (level : string) (message : option string) (kwargs : ExtraData)
| OpGetLogs (filters : gmap string Value)
| OpSetStorage (b : Backend)
| OpAddProcessor (p : LogProcessor)
| OpWatch (fs : gmap string FS.Node) (path : string)
| OpStart
| OpStop
| OpPoll (fs : gmap string FS.Node)
| OpTick (now : Z).

Definition run (op : Op) (l : t) : t :=
  match op with
  | OpLog level message kwargs => set_core (log level message kwargs (core l)) l
  | OpGetLogs _ => l
  | OpSetStorage b => set_core (set_storage b (core l)) l
  | OpAddProcessor p => set_core (add_processor p (core l)) l
  | OpWatch fs path => (watch fs path l).1
  | OpStart => start l
  | OpStop => stop l
  | OpPoll fs => poll fs l
  | OpTick now =>
      set_core (mkCore (storage (core l)) (processors (core l))
                       (stats (core l)) now) l
  end.
End Engine.
End MeowLogger.

(** ** The engine of [modular-core-logger.py]

    The older copy of the module; its [_process_and_store] differs from
    the one of [modular_core.py] in the update of the level. *)
Module ModularCoreLogger.
Import MeowLogger.

Definition apply_result (result : Enrichment) (entry : LogEntry) : LogEntry :=
  let entry :=
    match r_level result with
    | Some l => set_level l entry
    | None => entry
    end in
  match r_patterns result with
  | Some names =>
      let extra :=
        match extra_data entry with
        | Some x => if extra_nonempty x then x else mkExtra None ∅
        | None => mkExtra None ∅
        end in
      set_extra_data (Some (mkExtra (Some names) (fields extra))) entry
  | None => entry
  end.

Definition run_processors (ps : list LogProcessor) (entry : LogEntry) : LogEntry :=
  foldl (fun entry processor =>
           match processor entry with
           | Some result => apply_result result entry
           | None => entry
           end) entry ps.

Section Engine.
Variable json_size : LogEntry → nat.

Definition _process_and_store (entry : LogEntry) (c : Core) : Core :=
  let entry := run_processors (processors c) entry in
  mkCore (@store _ (Backend_LogStorage json_size) entry (storage c)) (processors c)
         (update_stats entry (stats c)) (clock c).

Definition log (level message : string) (kwargs : ExtraData) (c : Core) : Core :=
  let entry :=
    mkEntry (clock c) (Text.str (Text.upper (Text.chars level))) message None None
            (if extra_nonempty kwargs then Some kwargs else None) in
  _process_and_store entry c.
End Engine.
End ModularCoreLogger.


(** ** Predicates of the statements *)

(** The level the parser reports for an entry. *)
Definition parsed (entry : LogEntry) (lvl : string) : Prop :=
  LogLevelParser.process entry = Some (mkEnrich (Some lvl) None).

(** No counter of [s] is larger than in [s']. *)
Definition stats_le (s s' : MeowLogger.Stats) : Prop :=
  MeowLogger.total_logs s ≤ MeowLogger.total_logs s' ∧
  (∀ k, MeowLogger.count (MeowLogger.by_level s) k
        ≤ MeowLogger.count (MeowLogger.by_level s') k) ∧
  (∀ k, MeowLogger.count (MeowLogger.by_pattern s) k
        ≤ MeowLogger.count (MeowLogger.by_pattern s') k).

(** How many times [p] occurs in [l]. *)
Definition occurrences (p : string) (l : list string) : nat :=
  length (filter (fun x => x = p) l).

(** The logger after a sequence of operations on a fresh one. *)
Definition after_ops (json_size : LogEntry → nat) (now : Z)
    (ops : list MeowLogger.Op) : MeowLogger.t :=
  foldl (fun l op => MeowLogger.run json_size op l) (MeowLogger.init json_size now) ops.

(** An invocation of a handler: the handler, the path and the line. *)
Definition Call (W : Type) : Type := FileWatcher.Handler W * string * string.

Definition run_calls {W} (cs : list (Call W)) (w : W) : W :=
  foldl (fun w '(h, path, line) => h path line w) w cs.

(** The invocations for the lines read from one file: none for a line
    that is empty once stripped, else one per handler, in the order of
    the handlers. *)
Definition calls_for {W} (hs : list (FileWatcher.Handler W)) (path : string)
    (lines : list text) : list (Call W) :=
  line ← lines;
  match Text.strip line with
  | [] => []
  | c :: l => (fun h => (h, path, Text.str (c :: l))) <$> hs
  end.

(** The invocations one pass of the loop makes for one watched file. *)
Definition file_calls {W} (fs : gmap string FS.Node)
    (hs : list (FileWatcher.Handler W)) (path : string) (last : nat)
  : list (Call W) :=
  match fs !! path with
  | Some (FS.File content) =>
      if bool_decide (last < String.length content)
      then calls_for hs path (FileWatcher.new_lines content last)
      else []
  | _ => []
  end.

(** The offset one pass of the loop leaves for one watched file. *)
Definition new_position (fs : gmap string FS.Node) (path : string) (last : nat) : nat :=
  match fs !! path with
  | Some (FS.File content) => Nat.max last (String.length content)
  | _ => last
  end.

(** The last [n] elements of a list. *)
Definition last_n {A} (n : nat) (l : list A) : list A := drop (length l - n) l.

(** A read the loop makes: it starts at the recorded offset of a
    watched file and has positive length. *)
Definition read_ok (fs : gmap string FS.Node) (items : list (string * nat))
    (e : FileWatcher.Event) : Prop :=
  match e with
  | FileWatcher.EvRead p off n =>
      (p, off) ∈ items ∧ 0 < n ∧
      ∃ content, fs !! p = Some (FS.File content) ∧ off + n = String.length content
  | FileWatcher.EvError p => FS.isdir fs p = true
  end.

(** A handler that records its arguments. *)
Definition recorder : FileWatcher.Handler (list (string * string)) :=
  fun path line seen => seen ++ [(path, line)].

(** A text followed by a line feed. *)
Definition line_of (s : string) : string :=
  Text.str (Text.chars s ++ [FileWatcher.LF]).

Definition core_le (c c' : MeowLogger.Core) : Prop :=
  stats_le (MeowLogger.stats c) (MeowLogger.stats c').

(** The watcher of the engine has its one handler. *)
Definition own_handler (json_size : LogEntry → nat) (l : MeowLogger.t) : Prop :=
  FileWatcher.handlers (MeowLogger.watcher l)
  = [MeowLogger._handle_new_line json_size].

(** ** The callers: the example application and the web API *)

(** [SeverityProcessor] of [example-app-launcher.py]. *)
Module SeverityProcessor.
Import Text.

(** [any(word in message_lower for word in words)] *)
Definition has_any (words : list string) (message_lower : text) : bool :=
  existsb (fun word => contains (chars word) message_lower) words.

(** The value of the key [severity] of the result, [None] when the
    processor returns [None]. *)
Definition severity_of (msg : string) : option string :=
  let message_lower := lower (chars msg) in
  if has_any ["critical"; "fatal"; "emergency"] message_lower then Some "CRITICAL"
  else if has_any ["error"; "fail"; "exception"] message_lower then Some "HIGH"
  else if has_any ["warn"; "warning"; "caution"] message_lower then Some "MEDIUM"
  else None.

(** [process]: the result has the key [severity] only, so neither of the
    two keys the engine reads. *)
Definition process : LogProcessor :=
  fun entry =>
    match severity_of (message entry) with
    | Some _ => Some (mkEnrich None None)
    | None => None
    end.
End SeverityProcessor.

(** [CatProcessor] of [example-app-launcher.py]; the list [cat_words]
    is set in a constructor that the source does not show, and is a
    parameter here. *)
Module CatProcessor.
Import Text.

(** The value of the key [cat_word] of the result: the first word of
    the list that the lowercased message contains. *)
Definition cat_word (cat_words : list string) (msg : string) : option string :=
  let message_lower := lower (chars msg) in
  head (filter (fun word => Is_true (contains (chars word) message_lower)) cat_words).

Definition process (cat_words : list string) : LogProcessor :=
  fun entry =>
    match cat_word cat_words (message entry) with
    | Some _ => Some (mkEnrich None None)
    | None => None
    end.
End CatProcessor.

(** [APIHandler] of [modular-web-interface.py]. *)
Module APIHandler.

(** What the handlers can raise. *)
Inductive Error :=
| IndexError                 (* [[0]] on an empty list of values *)
| IntValueError (s : string) (* [int(s)] on a text that is no integer *)
| Raised (e : Exn).          (* raised by the logger *)

(** The result of [handle_logs]; [logs] holds the entries whose
    [to_dict] the handler returns. *)
Record LogsResult := mkLogs {
  logs : list LogEntry;
  total : nat;
  filters : gmap string Value
}.

(** [params.get(k, [default])[0]] *)
Definition first_value (params : gmap string (list string)) (k dflt : string)
  : Error + string :=
  match params !! k with
  | Some (v :: _) => inr v
  | Some [] => inl IndexError
  | None => inr dflt
  end.

(** [{k: v for k, v in filters.items() if v}] *)
Definition remove_empty (filters : gmap string Value) : gmap string Value :=
  filter (fun kv => Is_true (truthy kv.2)) filters.

Section API.
Variable json_size : LogEntry → nat.
(** The built-in [int] on a text: [None] when it raises [ValueError]. *)
Variable int : string → option Z.

Definition handle_logs (params : gmap string (list string)) (c : MeowLogger.Core)
  : Error + LogsResult :=
  match first_value params "level" EmptyString with
  | inl err => inl err
  | inr lvl =>
      match first_value params "search" EmptyString with
      | inl err => inl err
      | inr search =>
          match first_value params "limit" "100" with
          | inl err => inl err
          | inr lim =>
              match int lim with
              | None => inl (IntValueError lim)
              | Some n =>
                  let filters :=
                    remove_empty
                      (<["limit" := VInt n]>
                         (<["search" := VStr search]> {["level" := VStr lvl]})) in
                  match MeowLogger.get_logs json_size filters c with
                  | inl exn => inl (Raised exn)
                  | inr logs => inr (mkLogs logs (length logs) filters)
                  end
              end
          end
      end
  end.

(** [handle_clear] *)
Definition handle_clear (c : MeowLogger.Core) : MeowLogger.Core :=
  MeowLogger.mkCore
    (match MeowLogger.storage c with
     | MeowLogger.InMemory m =>
         MeowLogger.InMemory (MemoryStorage.mk (MemoryStorage.max_entries m) [])
     | MeowLogger.OnFile f => MeowLogger.OnFile f
     end)
    (MeowLogger.processors c)
    (MeowLogger.mkStats 0 ∅ ∅ (MeowLogger.start_time (MeowLogger.stats c)))
    (MeowLogger.clock c).
End API.
End APIHandler.

(** [MeowLoggerApp.__init__] of [example-app-launcher.py]: the logger
    of the application.  [storage_file] is [None] for the memory
    storage, else the state of the log file to use. *)
Module MeowLoggerApp.
#[warnings="-abstract-large-number"] Definition MEMORY_ENTRIES : nat := 50000.

Definition init (json_size : LogEntry → nat) (cat_words : list string)
    (storage_file : option FileStorage.t) (now : Z) : MeowLogger.t :=
  let l := MeowLogger.init json_size now in
  let b := match storage_file with
           | Some f => MeowLogger.OnFile f
           | None => MeowLogger.InMemory (MemoryStorage.init MEMORY_ENTRIES)
           end in
  MeowLogger.set_core
    (MeowLogger.add_processor SeverityProcessor.process
       (MeowLogger.add_processor (CatProcessor.process cat_words)
          (MeowLogger.set_storage b (MeowLogger.core l)))) l.
End MeowLoggerApp.

(** ** Further predicates of the statements *)

(** The language of a regular expression. *)
Inductive lang : Text.regex → text → Prop :=
| lang_eps : lang Text.Eps []
| lang_chr p c : p c = true → lang (Text.Chr p) [c]
| lang_seq r1 r2 t1 t2 :
    lang r1 t1 → lang r2 t2 → lang (Text.Seq r1 r2) (t1 ++ t2)
| lang_alt_l r1 r2 t : lang r1 t → lang (Text.Alt r1 r2) t
| lang_alt_r r1 r2 t : lang r2 t → lang (Text.Alt r1 r2) t
| lang_star_nil r : lang (Text.Star r) []
| lang_star_cons r t1 t2 :
    lang r t1 → lang (Text.Star r) t2 → lang (Text.Star r) (t1 ++ t2).

(** [needle] occurs in [hay]. *)
Definition substring (needle hay : text) : Prop :=
  ∃ pre post, hay = pre ++ needle ++ post.

(** [needle] occurs in [hay], letter case apart. *)
Definition substring_ci (needle hay : string) : Prop :=
  substring (Text.lower (Text.chars needle)) (Text.lower (Text.chars hay)).

(** All letters of the text are upper case. *)
Definition is_upper (s : string) : Prop :=
  Text.str (Text.upper (Text.chars s)) = s.

(** What the three filters ask of an entry. *)
Definition accepts (filters : gmap string Value) (e : LogEntry) : Prop :=
  (∀ v, active filters "level" = Some v → v = VStr (level e)) ∧
  (∀ v, active filters "search" = Some v →
        ∃ s, v = VStr s ∧ substring_ci s (message e)) ∧
  (∀ v, active filters "file_path" = Some v →
        ∃ p, v = VStr p ∧ file_path e = Some p).

(** The sum of the counters of a dictionary. *)
Definition sum_counts (d : gmap string nat) : nat :=
  map_fold (fun _ n acc => n + acc) 0 d.

(** The level counters add up to the total. *)
Definition counted (c : MeowLogger.Core) : Prop :=
  sum_counts (MeowLogger.by_level (MeowLogger.stats c))
  = MeowLogger.total_logs (MeowLogger.stats c).

(** The entry passes the three tests of [retrieve] (a test that raises
    does not pass). *)
Definition keeps (filters : gmap string Value) (e : LogEntry) : bool :=
  match matches_filters e filters with
  | inr true => true
  | _ => false
  end.

(** The filters hold no integer where [retrieve] calls [lower]. *)
Definition text_search (filters : gmap string Value) : Prop :=
  ∀ n, active filters "search" ≠ Some (VInt n).

(** The entries that the lines of a file decode to. *)
Definition decoded (lines : list FileStorage.FileLine) : list LogEntry :=
  omap FileStorage.decode lines.



(** The message holds one of the words, letter case apart. *)
Definition mentions (words : list string) (msg : string) : Prop :=
  ∃ w, w ∈ words ∧ substring_ci w msg.

(** The backend takes a record: a memory storage of positive capacity,
    or a file storage whose log file can be opened for appending. *)
Definition accepting (b : MeowLogger.Backend) : Prop :=
  match b with
  | MeowLogger.InMemory m => 0 < MemoryStorage.max_entries m
  | MeowLogger.OnFile f => FileStorage.writable f = true
  end.


(** All characters of the text are in the ASCII range. *)
Definition ascii_only (s : string) : Prop :=
  Forall (fun c => (Text.code c < 128)%N) (Text.chars s).

(** Fixtures of the examples: a size for every record, an entry with a
    level and a message, the messages of a result. *)
Definition fixed_size : LogEntry → nat := fun _ => 100.
Definition plain_entry (lvl msg : string) : LogEntry :=
  mkEntry 0 lvl msg None None None.
Definition messages_of (r : Exn + list LogEntry) : option (list string) :=
  match r with
  | inr l => Some (message <$> l)
  | inl _ => None
  end.

(** * Properties *)

(** ** Text *)
Section TextFacts.
Import Text.

Lemma str_chars s : str (chars s) = s.
Proof. apply String.string_of_list_ascii_of_string. Qed.

Lemma chars_str t : chars (str t) = t.
Proof. apply String.list_ascii_of_string_of_list_ascii. Qed.

Lemma chars_inj s1 s2 : chars s1 = chars s2 → s1 = s2.
Proof. intros H. rewrite <- (str_chars s1), <- (str_chars s2). by rewrite H. Qed.

Lemma to_lower_upper c : to_lower (to_upper c) = to_lower c.
Proof. by destruct c as [[] [] [] [] [] [] [] []]. Qed.

Lemma to_upper_lower c : to_upper (to_lower c) = to_upper c.
Proof. by destruct c as [[] [] [] [] [] [] [] []]. Qed.

Lemma lower_upper t : lower (upper t) = lower t.
Proof.
  unfold lower, upper. rewrite <- list_fmap_compose.
  apply list_fmap_ext. intros _ c _. apply to_lower_upper.
Qed.

Lemma upper_lower t : upper (lower t) = upper t.
Proof.
  unfold lower, upper. rewrite <- list_fmap_compose.
  apply list_fmap_ext. intros _ c _. apply to_upper_lower.
Qed.

Lemma span_spec p t w r :
  span p t = (w, r) →
  t = w ++ r ∧ Forall (fun c => p c = true) w ∧
  match r with [] => True | c :: _ => p c = false end.
Proof.
  revert w r. induction t as [|c t IH]; intros w r; simpl.
  - intros [= <- <-]. by repeat split.
  - destruct (p c) eqn:Hc.
    + destruct (span p t) as [w' r'] eqn:Hs. intros [= <- <-].
      destruct (IH _ _ eq_refl) as (-> & Hw & Hr).
      repeat split; [by constructor | done].
    + intros [= <- <-]. by repeat split.
Qed.

Lemma span_app p w r :
  Forall (fun c => p c = true) w →
  match r with [] => True | c :: _ => p c = false end →
  span p (w ++ r) = (w, r).
Proof.
  intros Hw Hr. induction Hw as [|c w Hc Hw IH]; simpl.
  - destruct r as [|c r]; [done|]. simpl. by rewrite Hr.
  - by rewrite Hc, IH.
Qed.

(** [search] returns the match at the leftmost position that has one. *)
Lemma search_Some {A} (m : text → option A) t x :
  search m t = Some x ↔
  ∃ pre post, t = pre ++ post ∧ m post = Some x ∧
    ∀ pre' post', t = pre' ++ post' → length pre' < length pre → m post' = None.
Proof.
  split.
  - induction t as [|c t IH]; simpl.
    + destruct (m []) eqn:Hm; [|done]. intros [= ->].
      exists [], []. repeat split; [done|]. simpl. lia.
    + destruct (m (c :: t)) eqn:Hm.
      * intros [= ->]. exists [], (c :: t). repeat split; [done|]. simpl. lia.
      * intros (pre & post & -> & Hp & Hmin)%IH.
        exists (c :: pre), post. repeat split; [done|].
        intros [|c' pre'] post' Heq Hlen; simplify_eq/=; [done|].
        eapply Hmin; [done | lia].
  - intros (pre & post & -> & Hp & Hmin).
    induction pre as [|c pre IH]; simpl in *.
    + destruct post; simpl; by rewrite Hp.
    + rewrite (Hmin [] (c :: pre ++ post)); [|done | simpl; lia].
      apply IH. intros pre' post' Heq Hlen.
      apply (Hmin (c :: pre') post'); [by rewrite Heq | simpl; lia].
Qed.

Lemma search_None {A} (m : text → option A) t :
  search m t = None ↔ ∀ pre post, t = pre ++ post → m post = None.
Proof.
  split.
  - induction t as [|c t IH]; simpl.
    + destruct (m []) eqn:Hm; [done|]. intros _ pre post Heq.
      symmetry in Heq. apply app_eq_nil in Heq as [-> ->]. done.
    + destruct (m (c :: t)) eqn:Hm; [done|]. intros Hs [|c' pre] post Heq.
      * by simplify_eq/=.
      * simplify_eq/=. by eapply IH.
  - intros H. induction t as [|c t IH]; simpl.
    + by rewrite (H [] []).
    + rewrite (H [] (c :: t)); [|done]. apply IH.
      intros pre post ->. by apply (H (c :: pre) post).
Qed.

Lemma lstrip_spec t :
  ∃ l, t = l ++ lstrip t ∧ Forall (fun c => is_space c = true) l ∧
       match lstrip t with [] => True | c :: _ => is_space c = false end.
Proof.
  induction t as [|c t (l & Ht & Hl & Hh)]; simpl.
  - by exists [].
  - destruct (is_space c) eqn:Hc.
    + exists (c :: l). split; [simpl; congruence|]. split; [by constructor | done].
    + by exists [].
Qed.

Lemma lstrip_all_space t :
  Forall (fun c => is_space c = true) t → lstrip t = [].
Proof. induction 1 as [|c t Hc _ IH]; simpl; [done|]. by rewrite Hc. Qed.

Lemma lstrip_app t1 t2 :
  lstrip (t1 ++ t2) = match lstrip t1 with [] => lstrip t2 | _ => lstrip t1 ++ t2 end.
Proof.
  induction t1 as [|c t1 IH]; simpl; [done|]. by destruct (is_space c).
Qed.

(** [strip] removes the whitespace at both ends and nothing else. *)
Lemma strip_spec t :
  ∃ l r, t = l ++ strip t ++ r ∧
    Forall (fun c => is_space c = true) l ∧ Forall (fun c => is_space c = true) r ∧
    match strip t with
    | [] => True
    | c :: _ => is_space c = false ∧
                ∃ d, last (strip t) = Some d ∧ is_space d = false
    end.
Proof.
  unfold strip, rstrip.
  destruct (lstrip_spec t) as (l & Ht & Hl & Hh).
  destruct (lstrip_spec (reverse (lstrip t))) as (r & Hr & Hrs & Hrh).
  set (u := lstrip (reverse (lstrip t))) in *.
  exists l, (reverse r).
  assert (lstrip t = reverse u ++ reverse r) as Hlt.
  { rewrite <- reverse_app, <- Hr. by rewrite reverse_involutive. }
  split; [by rewrite <- Hlt|]. split; [done|].
  split; [by apply Forall_reverse|].
  destruct (reverse u) as [|c v] eqn:Hu; [done|].
  assert (u = reverse (c :: v)) as Hu' by (by rewrite <- Hu, reverse_involutive).
  split.
  - rewrite Hlt in Hh. exact Hh.
  - rewrite reverse_cons in Hu'. destruct u as [|d u'].
    { by destruct (reverse v). }
    exists d. split; [|done].
    rewrite <- Hu, reverse_cons. apply last_snoc.
Qed.

Lemma strip_app_space t c : is_space c = true → strip (t ++ [c]) = strip t.
Proof.
  intros Hc. unfold strip, rstrip. rewrite lstrip_app.
  destruct (lstrip t) as [|d u] eqn:Hu.
  - simpl. by rewrite Hc.
  - rewrite reverse_app, reverse_singleton. simpl. by rewrite Hc.
Qed.

Lemma length_chars s : length (chars s) = String.length s.
Proof. induction s as [|c s IH]; simpl; [done|]. by rewrite IH. Qed.
End TextFacts.

(** ** Log level parser *)
Section LevelParserFacts.
Import Text LogLevelParser.

Lemma match_bracket_spec t w :
  match_bracket t = Some w ↔ bracketed_at t [] w.
Proof.
  unfold match_bracket, bracketed_at. split.
  - destruct t as [|c r]; [done|].
    destruct (decide (c = "["%char)) as [->|Hc];
      [|by destruct c as [[] [] [] [] [] [] [] []]].
    destruct (span is_word r) as [w' r'] eqn:Hs.
    apply span_spec in Hs as (-> & Hw & _).
    destruct w' as [|c w']; [done|]. destruct r' as [|d r']; [done|].
    destruct (decide (d = "]"%char)) as [->|Hd];
      [|by destruct d as [[] [] [] [] [] [] [] []]].
    intros [= <-]. by exists r'.
  - intros (post & -> & Hne & Hw). simpl.
    rewrite (span_app is_word w ("]"%char :: post)); [|done..].
    by destruct w.
Qed.

Lemma match_leading_spec t w :
  match_leading t = Some w ↔ leading t w.
Proof.
  unfold match_leading, leading. split.
  - destruct (span is_word t) as [w' r'] eqn:Hs.
    apply span_spec in Hs as (-> & Hw & _).
    destruct w' as [|c w']; [done|]. destruct r' as [|d r']; [done|].
    destruct (decide (d = ":"%char)) as [->|Hd];
      [|by destruct d as [[] [] [] [] [] [] [] []]].
    intros [= <-]. by exists r'.
  - intros (post & -> & Hne & Hw).
    rewrite (span_app is_word w (":"%char :: post)); [|done..].
    by destruct w.
Qed.

(** A matcher anchored at the head, lifted to a position in the text:
    [search] finds the leftmost position. *)
Lemma search_first {A} (m : text → option A) (P : text → text → A → Prop) t :
  (∀ pre post x, t = pre ++ post → (m post = Some x ↔ P t pre x)) →
  ∀ pre x, P t pre x → (∀ pre' x', P t pre' x' → length pre ≤ length pre') →
  (∃ post, t = pre ++ post) →
  search m t = Some x.
Proof.
  intros Hm pre x HP Hmin [post Ht]. apply search_Some.
  exists pre, post. split; [done|]. split; [by apply (Hm pre post x Ht)|].
  intros pre' post' Ht' Hlen.
  destruct (m post') as [x'|] eqn:Hx; [|done].
  apply (Hm pre' post' x' Ht') in Hx. apply Hmin in Hx. lia.
Qed.

Lemma bracketed_at_shift t pre post w :
  t = pre ++ post → bracketed_at post [] w ↔ bracketed_at t pre w.
Proof.
  intros ->. unfold bracketed_at. split.
  - intros (post' & -> & ? & ?). by exists post'.
  - intros (post' & Heq & ? & ?). apply app_inv_head in Heq as ->. by exists post'.
Qed.

Lemma search_bracket_first t pre w :
  first_at (bracketed_at t) pre w → search match_bracket t = Some w.
Proof.
  intros [HP Hmin].
  apply (search_first match_bracket (fun t pre w => bracketed_at t pre w) t) with pre.
  - intros pre' post x Ht. rewrite match_bracket_spec. by apply bracketed_at_shift.
  - done.
  - done.
  - destruct HP as (post & -> & _). eauto.
Qed.

Lemma search_bracket_none t :
  (∀ pre w, ¬ bracketed_at t pre w) → search match_bracket t = None.
Proof.
  intros Hno. apply search_None. intros pre post Ht.
  destruct (match_bracket post) as [w|] eqn:Hm; [|done].
  apply match_bracket_spec, (bracketed_at_shift t pre post w Ht) in Hm.
  by destruct (Hno pre w).
Qed.

Lemma match_leading_none t :
  (∀ w, ¬ leading t w) → match_leading t = None.
Proof.
  intros Hno. destruct (match_leading t) as [w|] eqn:Hm; [|done].
  apply match_leading_spec in Hm. by destruct (Hno w).
Qed.

Lemma first_some_None {A B} (f : A → option B) l :
  first_some f l = None ↔ Forall (fun x => f x = None) l.
Proof.
  induction l as [|x l IH]; simpl; [by split|].
  destruct (f x) eqn:Hx.
  - split; [done|]. intros [??]%Forall_cons. congruence.
  - rewrite IH. split; [by constructor|]. by intros [??]%Forall_cons.
Qed.

Lemma first_some_Some {A B} (f : A → option B) l y :
  first_some f l = Some y → ∃ x, x ∈ l ∧ f x = Some y.
Proof.
  induction l as [|x l IH]; simpl; [done|].
  destruct (f x) eqn:Hx.
  - intros [= ->]. exists x. split; [by left | done].
  - intros (x' & ? & ?)%IH. exists x'. split; [by right | done].
Qed.

Lemma match_word_ci_spec k t c :
  match_word_ci k t = Some c ↔ take (length k) t = c ∧ lower c = lower k.
Proof.
  unfold match_word_ci. case_bool_decide as H.
  - split; [by intros [= <-]|]. by intros [-> _].
  - split; [done|]. by intros [<- ?].
Qed.

Lemma keyword_upper k :
  k ∈ LEVEL_KEYWORDS → upper (lower (chars k)) = chars k.
Proof.
  unfold LEVEL_KEYWORDS. rewrite !elem_of_cons, elem_of_nil.
  intros [->|[->|[->|[->|[->|[->|[]]]]]]]; reflexivity.
Qed.

Lemma keyword_at_head post k :
  keyword_at post [] k →
  ∃ c k', k = c :: k' ∧ length k = length (chars (str (upper k))).
Proof.
  intros (rest & -> & Hin). rewrite chars_str.
  rewrite (length_fmap to_upper k : length (upper k) = length k). destruct k as [|c k']; [|by eauto].
  exfalso. revert Hin. simpl. unfold LEVEL_KEYWORDS.
  rewrite !elem_of_cons, elem_of_nil.
  intros [?|[?|[?|[?|[?|[?|[]]]]]]]; discriminate.
Qed.

(** No two keywords start with the same letter. *)
Lemma keyword_first_letter k1 k2 c t1 t2 :
  k1 ∈ LEVEL_KEYWORDS → k2 ∈ LEVEL_KEYWORDS →
  chars k1 = c :: t1 → chars k2 = c :: t2 → k1 = k2.
Proof.
  unfold LEVEL_KEYWORDS. rewrite !elem_of_cons, !elem_of_nil.
  intros [->|[->|[->|[->|[->|[->|[]]]]]]] [->|[->|[->|[->|[->|[->|[]]]]]]];
    simpl; intros [= <- <-]; (done || intros [= ?]).
Qed.

Lemma match_keyword_spec t k :
  match_keyword t = Some k ↔ keyword_at t [] k.
Proof.
  split.
  - intros (K & HK & Hm)%first_some_Some.
    apply match_word_ci_spec in Hm as [Ht Hlow].
    exists (drop (length (chars K)) t). simpl. split.
    + by rewrite <- Ht, take_drop.
    + rewrite <- (upper_lower k), Hlow, keyword_upper, str_chars; done.
  - intros Hk.
    destruct (keyword_at_head _ _ Hk) as (c & k0 & Hkeq & Hlen).
    destruct Hk as (rest & Ht & HK). simpl in Ht.
    assert (match_word_ci (chars (str (upper k))) t = Some k) as Hyes.
    { apply match_word_ci_spec. rewrite <- Hlen, Ht.
      split; [apply take_app_length|]. by rewrite chars_str, lower_upper. }
    destruct (match_keyword t) as [k'|] eqn:Hm.
    + (* the candidate found is the same word *)
      apply first_some_Some in Hm as (K' & HK' & Hm).
      apply match_word_ci_spec in Hm as [Ht' Hlow'].
      assert (upper k' = chars K') as Hup'
        by (by rewrite <- (upper_lower k'), Hlow', keyword_upper).
      assert (K' = str (upper k)) as ->.
      { destruct (chars K') as [|c' t'] eqn:HcK'.
        - exfalso. revert HK' HcK'. unfold LEVEL_KEYWORDS.
          rewrite !elem_of_cons, elem_of_nil.
          intros [->|[->|[->|[->|[->|[->|[]]]]]]]; discriminate.
        - subst k t. simpl in Ht'. subst k'. simpl in Hup'.
          injection Hup' as Hc' _.
          eapply keyword_first_letter; [exact HK' | exact HK | |].
          + rewrite HcK', <- Hc'. reflexivity.
          + rewrite chars_str. reflexivity. }
      apply match_word_ci_spec in Hyes as [Hyes _]. congruence.
    + exfalso. apply first_some_None in Hm.
      rewrite Forall_forall in Hm. specialize (Hm _ HK). congruence.
Qed.

Lemma keyword_at_shift t pre post k :
  t = pre ++ post → keyword_at post [] k ↔ keyword_at t pre k.
Proof.
  intros ->. unfold keyword_at. split.
  - intros (post' & -> & ?). by exists post'.
  - intros (post' & Heq & ?). apply app_inv_head in Heq as ->. by exists post'.
Qed.

Lemma search_keyword_first t pre k :
  first_at (keyword_at t) pre k → search match_keyword t = Some k.
Proof.
  intros [HP Hmin].
  apply (search_first match_keyword (fun t pre k => keyword_at t pre k) t) with pre.
  - intros pre' post x Ht. rewrite match_keyword_spec. by apply keyword_at_shift.
  - done.
  - done.
  - destruct HP as (post & -> & _). eauto.
Qed.

Lemma search_keyword_none t :
  (∀ pre k, ¬ keyword_at t pre k) → search match_keyword t = None.
Proof.
  intros Hno. apply search_None. intros pre post Ht.
  destruct (match_keyword post) as [w|] eqn:Hm; [|done].
  apply match_keyword_spec, (keyword_at_shift t pre post w Ht) in Hm.
  by destruct (Hno pre w).
Qed.

(** C6.  The level parser tries the bracketed form, then the leading
    form, then a bare keyword anywhere (in any letter case), and reports
    the word of the first recognizer that matches, uppercased; it
    reports INFO when none matches.  The three messages of the
    specification yield ERROR, WARNING and INFO. *)
Theorem level_parser_recognizers :
  (∀ entry pre w,
     first_at (bracketed_at (chars (message entry))) pre w →
     parsed entry (str (upper w))) ∧
  (∀ entry w,
     (∀ pre w', ¬ bracketed_at (chars (message entry)) pre w') →
     leading (chars (message entry)) w →
     parsed entry (str (upper w))) ∧
  (∀ entry pre k,
     (∀ pre' w, ¬ bracketed_at (chars (message entry)) pre' w) →
     (∀ w, ¬ leading (chars (message entry)) w) →
     first_at (keyword_at (chars (message entry))) pre k →
     parsed entry (str (upper k)) ∧ str (upper k) ∈ LEVEL_KEYWORDS) ∧
  (∀ entry,
     (∀ pre w, ¬ bracketed_at (chars (message entry)) pre w) →
     (∀ w, ¬ leading (chars (message entry)) w) →
     (∀ pre k, ¬ keyword_at (chars (message entry)) pre k) →
     parsed entry "INFO") ∧
  (∀ ts lvl fp ln x,
     parsed (mkEntry ts lvl "[ERROR] disk full" fp ln x) "ERROR" ∧
     parsed (mkEntry ts lvl "WARNING: low memory" fp ln x) "WARNING" ∧
     parsed (mkEntry ts lvl "nothing special here" fp ln x) "INFO").
Proof.
  unfold parsed, LogLevelParser.process, level_of.
  split; [|split; [|split; [|split]]].
  - intros entry pre w Hb. by rewrite (search_bracket_first _ _ _ Hb).
  - intros entry w Hnb Hl. rewrite (search_bracket_none _ Hnb).
    apply match_leading_spec in Hl. by rewrite Hl.
  - intros entry pre k Hnb Hnl Hk. split.
    + rewrite (search_bracket_none _ Hnb), (match_leading_none _ Hnl).
      by rewrite (search_keyword_first _ _ _ Hk).
    + by destruct Hk as [(post & _ & Hin) _].
  - intros entry Hnb Hnl Hnk.
    by rewrite (search_bracket_none _ Hnb), (match_leading_none _ Hnl),
      (search_keyword_none _ Hnk).
  - done.
Qed.

Lemma level_parser_recognizers_witness :
  parsed (mkEntry 0 "INFO" "[warn] retry [ERROR]" None None None) "WARN".
Proof.
  apply (proj1 level_parser_recognizers
           (mkEntry 0 "INFO" "[warn] retry [ERROR]" None None None)
           [] (chars "warn")).
  split.
  - exists (chars " retry [ERROR]"). split; [reflexivity|].
    split; [discriminate | by repeat constructor].
  - intros pre' w' _. simpl. lia.
Defined.
End LevelParserFacts.

(** ** The pipeline *)
Section PipelineFacts.
Import MeowLogger.

Lemma apply_result_level result entry :
  level (apply_result result entry) ≠ level entry →
  level entry ∈ ["INFO"; "DEBUG"] ∧ r_level result = Some (level (apply_result result entry)).
Proof.
  unfold apply_result.
  destruct (r_level result) as [l|], (r_patterns result) as [ns|];
    try case_bool_decide; simpl; naive_solver.
Qed.

Lemma apply_result_keeps_level result entry :
  level entry ∉ ["INFO"; "DEBUG"] → level (apply_result result entry) = level entry.
Proof.
  intros Hhigh. destruct (decide (level (apply_result result entry) = level entry)) as [|Hne];
    [done|]. by apply apply_result_level in Hne as [? _].
Qed.

(** In [modular_core.py], a level that is neither INFO nor DEBUG when
    the entry is created is the level of the entry after the pipeline,
    whatever the processors are. *)
Lemma run_processors_keeps_level ps entry :
  level entry ∉ ["INFO"; "DEBUG"] → level (run_processors ps entry) = level entry.
Proof.
  revert entry. unfold run_processors.
  induction ps as [|p ps IH]; intros entry Hhigh; simpl; [done|].
  destruct (p entry) as [result|]; [|by apply IH].
  rewrite IH; rewrite apply_result_keeps_level; done.
Qed.

(** The same for a direct [log] call: the stored entry carries the
    uppercased level of the call. *)
Lemma log_keeps_level json_size lvl msg kwargs c :
  let l := Text.str (Text.upper (Text.chars lvl)) in
  l ∉ ["INFO"; "DEBUG"] →
  ∃ e, level e = l ∧
       storage (log json_size lvl msg kwargs c)
       = @store _ (Backend_LogStorage json_size) e (storage c) ∧
       count (by_level (stats (log json_size lvl msg kwargs c))) l
       = count (by_level (stats c)) l + 1.
Proof.
  intros l Hl. unfold log, _process_and_store.
  set (entry := mkEntry _ _ _ _ _ _).
  exists (run_processors (processors c) entry). simpl.
  rewrite run_processors_keeps_level by done. simpl. fold l.
  repeat split. unfold bump, count. by rewrite lookup_insert_eq.
Qed.
End PipelineFacts.

(** C2, on [modular-core-logger.py].  There the pipeline overwrites the
    level with every level a processor reports: a direct call
    [log("ERROR", "disk full")] on a fresh logger stores the entry at
    level INFO and counts it under INFO. *)
Theorem legacy_pipeline_overwrites_explicit_level :
  let json_size := fun _ : LogEntry => 100 in
  let c0 := MeowLogger.core (MeowLogger.init json_size 0) in
  let c1 := ModularCoreLogger.log json_size "ERROR" "disk full" (mkExtra None ∅) c0 in
  MeowLogger.get_logs json_size ∅ c1
    = inr [mkEntry 0 "INFO" "disk full" None None None] ∧
  MeowLogger.by_level (MeowLogger.stats c1) !! "ERROR" = None ∧
  MeowLogger.by_level (MeowLogger.stats c1) !! "INFO" = Some 1 ∧
  MeowLogger.get_logs json_size ∅
    (MeowLogger.log json_size "ERROR" (Some "disk full") (mkExtra None ∅) c0)
    = inr [mkEntry 0 "ERROR" "disk full" None None None].
Proof. vm_compute. repeat split. Qed.

(** ** Statistics *)
Section StatsFacts.
Import MeowLogger.
Variable json_size : LogEntry → nat.

Lemma count_bump d k k' :
  count (bump d k) k' = count d k' + (if decide (k' = k) then 1 else 0).
Proof.
  unfold bump, count. destruct (decide (k' = k)) as [->|Hne].
  - by rewrite lookup_insert_eq.
  - rewrite lookup_insert_ne by done. lia.
Qed.

Lemma count_foldl_bump l d p :
  count (foldl bump d l) p = count d p + occurrences p l.
Proof.
  unfold occurrences. revert d. induction l as [|x l IH]; intros d; simpl; [lia|].
  rewrite IH, count_bump, filter_cons. destruct (decide (x = p)) as [->|Hne].
  - rewrite decide_True by done. simpl. lia.
  - rewrite decide_False by done. lia.
Qed.

Lemma occurrences_not_in p l : p ∉ l → occurrences p l = 0.
Proof.
  unfold occurrences. induction l as [|x l IH]; [done|].
  intros [Hne Hp]%not_elem_of_cons. rewrite filter_cons, decide_False; auto.
Qed.

Lemma occurrences_NoDup p l : NoDup l → p ∈ l → occurrences p l = 1.
Proof.
  induction 1 as [|x l Hx Hl IH]; [by intros ?%elem_of_nil|].
  unfold occurrences in *. rewrite filter_cons. intros [->|Hin]%elem_of_cons.
  - rewrite decide_True by done. simpl. f_equal. by apply occurrences_not_in.
  - rewrite decide_False; [by apply IH|]. by intros ->.
Qed.

#[global] Instance stats_le_preorder : PreOrder stats_le.
Proof.
  split.
  - intros s. by repeat split.
  - intros s1 s2 s3 (? & Hl & Hp) (? & Hl' & Hp'). repeat split; [lia|..].
    + intros k. specialize (Hl k). specialize (Hl' k). lia.
    + intros k. specialize (Hp k). specialize (Hp' k). lia.
Qed.

Lemma update_stats_le entry s : stats_le s (update_stats entry s).
Proof.
  repeat split; simpl; [lia|..]; intros k.
  - rewrite count_bump. lia.
  - rewrite count_foldl_bump. lia.
Qed.

Lemma process_and_store_le entry c :
  stats_le (stats c) (stats (_process_and_store json_size entry c)).
Proof. apply update_stats_le. Qed.

(** The detector reports each name at most once. *)
Lemma detect_NoDup msg : NoDup (PatternDetector.detect msg).
Proof.
  unfold PatternDetector.detect.
  apply (sublist_NoDup _ (PatternDetector.PATTERNS.*1));
    [|apply fmap_sublist, sublist_filter].
  apply (bool_decide_unpack _). by vm_compute.
Qed.
End StatsFacts.

(** ** File watcher *)
Section WatcherFacts.
Import Text FileWatcher.
Context {W : Type}.
Implicit Types (hs : list (Handler W)) (fs : gmap string FS.Node) (r : Run W).

Lemma universal_newlines_plain t :
  Forall (fun c => c ≠ CR) t → universal_newlines t = t.
Proof.
  induction 1 as [|c t Hc _ IH]; simpl; [done|].
  rewrite bool_decide_false by done. by rewrite IH.
Qed.

Lemma readlines_one_line body :
  Forall (fun c => c ≠ LF) body → readlines (body ++ [LF]) = [body ++ [LF]].
Proof.
  induction 1 as [|c t Hc _ IH]; simpl; [done|].
  rewrite bool_decide_false by done. by rewrite IH.
Qed.

(** One line appended after the recorded offset is read as one line. *)
Lemma new_lines_appended content old body :
  chars content = old ++ body ++ [LF] →
  Forall (fun c => c ≠ LF ∧ c ≠ CR) body →
  new_lines content (length old) = [body ++ [LF]].
Proof.
  intros Hc Hbody. unfold new_lines. rewrite Hc, drop_app_length.
  rewrite universal_newlines_plain.
  - apply readlines_one_line. eapply Forall_impl; [done|]. by intros c [? _].
  - apply Forall_app. split.
    + eapply Forall_impl; [done|]. by intros c [_ ?].
    + by repeat constructor.
Qed.

Lemma handle_line_calls hs path w line :
  handle_line hs path w line = run_calls (calls_for hs path [line]) w.
Proof.
  unfold handle_line, calls_for, run_calls. simpl. rewrite app_nil_r.
  destruct (strip line) as [|c l]; [done|].
  generalize (str (c :: l)). intros s. revert w.
  induction hs as [|h hs IH]; intros w; simpl; [done|]. apply IH.
Qed.

Lemma calls_for_cons hs path line lines :
  calls_for hs path (line :: lines)
  = calls_for hs path [line] ++ calls_for hs path lines.
Proof. unfold calls_for. simpl. by rewrite app_nil_r. Qed.

Lemma run_calls_app (cs1 cs2 : list (Call W)) w :
  run_calls (cs1 ++ cs2) w = run_calls cs2 (run_calls cs1 w).
Proof. unfold run_calls. apply foldl_app. Qed.

Lemma handle_lines_calls hs path lines w :
  foldl (handle_line hs path) w lines = run_calls (calls_for hs path lines) w.
Proof.
  revert w. induction lines as [|line lines IH]; intros w; [done|].
  rewrite calls_for_cons, run_calls_app. simpl.
  by rewrite IH, handle_line_calls.
Qed.

(** What the body of the loop does for one file. *)
Lemma check_file_spec fs hs r path last :
  files r !! path = Some last →
  let r' := check_file fs hs r (path, last) in
  files r' = <[path := new_position fs path last]> (files r) ∧
  world r' = run_calls (file_calls fs hs path last) (world r) ∧
  ∃ ev, log r' = log r ++ ev ∧
    ∀ e, e ∈ ev →
      match e with
      | EvRead p off n =>
          p = path ∧ off = last ∧ 0 < n ∧
          ∃ content, fs !! path = Some (FS.File content) ∧
                     off + n = String.length content
      | EvError p => p = path ∧ FS.isdir fs path = true
      end.
Proof.
  intros Hlast. unfold check_file, new_position, file_calls, FS.isdir. simpl.
  destruct (fs !! path) as [[content|dsize]|] eqn:Hfs; simpl.
  - case_bool_decide as Hlt; simpl.
    + rewrite handle_lines_calls. split; [f_equal; lia|]. split; [done|].
      eexists. split; [done|]. intros e ->%list_elem_of_singleton.
      repeat split; [lia|]. exists content. split; [done | lia].
    + rewrite Nat.max_l by lia. rewrite insert_id by done.
      repeat split. exists []. split; [by rewrite app_nil_r|].
      by intros e ?%elem_of_nil.
  - rewrite insert_id by done. case_bool_decide; simpl.
    + repeat split. eexists. split; [done|].
      by intros e ->%list_elem_of_singleton.
    + repeat split. exists []. split; [by rewrite app_nil_r|].
      by intros e ?%elem_of_nil.
  - rewrite insert_id by done. repeat split.
    exists []. split; [by rewrite app_nil_r|]. by intros e ?%elem_of_nil.
Qed.

Lemma check_files_spec fs hs (l : list (string * nat)) r :
  NoDup l.*1 →
  (∀ p n, (p, n) ∈ l → files r !! p = Some n) →
  let r' := foldl (check_file fs hs) r l in
  (∀ p n, (p, n) ∈ l → files r' !! p = Some (new_position fs p n)) ∧
  (∀ p, p ∉ l.*1 → files r' !! p = files r !! p) ∧
  world r' = run_calls (item ← l; file_calls fs hs item.1 item.2) (world r) ∧
  ∃ ev, log r' = log r ++ ev ∧ Forall (read_ok fs l) ev.
Proof.
  revert r. induction l as [|[q m] l IH]; intros r Hnd Hfiles;
    cbn [foldl mbind list_bind fst snd].
  - repeat split; [by intros ?? ?%elem_of_nil|].
    exists []. by rewrite app_nil_r.
  - apply NoDup_cons in Hnd as [Hq Hnd]. simpl in Hq.
    destruct (check_file_spec fs hs r q m) as (Hf1 & Hw1 & ev1 & Hl1 & Hev1);
      [apply Hfiles; by left|].
    set (r1 := check_file fs hs r (q, m)) in *.
    assert (∀ p n, (p, n) ∈ l → p ≠ q) as Hne.
    { intros p n Hin ->. apply Hq. apply list_elem_of_fmap. by exists (q, n). }
    destruct (IH r1 Hnd) as (Hf & Hother & Hw & ev & Hl & Hev).
    { intros p n Hin. rewrite Hf1, lookup_insert_ne by (symmetry; by eapply Hne).
      apply Hfiles. by right. }
    split; [|split; [|split]].
    + intros p n [[= -> ->]|Hin]%elem_of_cons; [|by apply Hf].
      rewrite Hother by done. by rewrite Hf1, lookup_insert_eq.
    + intros p [Hpq Hp]%not_elem_of_cons. simpl in Hpq.
      rewrite Hother by done. by rewrite Hf1, lookup_insert_ne.
    + rewrite Hw, Hw1. unfold run_calls. by rewrite foldl_app.
    + exists (ev1 ++ ev). split; [by rewrite Hl, Hl1, app_assoc|].
      apply Forall_app. split.
      * apply Forall_forall. intros e He. specialize (Hev1 e He).
        destruct e as [p off n|p]; simpl.
        -- destruct Hev1 as (-> & -> & ? & ?). split; [by left | done].
        -- by destruct Hev1 as [-> ?].
      * eapply Forall_impl; [exact Hev|]. intros [p off n|p]; simpl; [|done].
        intros (? & ? & ?). split; [by right | done].
Qed.

(** One iteration of the loop, file by file. *)
Lemma poll_spec fs (w : FileWatcher.t W) world0 :
  let '(w', world', evs) := poll fs w world0 in
  (∀ p, watched_files w' !! p = new_position fs p <$> watched_files w !! p) ∧
  handlers w' = handlers w ∧ running w' = running w ∧
  world' = run_calls (item ← map_to_list (watched_files w);
                      file_calls fs (handlers w) item.1 item.2) world0 ∧
  Forall (read_ok fs (map_to_list (watched_files w))) evs.
Proof.
  unfold poll.
  destruct (check_files_spec fs (handlers w) (map_to_list (watched_files w))
              (mkRun (watched_files w) world0 []))
    as (Hf & Hother & Hw & ev & Hl & Hev).
  { apply NoDup_fst_map_to_list. }
  { intros p n Hin. by apply elem_of_map_to_list in Hin. }
  simpl in *. repeat split; [|done|by rewrite Hl].
  intros p. destruct (watched_files w !! p) as [n|] eqn:Hp; simpl.
  - apply Hf. by apply elem_of_map_to_list.
  - rewrite Hother; [done|]. intros ((p' & n) & -> & Hin)%list_elem_of_fmap.
    apply elem_of_map_to_list in Hin. simpl in Hp. congruence.
Qed.

(** A relation that every handler respects is respected by the calls. *)
Lemma run_calls_rel (R : W → W → Prop) `{!PreOrder R} (cs : list (Call W)) w :
  Forall (fun c : Call W => ∀ w, R w (c.1.1 c.1.2 c.2 w)) cs →
  R w (run_calls cs w).
Proof.
  revert w. induction cs as [|[[h p] l] cs IH]; intros w Hcs; simpl; [done|].
  apply Forall_cons in Hcs as [Hc Hcs]. etrans; [apply (Hc w)|]. by apply IH.
Qed.

Lemma file_calls_handlers fs hs path last (c : Call W) :
  c ∈ file_calls fs hs path last → c.1.1 ∈ hs ∧ c.1.2 = path.
Proof.
  unfold file_calls, calls_for.
  destruct (fs !! path) as [[content|?]|]; try by intros ?%elem_of_nil.
  case_bool_decide; [|by intros ?%elem_of_nil].
  intros (line & Hc & _)%list_elem_of_bind.
  destruct (strip line); [by apply elem_of_nil in Hc|].
  apply list_elem_of_fmap in Hc as (h & -> & Hh). done.
Qed.
End WatcherFacts.

(** ** The watcher loop: what is read and what is delivered *)

(** C7 (amended).  One iteration of the loop makes, for every watched
    file that has grown, the invocations of [file_calls]: the appended
    text is split at the line terminators, every line is stripped of
    the whitespace at both of its ends, and every line that is not empty
    after that is passed, with the path, to every handler in
    registration order.  One appended line makes one invocation per
    handler when it holds something else than whitespace, and none when
    it does not. *)
Theorem watcher_delivers_stripped_lines {W} (fs : gmap string FS.Node)
    (w : FileWatcher.t W) (world0 : W) :
  (FileWatcher.poll fs w world0).1.2
  = run_calls (item ← map_to_list (FileWatcher.watched_files w);
               file_calls fs (FileWatcher.handlers w) item.1 item.2) world0 ∧
  ∀ path content old body,
    fs !! path = Some (FS.File content) →
    Text.chars content = old ++ body ++ [FileWatcher.LF] →
    Forall (fun c => c ≠ FileWatcher.LF ∧ c ≠ FileWatcher.CR) body →
    file_calls fs (FileWatcher.handlers w) path (length old)
    = match Text.strip body with
      | [] => []
      | c :: l => (fun h => (h, path, Text.str (c :: l))) <$> FileWatcher.handlers w
      end.
Proof.
  split.
  - pose proof (poll_spec fs w world0) as H.
    destruct (FileWatcher.poll fs w world0) as [[w' world'] evs]. simpl.
    by destruct H as (_ & _ & _ & -> & _).
  - intros path content old body Hfs Hc Hbody. unfold file_calls. rewrite Hfs.
    rewrite bool_decide_true.
    + rewrite (new_lines_appended content old body Hc Hbody).
      unfold calls_for. simpl. rewrite app_nil_r.
      by rewrite strip_app_space.
    + rewrite <- length_chars, Hc, !length_app. simpl. lia.
Qed.

Lemma watcher_delivers_stripped_lines_witness :
  file_calls {["app.log" := FS.File (line_of "old" +:+ line_of "  new line ")]}
             [recorder] "app.log" 4
  = [(recorder, "app.log", "new line")].
Proof.
  apply (proj2 (watcher_delivers_stripped_lines
                  {["app.log" := FS.File (line_of "old" +:+ line_of "  new line ")]}
                  (FileWatcher.mk {["app.log" := 4]} [recorder] true) [])
           "app.log" (line_of "old" +:+ line_of "  new line ")
           (Text.chars (line_of "old")) (Text.chars "  new line ")).
  - reflexivity.
  - reflexivity.
  - repeat constructor; discriminate.
Defined.

(** C7, as stated, fails: a line that starts with blanks reaches the
    handler without them, and a line of blanks reaches no handler. *)
Lemma watcher_strips_leading_whitespace :
  let fs : gmap string FS.Node :=
    {["app.log" := FS.File (line_of "  indented" +:+ line_of "   ")]} in
  let w := FileWatcher.mk {["app.log" := 0]} [recorder] true in
  (FileWatcher.poll fs w []).1.2 = [("app.log", "indented")] ∧
  (FileWatcher.poll fs w []).1.2 ≠ [("app.log", "  indented"); ("app.log", "   ")] ∧
  (FileWatcher.poll fs w []).1.2 ≠ [("app.log", "  indented")].
Proof. vm_compute. repeat split; discriminate. Qed.

(** C1 (amended).  When a watched file exists and its size is not above
    the recorded offset (it shrank, or it did not change), one iteration
    of the loop leaves the recorded offset as it is (it is not set back
    to 0), reads nothing from the file and invokes no handler for it.
    Every read the loop makes has positive length: it happens under the
    test [current_size > last_position]. *)
Theorem watcher_keeps_offset_when_file_shrinks {W} (fs : gmap string FS.Node)
    (w : FileWatcher.t W) (world0 : W) (path : string) (last : nat) (node : FS.Node) :
  FileWatcher.watched_files w !! path = Some last →
  fs !! path = Some node →
  FS.node_size node ≤ last →
  let '(w', _, evs) := FileWatcher.poll fs w world0 in
  FileWatcher.watched_files w' !! path = Some last ∧
  file_calls fs (FileWatcher.handlers w) path last = [] ∧
  (∀ off n, FileWatcher.EvRead path off n ∉ evs) ∧
  Forall (fun e => match e with
                   | FileWatcher.EvRead _ _ n => 0 < n
                   | FileWatcher.EvError _ => True
                   end) evs.
Proof.
  intros Hw Hfs Hsize. pose proof (poll_spec fs w world0) as H.
  destruct (FileWatcher.poll fs w world0) as [[w' world'] evs].
  destruct H as (Hpos & _ & _ & _ & Hevs). repeat split.
  - rewrite Hpos, Hw. simpl. f_equal. unfold new_position. rewrite Hfs.
    destruct node as [content|?]; simpl in *; lia.
  - unfold file_calls. rewrite Hfs. destruct node as [content|?]; [|done].
    simpl in Hsize. rewrite bool_decide_false; [done | lia].
  - intros off n Hin. rewrite Forall_forall in Hevs.
    destruct (Hevs _ Hin) as (Hitem & Hn & content & Hc & Hlen).
    apply elem_of_map_to_list in Hitem. rewrite Hfs in Hc.
    injection Hc as ->. simpl in Hsize. simplify_eq. lia.
  - eapply Forall_impl; [exact Hevs|]. intros [p off n|p]; [|done].
    by intros (_ & ? & _).
Qed.

Lemma watcher_keeps_offset_when_file_shrinks_witness :
  let fs : gmap string FS.Node := {["app.log" := FS.File "ab"]} in
  let w := FileWatcher.mk {["app.log" := 5]} [recorder] true in
  let '(w', _, evs) := FileWatcher.poll fs w [] in
  FileWatcher.watched_files w' !! "app.log" = Some 5 ∧
  file_calls fs (FileWatcher.handlers w) "app.log" 5 = [] ∧
  (∀ off n, FileWatcher.EvRead "app.log" off n ∉ evs) ∧
  Forall (fun e => match e with
                   | FileWatcher.EvRead _ _ n => 0 < n
                   | FileWatcher.EvError _ => True
                   end) evs.
Proof.
  apply (watcher_keeps_offset_when_file_shrinks
           {["app.log" := FS.File "ab"]}
           (FileWatcher.mk {["app.log" := 5]} [recorder] true) []
           "app.log" 5 (FS.File "ab")).
  - reflexivity.
  - reflexivity.
  - simpl. lia.
Defined.

(** C1, as stated, fails: the recorded offset is 5 and the file now
    has 2 bytes; after the iteration the recorded offset is still 5,
    not 0, and when the file has grown back to 5 bytes the next
    iteration delivers nothing of it. *)
Lemma watcher_does_not_reset_offset :
  let w := FileWatcher.mk {["app.log" := 5]} [recorder] true in
  let fs1 : gmap string FS.Node := {["app.log" := FS.File "ab"]} in
  let fs2 : gmap string FS.Node := {["app.log" := FS.File (line_of "abcd")]} in
  let '(w1, seen1, _) := FileWatcher.poll fs1 w [] in
  let '(w2, seen2, _) := FileWatcher.poll fs2 w1 seen1 in
  FileWatcher.watched_files w1 !! "app.log" = Some 5 ∧
  FileWatcher.watched_files w1 !! "app.log" ≠ Some 0 ∧
  FileWatcher.watched_files w2 !! "app.log" = Some 5 ∧
  seen2 = [].
Proof. vm_compute. repeat split; discriminate. Qed.

(** ** Filters *)
Section FilterFacts.

Lemma active_empty k : active ∅ k = None.
Proof. unfold active. by rewrite lookup_empty. Qed.

Lemma matches_filters_empty entry : matches_filters entry ∅ = inr true.
Proof.
  unfold matches_filters, level_differs, search_misses, path_differs.
  by rewrite !active_empty.
Qed.

(** The tests read the keys [level], [search] and [file_path] only. *)
Lemma matches_filters_ext entry (f f' : gmap string Value) :
  (∀ k, k ∈ ["level"; "search"; "file_path"] → f' !! k = f !! k) →
  matches_filters entry f' = matches_filters entry f.
Proof.
  intros H. unfold matches_filters, level_differs, search_misses, path_differs, active.
  rewrite !H; [done|..]; set_solver.
Qed.
End FilterFacts.

(** ** Memory backend *)
Section MemoryFacts.
Import MemoryStorage.

Lemma last_n_all {A} n (l : list A) : length l ≤ n → last_n n l = l.
Proof. intros H. unfold last_n. by replace (length l - n) with 0 by lia. Qed.

Lemma last_n_length {A} n (l : list A) : length (last_n n l) = n `min` length l.
Proof. unfold last_n. rewrite length_drop. lia. Qed.

Lemma last_n_snoc {A} n (l : list A) x :
  last_n n (last_n n l ++ [x]) = last_n n (l ++ [x]).
Proof.
  destruct (decide (length l ≤ n)) as [Hle|Hgt].
  - by rewrite (last_n_all n l).
  - assert (length (last_n n l) = n) as Hd by (rewrite last_n_length; lia).
    unfold last_n at 1. rewrite length_app, Hd. simpl.
    replace (n + 1 - n) with 1 by lia.
    unfold last_n. rewrite length_app. simpl.
    replace (length l + 1 - n) with ((length l - n) + 1) by lia.
    rewrite <- drop_drop. f_equal. by rewrite drop_app_le by lia.
Qed.

Lemma reverse_last_n {A} n (l : list A) : reverse (last_n n l) = take n (reverse l).
Proof. unfold last_n. by rewrite take_reverse. Qed.

Lemma deque_append_last_n maxlen d x :
  length d ≤ maxlen → deque_append maxlen d x = last_n maxlen (d ++ [x]).
Proof.
  intros Hd. unfold deque_append, last_n. rewrite length_app. simpl.
  case_bool_decide.
  - by replace (length d + 1 - maxlen) with 1 by lia.
  - by replace (length d + 1 - maxlen) with 0 by lia.
Qed.

(** After any sequence of [store], the deque holds the last
    [max_entries] entries of what was stored. *)
Lemma store_all (s : t) es :
  length (entries s) ≤ max_entries s →
  let s' := foldl (fun s e => store e s) s es in
  max_entries s' = max_entries s ∧
  entries s' = last_n (max_entries s) (entries s ++ es).
Proof.
  intros Hs. induction es as [|x es IH] using rev_ind; simpl.
  - split; [done|]. by rewrite app_nil_r, last_n_all.
  - rewrite foldl_snoc. destruct IH as [Hmax Hent]. simpl. split; [done|].
    rewrite Hmax, Hent, deque_append_last_n.
    + by rewrite last_n_snoc, app_assoc.
    + rewrite last_n_length. lia.
Qed.

(** What [retrieve] returns was in the entries it went through, in the
    same order. *)
Lemma retrieve_loop_sublist filters limit todo results l :
  retrieve_loop filters limit todo results = inr l →
  ∃ l', l = results ++ l' ∧ l' `sublist_of` todo.
Proof.
  revert results. induction todo as [|e todo IH]; intros results; simpl.
  - intros [= <-]. exists []. by rewrite app_nil_r.
  - destruct (matches_filters e filters) as [exn|[|]]; [done|..].
    + case_bool_decide.
      * intros [= <-]. exists [e]. split; [done|].
        apply sublist_skip, sublist_nil_l.
      * intros (l' & -> & Hsub)%IH. exists (e :: l').
        split; [by rewrite <- app_assoc | by apply sublist_skip].
    + intros (l' & -> & Hsub)%IH. exists l'. split; [done | by apply sublist_cons].
Qed.

(** With no filter, the loop takes entries until [limit] are
    collected. *)
Lemma retrieve_loop_no_filter limit todo results :
  (Z.of_nat (length results) < limit)%Z →
  retrieve_loop ∅ limit todo results
  = inr (results ++ take (Z.to_nat limit - length results) todo).
Proof.
  revert results. induction todo as [|e todo IH]; intros results Hlen; simpl.
  - by rewrite take_nil, app_nil_r.
  - rewrite matches_filters_empty. rewrite length_app. simpl. case_bool_decide.
    + replace (Z.to_nat limit - length results) with 1 by lia. done.
    + rewrite IH by (rewrite length_app; simpl; lia).
      rewrite length_app. simpl.
      replace (Z.to_nat limit - length results)
        with (S (Z.to_nat limit - (length results + 1))) by lia.
      simpl. by rewrite <- app_assoc.
Qed.

(** With a limit of 0 or less, the bound is met after the first
    append: the loop returns one entry. *)
Lemma retrieve_loop_nonpositive_limit limit todo :
  (limit ≤ 0)%Z → retrieve_loop ∅ limit todo [] = inr (take 1 todo).
Proof.
  intros H. destruct todo as [|e todo]; simpl; [done|].
  rewrite matches_filters_empty. by rewrite bool_decide_true by (simpl; lia).
Qed.

Lemma retrieve_loop_ext (f f' : gmap string Value) limit todo results :
  (∀ k, k ∈ ["level"; "search"; "file_path"] → f' !! k = f !! k) →
  retrieve_loop f' limit todo results = retrieve_loop f limit todo results.
Proof.
  intros H. revert results. induction todo as [|e todo IH]; intros results; simpl; [done|].
  rewrite (matches_filters_ext e f f' H).
  destruct (matches_filters e f) as [|[|]]; [done|..]; by rewrite ?IH.
Qed.
End MemoryFacts.

(** C5.  A memory backend of capacity [C] that received [N > C]
    entries holds exactly the last [C] of them; a [retrieve] with no
    filter and a limit of at least [C] returns them, most recent first;
    and whatever the filters and the limit, what [retrieve] returns is
    drawn from them: none of the first [N - C] entries comes back. *)
Theorem memory_keeps_most_recent (C : nat) (es : list LogEntry) :
  C < length es →
  let s := foldl (fun s e => store e s) (MemoryStorage.init C) es in
  let kept := drop (length es - C) es in
  MemoryStorage.entries s = kept ∧
  length kept = C ∧
  (∀ limit, (Z.of_nat C ≤ limit)%Z → retrieve ∅ limit s = inr (reverse kept)) ∧
  (∀ filters limit l, retrieve filters limit s = inr l → l `sublist_of` reverse kept) ∧
  (NoDup es → ∀ filters limit l e,
     retrieve filters limit s = inr l → e ∈ take (length es - C) es → e ∉ l).
Proof.
  intros HN s kept.
  assert (MemoryStorage.entries s = kept) as Hent.
  { apply (store_all (MemoryStorage.init C) es). simpl. lia. }
  assert (length kept = C) as Hlen by (unfold kept; rewrite length_drop; lia).
  assert (∀ filters limit l,
            retrieve filters limit s = inr l → l `sublist_of` reverse kept) as Hsub.
  { intros filters limit l Hr. simpl in Hr. unfold MemoryStorage.retrieve in Hr.
    apply retrieve_loop_sublist in Hr as (l' & -> & Hl'). by rewrite Hent in Hl'. }
  repeat split; [done | done | | done |].
  - intros limit Hlimit. simpl. unfold MemoryStorage.retrieve. rewrite Hent.
    destruct (decide (C = 0)) as [->|HC].
    + destruct kept; [done | discriminate].
    + rewrite retrieve_loop_no_filter by (simpl; lia). simpl.
      rewrite take_ge; [done|]. rewrite length_reverse. lia.
  - intros Hnd filters limit l e Hr Hold Hin.
    apply Hsub in Hr. eapply elem_of_sublist in Hin; [|exact Hr].
    rewrite elem_of_reverse in Hin.
    rewrite <- (take_drop (length es - C) es) in Hnd.
    apply NoDup_app in Hnd as (_ & Hdisj & _). by apply (Hdisj e).
Qed.

Lemma memory_keeps_most_recent_witness :
  let e := fun n => mkEntry n "INFO" "m" None None None in
  let s := foldl (fun s e => store e s) (MemoryStorage.init 3)
                 [e 0%Z; e 1%Z; e 2%Z; e 3%Z; e 4%Z] in
  MemoryStorage.entries s = [e 2%Z; e 3%Z; e 4%Z] ∧
  retrieve ∅ 100 s = inr [e 4%Z; e 3%Z; e 2%Z].
Proof.
  intros e.
  destruct (memory_keeps_most_recent 3 [e 0%Z; e 1%Z; e 2%Z; e 3%Z; e 4%Z])
    as (H1 & _ & H2 & _); [simpl; lia|].
  split; [exact H1 | exact (H2 100%Z ltac:(lia))].
Defined.

(** ** File backend *)
Section FileFacts.
Import FileStorage.

(** A line that does not decode changes nothing in the scan. *)
Lemma scan_skips_malformed filters limit todo entries :
  scan filters limit todo entries
  = scan filters limit (filter (fun l => Is_true (is_valid l)) todo) entries.
Proof.
  revert entries. induction todo as [|line todo IH]; intros entries; [done|].
  rewrite filter_cons. destruct line as [e|raw]; simpl.
  - destruct (matches_filters e filters) as [|[|]]; [done|..].
    + case_bool_decide; [done|]. apply IH.
    + apply IH.
  - apply IH.
Qed.

Lemma scan_ext (f f' : gmap string Value) limit todo entries :
  (∀ k, k ∈ ["level"; "search"; "file_path"] → f' !! k = f !! k) →
  scan f' limit todo entries = scan f limit todo entries.
Proof.
  intros H. revert entries. induction todo as [|line todo IH]; intros entries; simpl; [done|].
  destruct (decode line) as [e|]; [|done].
  rewrite (matches_filters_ext e f f' H).
  destruct (matches_filters e f) as [|[|]]; by rewrite ?IH.
Qed.


(** The window is the whole file when the file has at most [2 * limit]
    lines. *)
Lemma tail_window_all limit lines :
  (Z.of_nat (length lines) ≤ 2 * limit)%Z → tail_window limit lines = lines.
Proof.
  intros H. unfold tail_window. case_bool_decide.
  - by replace (Z.to_nat _) with 0 by lia.
  - by replace (Z.to_nat _) with 0 by lia.
Qed.

Lemma tail_window_positive limit lines :
  (1 ≤ limit)%Z → tail_window limit lines = last_n (Z.to_nat (2 * limit)) lines.
Proof.
  intros H. unfold tail_window, last_n. rewrite bool_decide_true by lia.
  f_equal. lia.
Qed.


Section StoreFacts.
Variable json_size : LogEntry → nat.



End StoreFacts.
End FileFacts.

(** C3 (amended).  [FileStorage.retrieve] never raises; a line that
    does not decode is skipped, so the result is the one for the tail
    window (the last [2 * limit] lines of the file) without its
    malformed lines; when the whole file lies within the window (it has
    at most [2 * limit] lines), the result is the one for the file
    without its malformed lines. *)
Theorem file_retrieve_skips_malformed (filters : gmap string Value) (limit : Z) :
  (∀ s, ∃ l, FileStorage.retrieve filters limit s = inr l) ∧
  (∀ lines,
     FileStorage.retrieve_lines filters limit lines
     = FileStorage.scan filters limit
         (reverse (filter (fun l => Is_true (FileStorage.is_valid l))
                          (FileStorage.tail_window limit lines))) []) ∧
  (∀ lines,
     (Z.of_nat (length lines) ≤ 2 * limit)%Z →
     FileStorage.retrieve_lines filters limit lines
     = FileStorage.retrieve_lines filters limit
         (filter (fun l => Is_true (FileStorage.is_valid l)) lines)).
Proof.
  repeat split.
  - intros s. unfold FileStorage.retrieve. destruct (FileStorage.primary s); eauto.
  - intros lines. unfold FileStorage.retrieve_lines.
    by rewrite scan_skips_malformed, filter_reverse.
  - intros lines Hlen. unfold FileStorage.retrieve_lines.
    rewrite !tail_window_all; [|pose proof (length_filter
      (fun l => Is_true (FileStorage.is_valid l)) lines); lia | done].
    by rewrite scan_skips_malformed, filter_reverse.
Qed.

Lemma file_retrieve_skips_malformed_witness :
  let e := mkEntry 0 "INFO" "kept" None None None in
  FileStorage.retrieve_lines ∅ 2
    [FileStorage.Malformed "{"; FileStorage.Json e; FileStorage.Malformed "}"]
  = FileStorage.retrieve_lines ∅ 2 [FileStorage.Json e].
Proof.
  intros e.
  apply (proj2 (proj2 (file_retrieve_skips_malformed ∅ 2))
           [FileStorage.Malformed "{"; FileStorage.Json e; FileStorage.Malformed "}"]).
  simpl. lia.
Defined.

(** C3, as stated, fails: malformed lines at the end of the file push
    the records out of the window.  With [limit = 1] two of them hide a
    record; with the default limit, 200 of them do. *)
Lemma malformed_lines_hide_records :
  let e := mkEntry 0 "INFO" "lost" None None None in
  let bad := FileStorage.Malformed "not json" in
  let valid := filter (fun l => Is_true (FileStorage.is_valid l)) in
  FileStorage.retrieve_lines ∅ 1 [FileStorage.Json e; bad; bad] = [] ∧
  FileStorage.retrieve_lines ∅ 1 (valid [FileStorage.Json e; bad; bad]) = [e] ∧
  FileStorage.retrieve_lines ∅ DEFAULT_LIMIT (FileStorage.Json e :: replicate 200 bad) = [] ∧
  FileStorage.retrieve_lines ∅ DEFAULT_LIMIT
    (valid (FileStorage.Json e :: replicate 200 bad)) = [e].
Proof. vm_compute. repeat split. Qed.

Section SinceRotationFacts.
Import FileStorage.
Variable json_size : LogEntry → nat.



End SinceRotationFacts.




(** ** Watching paths *)
Section WatchFacts.
Import Text FS FileWatcher.

Lemma fnmatch_star pat name :
  fnmatch ("*"%char :: pat) name = true ↔
  ∃ pre suf, name = pre ++ suf ∧ fnmatch pat suf = true.
Proof.
  induction name as [|c name IH]; simpl in *.
  - rewrite orb_false_r. split.
    + intros H. by exists [], [].
    + intros (pre & suf & Heq & H). symmetry in Heq.
      apply app_eq_nil in Heq as [-> ->]. done.
  - rewrite orb_true_iff, IH. split.
    + intros [H|(pre & suf & -> & H)].
      * by exists [], (c :: name).
      * by exists (c :: pre), suf.
    + intros ([|c' pre] & suf & Heq & H); simplify_eq/=.
      * by left.
      * right. by exists pre, suf.
Qed.

Lemma fnmatch_dot_log name :
  fnmatch (chars ".log") name = true ↔ name = chars ".log".
Proof.
  split; [|by intros ->].
  simpl. repeat (destruct name as [|? name]; [done|];
                 intros [->%bool_decide_eq_true H]%andb_true_iff; revert H).
  destruct name; [done|]. by intros ?%bool_decide_eq_true.
Qed.

(** The names that [*.log] matches: those that end in [.log]. *)
Lemma fnmatch_log name :
  fnmatch (chars "*.log") name = true ↔ ∃ stem, name = stem ++ chars ".log".
Proof.
  change (chars "*.log") with ("*"%char :: chars ".log").
  rewrite fnmatch_star. split.
  - intros (pre & suf & -> & ->%fnmatch_dot_log). by exists pre.
  - intros (stem & ->). exists stem, (chars ".log"). by rewrite fnmatch_dot_log.
Qed.

Lemma elem_of_glob fs dir pattern p :
  p ∈ glob fs dir pattern ↔
  is_Some (fs !! p) ∧ below dir p = true ∧
  fnmatch (chars pattern) (basename (chars p)) = true.
Proof.
  unfold glob. rewrite list_elem_of_filter, andb_True, !Is_true_true.
  rewrite list_elem_of_fmap. split.
  - intros ([? ?] & [[p' n] [-> Hin]]). simpl in *.
    apply elem_of_map_to_list in Hin. repeat split; [by eexists | done..].
  - intros ([n Hn] & ? & ?). repeat split; [done..|].
    exists (p, n). split; [done|]. by apply elem_of_map_to_list.
Qed.

Context {W : Type}.

Lemma watch_file_spec fs path (w : FileWatcher.t W) :
  watched_files (watch_file fs path w)
  = match fs !! path with
    | Some n => <[path := node_size n]> (watched_files w)
    | None => watched_files w
    end ∧
  handlers (watch_file fs path w) = handlers w ∧
  running (watch_file fs path w) = running w.
Proof. unfold watch_file. by destruct (fs !! path). Qed.

Lemma watch_files_spec fs ps (w : FileWatcher.t W) :
  (∀ p, p ∈ ps → is_Some (fs !! p)) →
  let w' := foldl (fun w p => watch_file fs p w) w ps in
  (∀ q, watched_files w' !! q
        = if decide (q ∈ ps) then node_size <$> fs !! q else watched_files w !! q) ∧
  handlers w' = handlers w ∧ running w' = running w.
Proof.
  intros Hps. induction ps as [|p ps IH] using rev_ind; simpl.
  - done.
  - rewrite foldl_snoc.
    destruct IH as (Hw & Hh & Hr); [intros q Hq; apply Hps, elem_of_app; by left|].
    destruct (watch_file_spec fs p (foldl (fun w p => watch_file fs p w) w ps))
      as (Hw1 & Hh1 & Hr1).
    split; [|by rewrite Hh1, Hr1]. intros q. rewrite Hw1.
    destruct (Hps p) as [n Hn]; [apply elem_of_app; right; by left|]. rewrite Hn.
    destruct (decide (q = p)) as [->|Hne].
    + rewrite lookup_insert_eq, decide_True, Hn; [done|].
      apply elem_of_app. right. by left.
    + rewrite lookup_insert_ne, Hw by done.
      destruct (decide (q ∈ ps)) as [Hin|Hnin].
      * rewrite decide_True; [done|]. apply elem_of_app. by left.
      * rewrite decide_False; [done|].
        intros [?|?%list_elem_of_singleton]%elem_of_app; done.
Qed.
End WatchFacts.

(** [watch] leaves the pipeline state and the handlers as they are. *)
Lemma watch_preserves (fs : gmap string FS.Node) (path : string) (l : MeowLogger.t) :
  MeowLogger.core (MeowLogger.watch fs path l).1 = MeowLogger.core l ∧
  FileWatcher.handlers (MeowLogger.watcher (MeowLogger.watch fs path l).1)
  = FileWatcher.handlers (MeowLogger.watcher l).
Proof.
  unfold MeowLogger.watch. destruct (FS.isfile fs path); [|destruct (FS.isdir fs path) eqn:Hd].
  - split; [done|]. apply watch_file_spec.
  - split; [done|]. simpl. unfold FileWatcher.watch_directory. rewrite Hd.
    generalize (FS.glob fs path "*.log"). intros ps.
    induction ps as [|p ps IH] using rev_ind; [done|].
    rewrite foldl_snoc.
    destruct (watch_file_spec fs p
                (foldl (fun w p => FileWatcher.watch_file fs p w) (MeowLogger.watcher l) ps))
      as (_ & -> & _). done.
  - done.
Qed.

(** C9.  [watch(path)] raises [ValueError] exactly when [path] is
    neither an existing file nor an existing directory, and then the
    logger is unchanged.  For an existing file it records the file with
    its current size as offset; for an existing directory it records,
    each with its current size, the paths below the directory that
    exist at the call and whose name ends in [.log]. *)
Theorem watch_raises_iff_invalid (fs : gmap string FS.Node) (path : string)
    (l : MeowLogger.t) :
  let '(l', err) := MeowLogger.watch fs path l in
  (is_Some err ↔ FS.isfile fs path = false ∧ FS.isdir fs path = false) ∧
  (is_Some err → err = Some (ValueError ("Path does not exist: " +:+ path)) ∧ l' = l) ∧
  MeowLogger.core l' = MeowLogger.core l ∧
  FileWatcher.handlers (MeowLogger.watcher l') = FileWatcher.handlers (MeowLogger.watcher l) ∧
  (∀ content, fs !! path = Some (FS.File content) →
     err = None ∧
     FileWatcher.watched_files (MeowLogger.watcher l')
     = <[path := String.length content]>
         (FileWatcher.watched_files (MeowLogger.watcher l))) ∧
  (∀ dsize, fs !! path = Some (FS.Dir dsize) →
     err = None ∧
     (∀ p, FileWatcher.watched_files (MeowLogger.watcher l') !! p
           = if decide (p ∈ FS.glob fs path "*.log")
             then FS.node_size <$> fs !! p
             else FileWatcher.watched_files (MeowLogger.watcher l) !! p) ∧
     (∀ p, p ∈ FS.glob fs path "*.log" ↔
           is_Some (fs !! p) ∧ FS.below path p = true ∧
           ∃ stem, FS.basename (Text.chars p) = stem ++ Text.chars ".log")).
Proof.
  unfold MeowLogger.watch, FS.isfile, FS.isdir.
  destruct (fs !! path) as [[content|dsize]|] eqn:Hfs; simpl.
  - destruct (watch_file_spec fs path (MeowLogger.watcher l)) as (Hw & Hh & _).
    rewrite Hfs in Hw.
    split; [split; [by intros [? ?] | by intros [? _]]|].
    split; [by intros [? ?]|]. split; [done|]. split; [done|].
    split; [|done]. by intros content' [= <-].
  - destruct (watch_files_spec fs (FS.glob fs path "*.log") (MeowLogger.watcher l))
      as (Hw & Hh & _).
    { intros p Hp. by apply elem_of_glob in Hp as [? _]. }
    unfold FileWatcher.watch_directory, FS.isdir. rewrite Hfs.
    split; [split; [by intros [? ?] | by intros [_ ?]]|].
    split; [by intros [? ?]|]. split; [done|]. split; [done|].
    split; [done|]. intros _ _. split; [done|]. split; [done|].
    intros p. rewrite elem_of_glob, fnmatch_log. done.
  - split; [split; [done | by eexists]|].
    split; [done|]. split; [done|]. split; [done|]. split; done.
Qed.

Lemma watch_raises_iff_invalid_witness :
  let fs : gmap string FS.Node :=
    {[ "logs" := FS.Dir 4096; "logs/app.log" := FS.File "abc";
       "logs/notes.txt" := FS.File "x"; "logs/old" := FS.Dir 4096;
       "logs/old/b.log" := FS.File "hello"; "other.log" := FS.File "zz" ]} in
  let l := MeowLogger.init (fun _ => 100) 0 in
  (MeowLogger.watch fs "other.log" l).2 = None ∧
  FileWatcher.watched_files (MeowLogger.watcher (MeowLogger.watch fs "other.log" l).1)
  = {[ "other.log" := 2 ]} ∧
  (MeowLogger.watch fs "logs" l).2 = None ∧
  FileWatcher.watched_files (MeowLogger.watcher (MeowLogger.watch fs "logs" l).1)
    !! "logs/old/b.log" = Some 5 ∧
  FileWatcher.watched_files (MeowLogger.watcher (MeowLogger.watch fs "logs" l).1)
    !! "logs/notes.txt" = None.
Proof.
  intros fs l.
  pose proof (watch_raises_iff_invalid fs "other.log" l) as Hf.
  pose proof (watch_raises_iff_invalid fs "logs" l) as Hd.
  destruct (MeowLogger.watch fs "other.log" l) as [l1 err1].
  destruct (MeowLogger.watch fs "logs" l) as [l2 err2].
  destruct Hf as (_ & _ & _ & _ & Hf & _).
  destruct Hd as (_ & _ & _ & _ & _ & Hd).
  destruct (Hf "zz" eq_refl) as [-> Hw1].
  destruct (Hd 4096 eq_refl) as (-> & Hw & _).
  simpl. split; [done|]. split; [exact Hw1|]. split; [done|]. split.
  - exact (Hw "logs/old/b.log").
  - exact (Hw "logs/notes.txt").
Defined.

(** ** Queries through the engine *)

Lemma backend_retrieve_ext json_size (f f' : gmap string Value) limit
    (b : MeowLogger.Backend) :
  (∀ k, k ∈ ["level"; "search"; "file_path"] → f' !! k = f !! k) →
  @retrieve _ (MeowLogger.Backend_LogStorage json_size) f' limit b
  = @retrieve _ (MeowLogger.Backend_LogStorage json_size) f limit b.
Proof.
  intros H. destruct b as [m|fl]; simpl.
  - by apply retrieve_loop_ext.
  - unfold FileStorage.retrieve. destruct (FileStorage.primary fl); [|done].
    unfold FileStorage.retrieve_lines. by rewrite (scan_ext f f').
Qed.

(** C10.  [get_logs] passes all its keyword arguments as the filters
    and leaves the limit at the default of 100.  Keys other than
    [level], [search] and [file_path], the key [limit] among them, do
    not change the result: a fresh logger that logged three messages
    returns the three of them for [get_logs(limit=1)], and a memory
    backend returns its 100 most recent entries whatever the value of
    [limit]. *)
Theorem get_logs_ignores_limit (json_size : LogEntry → nat)
    (filters : gmap string Value) (c : MeowLogger.Core) :
  MeowLogger.get_logs json_size filters c
  = @retrieve _ (MeowLogger.Backend_LogStorage json_size) filters 100
      (MeowLogger.storage c) ∧
  (∀ filters' : gmap string Value,
     (∀ k, k ∈ ["level"; "search"; "file_path"] → filters' !! k = filters !! k) →
     MeowLogger.get_logs json_size filters' c = MeowLogger.get_logs json_size filters c) ∧
  (∀ n, MeowLogger.get_logs json_size (<["limit" := VInt n]> filters) c
        = MeowLogger.get_logs json_size filters c) ∧
  (∀ n m, MeowLogger.storage c = MeowLogger.InMemory m →
     MeowLogger.get_logs json_size {["limit" := VInt n]} c
     = inr (take 100 (reverse (MemoryStorage.entries m)))) ∧
  (let c0 := MeowLogger.core (MeowLogger.init json_size 0) in
   let c3 := MeowLogger.log json_size "INFO" (Some "three") (mkExtra None ∅)
               (MeowLogger.log json_size "INFO" (Some "two") (mkExtra None ∅)
                  (MeowLogger.log json_size "INFO" (Some "one") (mkExtra None ∅) c0)) in
   MeowLogger.get_logs json_size {["limit" := VInt 1]} c3
   = inr [mkEntry 0 "INFO" "three" None None None;
          mkEntry 0 "INFO" "two" None None None;
          mkEntry 0 "INFO" "one" None None None]).
Proof.
  assert (∀ n (f : gmap string Value) k,
            k ∈ ["level"; "search"; "file_path"] →
            <["limit" := VInt n]> f !! k = f !! k) as Hlimit.
  { intros n f k Hk. apply lookup_insert_ne. intros <-.
    rewrite !elem_of_cons, elem_of_nil in Hk. by destruct Hk as [?|[?|[?|[]]]]. }
  split; [done|]. split; [|split; [|split]].
  - intros filters' H. by apply backend_retrieve_ext.
  - intros n. apply backend_retrieve_ext, Hlimit.
  - intros n m Hm. unfold MeowLogger.get_logs. rewrite Hm. simpl.
    unfold MemoryStorage.retrieve.
    rewrite (retrieve_loop_ext ∅ {["limit" := VInt n]}).
    + by rewrite retrieve_loop_no_filter.
    + intros k Hk. apply (Hlimit n ∅ k Hk).
  - by vm_compute.
Qed.

Lemma get_logs_ignores_limit_witness :
  let c := MeowLogger.log (fun _ => 100) "ERROR" (Some "boom") (mkExtra None ∅)
             (MeowLogger.core (MeowLogger.init (fun _ => 100) 0)) in
  MeowLogger.get_logs (fun _ => 100) {["level" := VStr "ERROR"; "limit" := VInt 0;
                                       "page" := VInt 7]} c
  = MeowLogger.get_logs (fun _ => 100) {["level" := VStr "ERROR"]} c.
Proof.
  intros c.
  apply (proj1 (proj2 (get_logs_ignores_limit (fun _ => 100)
                         {["level" := VStr "ERROR"]} c))).
  intros k Hk. rewrite !elem_of_cons, elem_of_nil in Hk.
  destruct Hk as [->|[->|[->|[]]]]; reflexivity.
Defined.

(** ** Statistics over the operations of the engine *)
Section EngineFacts.
Import MeowLogger.
Variable json_size : LogEntry → nat.

#[global] Instance core_le_preorder : PreOrder core_le.
Proof.
  split.
  - intros c. unfold core_le. reflexivity.
  - intros c1 c2 c3. unfold core_le. apply transitivity.
Qed.

Lemma handle_new_line_le path line c :
  core_le c (_handle_new_line json_size path line c).
Proof. apply update_stats_le. Qed.

Lemma poll_le fs l :
  own_handler json_size l → core_le (core l) (core (poll fs l)).
Proof.
  intros Hown. unfold poll. destruct (FileWatcher.running (watcher l)); [|reflexivity].
  pose proof (poll_spec fs (watcher l) (core l)) as H.
  destruct (FileWatcher.poll fs (watcher l) (core l)) as [[w' c'] evs]. simpl.
  destruct H as (_ & _ & _ & -> & _).
  apply run_calls_rel; [apply _|]. apply Forall_forall.
  intros call ([p n] & Hcall & _)%list_elem_of_bind.
  apply file_calls_handlers in Hcall as [Hh _]. rewrite Hown in Hh.
  apply list_elem_of_singleton in Hh. intros c. rewrite Hh.
  apply handle_new_line_le.
Qed.

Lemma run_le op l :
  own_handler json_size l →
  stats_le (stats (core l)) (stats (core (run json_size op l))) ∧
  own_handler json_size (run json_size op l).
Proof.
  intros Hown. destruct op; simpl; try (split; [reflexivity | done]).
  - split; [apply update_stats_le | done].
  - destruct (watch_preserves fs path l) as [Hc Hh]. rewrite Hc.
    split; [reflexivity|]. unfold own_handler. by rewrite Hh.
  - split; [by apply poll_le|]. unfold poll, own_handler.
    destruct (FileWatcher.running (watcher l)); [|done].
    pose proof (poll_spec fs (watcher l) (core l)) as H.
    destruct (FileWatcher.poll fs (watcher l) (core l)) as [[w' c'] evs]. simpl.
    by destruct H as (_ & -> & _).
Qed.

Lemma after_ops_own_handler now ops :
  own_handler json_size (after_ops json_size now ops).
Proof.
  unfold after_ops. induction ops as [|op ops IH] using rev_ind; [done|].
  rewrite foldl_snoc. by apply run_le.
Qed.
End EngineFacts.

(** C8.  Processing one entry, from [log] or from the handler of the
    watcher, stores the entry as the pipeline leaves it, adds 1 to the
    total, 1 to the count of the level of that entry and, for every
    name in its list of patterns, 1 per occurrence to the count of the
    name: exactly 1 for each name the built-in detector reports, since
    it reports no name twice.  No operation of the engine lowers a
    counter. *)
Theorem statistics_fold (json_size : LogEntry → nat) :
  (∀ entry c,
     let e := MeowLogger.run_processors (MeowLogger.processors c) entry in
     let s := MeowLogger.stats c in
     let s' := MeowLogger.stats (MeowLogger._process_and_store json_size entry c) in
     MeowLogger.storage (MeowLogger._process_and_store json_size entry c)
     = @store _ (MeowLogger.Backend_LogStorage json_size) e (MeowLogger.storage c) ∧
     MeowLogger.total_logs s' = MeowLogger.total_logs s + 1 ∧
     (∀ k, MeowLogger.count (MeowLogger.by_level s') k
           = MeowLogger.count (MeowLogger.by_level s) k
             + (if decide (k = level e) then 1 else 0)) ∧
     (∀ p, MeowLogger.count (MeowLogger.by_pattern s') p
           = MeowLogger.count (MeowLogger.by_pattern s) p
             + occurrences p (MeowLogger.entry_patterns e)) ∧
     (NoDup (MeowLogger.entry_patterns e) →
      ∀ p, p ∈ MeowLogger.entry_patterns e →
           MeowLogger.count (MeowLogger.by_pattern s') p
           = MeowLogger.count (MeowLogger.by_pattern s) p + 1)) ∧
  (∀ lvl msg kwargs c,
     MeowLogger.log json_size lvl msg kwargs c
     = MeowLogger._process_and_store json_size
         (mkEntry (MeowLogger.clock c) (Text.str (Text.upper (Text.chars lvl)))
                  (default EmptyString msg) None None
                  (if extra_nonempty kwargs then Some kwargs else None)) c) ∧
  (∀ path line c,
     MeowLogger._handle_new_line json_size path line c
     = MeowLogger._process_and_store json_size
         (mkEntry (MeowLogger.clock c) "INFO" line (Some path) None None) c) ∧
  (∀ msg, NoDup (PatternDetector.detect msg)) ∧
  (∀ now ops op,
     stats_le (MeowLogger.stats (MeowLogger.core (after_ops json_size now ops)))
              (MeowLogger.stats
                 (MeowLogger.core
                    (MeowLogger.run json_size op (after_ops json_size now ops))))).
Proof.
  split; [|split; [done|split; [done|split]]].
  - intros entry c e s s'. split; [done|]. split; [done|].
    assert (∀ p, MeowLogger.count (MeowLogger.by_pattern s') p
                 = MeowLogger.count (MeowLogger.by_pattern s) p
                   + occurrences p (MeowLogger.entry_patterns e)) as Hpat
      by (intros p; apply count_foldl_bump).
    split; [intros k; apply count_bump|]. split; [done|].
    intros Hnd p Hp. by rewrite Hpat, occurrences_NoDup.
  - apply detect_NoDup.
  - intros now ops op. apply run_le, after_ops_own_handler.
Qed.

Lemma statistics_fold_witness :
  let json_size := fun _ : LogEntry => 100 in
  let c := MeowLogger._handle_new_line json_size "app.log"
             "[ERROR] Connection from 10.0.0.5 took 200ms"
             (MeowLogger.core (MeowLogger.init json_size 0)) in
  MeowLogger.count (MeowLogger.by_pattern (MeowLogger.stats c)) "ip_address" = 1.
Proof.
  intros json_size c.
  destruct (statistics_fold json_size) as (H & _).
  destruct (H (mkEntry 0 "INFO" "[ERROR] Connection from 10.0.0.5 took 200ms"
                 (Some "app.log") None None)
              (MeowLogger.core (MeowLogger.init json_size 0)))
    as (_ & _ & _ & _ & H1).
  apply (H1 ltac:(apply (bool_decide_unpack _); by vm_compute) "ip_address").
  apply (bool_decide_unpack _). by vm_compute.
Defined.

(** ** The tests of the repository, replayed on the model *)
Section RepositoryTests.
#[local] Abbreviation json_size := fixed_size.
#[local] Abbreviation entry := plain_entry.
#[local] Abbreviation messages := messages_of.
#[local] Abbreviation fresh := (MeowLogger.core (MeowLogger.init fixed_size 0)).

(** [TestFileWatcher.test_watch_file] *)
Example test_watch_file :
  FileWatcher.watched_files
    (FileWatcher.watch_file {["test.log" := FS.File "Initial content"]} "test.log"
       (FileWatcher.init unit))
  = {["test.log" := 15]}.
Proof. by vm_compute. Qed.

(** [TestFileWatcher.test_file_change_detection] *)
Example test_file_change_detection :
  let w := FileWatcher.add_handler recorder
             (FileWatcher.watch_file {["test.log" := FS.File (line_of "Line 1")]}
                "test.log" (FileWatcher.init _)) in
  (FileWatcher.poll
     {["test.log" := FS.File (line_of "Line 1" +:+ line_of "Line 2")]} w []).1.2
  = [("test.log", "Line 2")].
Proof. by vm_compute. Qed.

(** [TestLogLevelParser] *)
Example test_level_parser :
  LogLevelParser.level_of "[ERROR] Something failed" = "ERROR" ∧
  LogLevelParser.level_of "WARNING: Low memory" = "WARNING" ∧
  LogLevelParser.level_of "Application started DEBUG mode" = "DEBUG" ∧
  LogLevelParser.level_of "Just a regular message" = "INFO".
Proof. by vm_compute. Qed.

(** [TestPatternDetector], and the example of the specification *)
Example test_pattern_detector :
  PatternDetector.detect "Critical error occurred in module" = ["error"] ∧
  PatternDetector.detect "Request completed in 125.5ms" = ["performance"] ∧
  PatternDetector.detect "Connection from 192.168.1.100" = ["ip_address"] ∧
  PatternDetector.detect "Error: Request to https://api.example.com failed from 10.0.0.1"
  = ["error"; "ip_address"; "url"] ∧
  PatternDetector.detect "Connection from 10.0.0.5 took 200ms"
  = ["performance"; "ip_address"].
Proof. by vm_compute. Qed.

(** [TestMemoryStorage.test_store_and_retrieve], [test_size_limit] *)
Example test_memory_storage :
  let es := (fun m => entry "INFO" m) <$>
              ["Message 0"; "Message 1"; "Message 2"; "Message 3"; "Message 4"] in
  messages (retrieve ∅ 10 (foldl (fun s e => store e s) (MemoryStorage.init 10) es))
  = Some ["Message 4"; "Message 3"; "Message 2"; "Message 1"; "Message 0"] ∧
  messages (retrieve ∅ DEFAULT_LIMIT
              (foldl (fun s e => store e s) (MemoryStorage.init 3) es))
  = Some ["Message 4"; "Message 3"; "Message 2"].
Proof. by vm_compute. Qed.

(** [TestMemoryStorage.test_level_filtering], [test_search_filtering] *)
Example test_memory_filters :
  let by_level := foldl (fun s e => store e s) (MemoryStorage.init MemoryStorage.DEFAULT_MAX_ENTRIES)
    [entry "DEBUG" "Message 0"; entry "INFO" "Message 1"; entry "WARNING" "Message 2";
     entry "ERROR" "Message 3"; entry "INFO" "Message 4"] in
  let by_text := foldl (fun s e => store e s) (MemoryStorage.init MemoryStorage.DEFAULT_MAX_ENTRIES)
    [entry "INFO" "User logged in"; entry "INFO" "Database connection failed";
     entry "INFO" "User logged out"; entry "INFO" "Cache cleared"] in
  messages (retrieve {["level" := VStr "INFO"]} DEFAULT_LIMIT by_level)
  = Some ["Message 4"; "Message 1"] ∧
  messages (retrieve {["level" := VStr "ERROR"]} DEFAULT_LIMIT by_level)
  = Some ["Message 3"] ∧
  messages (retrieve {["search" := VStr "user"]} DEFAULT_LIMIT by_text)
  = Some ["User logged out"; "User logged in"].
Proof. by vm_compute. Qed.

(** [TestFileStorage.test_store_and_retrieve] *)
Example test_file_storage :
  messages (FileStorage.retrieve ∅ DEFAULT_LIMIT
              (foldl (fun s e => FileStorage.store json_size e s)
                     (FileStorage.init (1024 * 1024) 5 true)
                     [entry "INFO" "Message 0"; entry "INFO" "Message 1";
                      entry "INFO" "Message 2"]))
  = Some ["Message 2"; "Message 1"; "Message 0"].
Proof. by vm_compute. Qed.

(** [TestMeowLogger.test_direct_logging] *)
Example test_direct_logging :
  MeowLogger.get_logs json_size ∅
    (MeowLogger.log json_size "ERROR" (Some "Error occurred")
       (mkExtra None {["code" := "500"]})
       (MeowLogger.log json_size "INFO" (Some "Test message")
          (mkExtra None {["user" := "alice"]}) fresh))
  = inr [mkEntry 0 "ERROR" "Error occurred" None None
           (Some (mkExtra (Some ["error"]) {["code" := "500"]}));
         mkEntry 0 "INFO" "Test message" None None
           (Some (mkExtra None {["user" := "alice"]}))].
Proof. by vm_compute. Qed.

(** [TestMeowLogger.test_statistics_tracking] *)
Example test_statistics_tracking :
  let c := MeowLogger.log json_size "WARNING" (Some "Warning message") (mkExtra None ∅)
             (MeowLogger.log json_size "ERROR" (Some "Error message") (mkExtra None ∅)
                (MeowLogger.log json_size "INFO" (Some "Info message 2") (mkExtra None ∅)
                   (MeowLogger.log json_size "INFO" (Some "Info message 1")
                      (mkExtra None ∅) fresh))) in
  MeowLogger.total_logs (MeowLogger.stats c) = 4 ∧
  MeowLogger.by_level (MeowLogger.stats c) !! "INFO" = Some 2 ∧
  MeowLogger.by_level (MeowLogger.stats c) !! "ERROR" = Some 1 ∧
  MeowLogger.by_level (MeowLogger.stats c) !! "WARNING" = Some 1.
Proof. by vm_compute. Qed.

(** [TestMeowLogger.test_file_watching_integration] *)
Example test_file_watching_integration :
  let fs0 : gmap string FS.Node := {["test.log" := FS.File EmptyString]} in
  let fs1 : gmap string FS.Node :=
    {["test.log" := FS.File (line_of "[ERROR] Database connection failed"
                             +:+ line_of "[INFO] Retry attempt 1")]} in
  let l := MeowLogger.start (MeowLogger.watch fs0 "test.log"
                               (MeowLogger.init json_size 0)).1 in
  (fun e => (level e, message e)) <$>
    match MeowLogger.get_logs json_size ∅ (MeowLogger.core (MeowLogger.poll fs1 l)) with
    | inr es => es
    | inl _ => []
    end
  = [("INFO", "[INFO] Retry attempt 1"); ("ERROR", "[ERROR] Database connection failed")].
Proof. by vm_compute. Qed.

(** [TestQualityGates.test_error_handling]: an invalid path raises
    [ValueError]; a write to an unwritable log file is swallowed. *)
Example test_error_handling :
  (MeowLogger.watch ∅ "/definitely/not/a/real/path" (MeowLogger.init json_size 0)).2
  = Some (ValueError "Path does not exist: /definitely/not/a/real/path") ∧
  FileStorage.store json_size (entry "INFO" "Test") (FileStorage.init 100 5 false)
  = FileStorage.init 100 5 false.
Proof. by vm_compute. Qed.
End RepositoryTests.

(** * Further properties of the code *)

(** ** The default pipeline *)
Section DefaultPipelineFacts.
Import Text MeowLogger.

Lemma to_upper_idemp c : to_upper (to_upper c) = to_upper c.
Proof. by destruct c as [[] [] [] [] [] [] [] []]. Qed.

Lemma upper_idemp t : upper (upper t) = upper t.
Proof.
  unfold upper. rewrite <- list_fmap_compose.
  apply list_fmap_ext. intros _ c _. apply to_upper_idemp.
Qed.

Lemma is_upper_upper t : is_upper (str (upper t)).
Proof. unfold is_upper. by rewrite chars_str, upper_idemp. Qed.

Lemma level_of_is_upper msg : is_upper (LogLevelParser.level_of msg).
Proof.
  unfold LogLevelParser.level_of.
  destruct (search _ _); [apply is_upper_upper|].
  destruct (LogLevelParser.match_leading _); [apply is_upper_upper|].
  destruct (search _ _); [apply is_upper_upper | done].
Qed.

Lemma apply_result_level_only l entry :
  apply_result (mkEnrich (Some l) None) entry
  = if bool_decide (level entry ∈ ["INFO"; "DEBUG"]) then set_level l entry else entry.
Proof. done. Qed.

Lemma apply_result_patterns_only names entry :
  apply_result (mkEnrich None (Some names)) entry
  = set_extra_data
      (Some (mkExtra (Some names)
               (match extra_data entry with
                | Some x => if extra_nonempty x then fields x else ∅
                | None => ∅
                end))) entry.
Proof.
  unfold apply_result. simpl. destruct (extra_data entry) as [x|]; [|done].
  by destruct (extra_nonempty x).
Qed.

(** The two built-in processors on an entry. *)
Lemma run_default_processors entry :
  run_processors [LogLevelParser.process; PatternDetector.process] entry
  = let e := if bool_decide (level entry ∈ ["INFO"; "DEBUG"])
             then set_level (LogLevelParser.level_of (message entry)) entry
             else entry in
    match PatternDetector.detect (message entry) with
    | [] => e
    | names =>
        set_extra_data
          (Some (mkExtra (Some names)
                   (match extra_data entry with
                    | Some x => if extra_nonempty x then fields x else ∅
                    | None => ∅
                    end))) e
    end.
Proof.
  unfold run_processors. cbn [foldl]. unfold LogLevelParser.process.
  rewrite apply_result_level_only.
  set (e := if bool_decide _ then _ else _). cbn zeta.
  assert (message e = message entry ∧ extra_data e = extra_data entry) as [Hm Hx]
    by (unfold e; by case_bool_decide).
  unfold PatternDetector.process. rewrite Hm.
  destruct (PatternDetector.detect (message entry)) as [|n names]; [done|].
  by rewrite apply_result_patterns_only, Hx.
Qed.
End DefaultPipelineFacts.

(** X1.  A line that the watcher delivers to a logger with the two
    built-in processors is stored as an entry with the time of the
    call, the level the parser finds in the line (INFO when it finds
    none), the line as message, the path of the file, and the names
    the detector reports as its only extra data (none at all when it
    reports none); the level is in upper case, and the statistics are
    updated with that entry. *)
Theorem new_line_stored_entry (json_size : LogEntry → nat) (path line : string)
    (c : MeowLogger.Core) :
  MeowLogger.processors c = [LogLevelParser.process; PatternDetector.process] →
  let e := mkEntry (MeowLogger.clock c) (LogLevelParser.level_of line) line
             (Some path) None
             (match PatternDetector.detect line with
              | [] => None
              | names => Some (mkExtra (Some names) ∅)
              end) in
  let c' := MeowLogger._handle_new_line json_size path line c in
  MeowLogger.storage c'
  = @store _ (MeowLogger.Backend_LogStorage json_size) e (MeowLogger.storage c) ∧
  MeowLogger.stats c' = MeowLogger.update_stats e (MeowLogger.stats c) ∧
  is_upper (level e).
Proof.
  intros Hps e c'.
  assert (MeowLogger.run_processors (MeowLogger.processors c)
            (mkEntry (MeowLogger.clock c) "INFO" line (Some path) None None) = e) as He.
  { rewrite Hps, run_default_processors. simpl. unfold e.
    by destruct (PatternDetector.detect line). }
  unfold c', MeowLogger._handle_new_line, MeowLogger._process_and_store.
  rewrite He. simpl. repeat split. apply level_of_is_upper.
Qed.

Lemma new_line_stored_entry_witness :
  MeowLogger.get_logs fixed_size ∅
    (MeowLogger._handle_new_line fixed_size "app.log" "warning: disk at 91 GB"
       (MeowLogger.core (MeowLogger.init fixed_size 7)))
  = inr [mkEntry 7 "WARNING" "warning: disk at 91 GB" (Some "app.log") None
           (Some (mkExtra (Some ["warning"; "memory"]) ∅))].
Proof.
  pose proof (new_line_stored_entry fixed_size "app.log" "warning: disk at 91 GB"
                (MeowLogger.core (MeowLogger.init fixed_size 7)) eq_refl) as (H & _).
  unfold MeowLogger.get_logs. rewrite H. reflexivity.
Defined.

(** X2.  A direct [log] call on a logger with the two built-in
    processors stores the uppercased level of the call when that is
    neither INFO nor DEBUG; a call at INFO or DEBUG (in any letter
    case) stores the level the parser finds in the message instead,
    which is INFO for a message that names no level.  The stored level
    is in upper case in both cases. *)
Theorem log_stored_level (json_size : LogEntry → nat) (lvl : string)
    (msg : option string) (kwargs : ExtraData) (c : MeowLogger.Core) :
  MeowLogger.processors c = [LogLevelParser.process; PatternDetector.process] →
  ∃ e,
    MeowLogger.storage (MeowLogger.log json_size lvl msg kwargs c)
    = @store _ (MeowLogger.Backend_LogStorage json_size) e (MeowLogger.storage c) ∧
    MeowLogger.stats (MeowLogger.log json_size lvl msg kwargs c)
    = MeowLogger.update_stats e (MeowLogger.stats c) ∧
    message e = default EmptyString msg ∧
    file_path e = None ∧
    level e = (if bool_decide (Text.str (Text.upper (Text.chars lvl)) ∈ ["INFO"; "DEBUG"])
               then LogLevelParser.level_of (default EmptyString msg)
               else Text.str (Text.upper (Text.chars lvl))) ∧
    is_upper (level e).
Proof.
  intros Hps. unfold MeowLogger.log, MeowLogger._process_and_store.
  set (entry := mkEntry _ _ _ _ _ _). eexists. split; [reflexivity|].
  split; [reflexivity|]. rewrite Hps, run_default_processors.
  set (e0 := if bool_decide _ then _ else _).
  assert (message e0 = default EmptyString msg ∧ file_path e0 = None ∧
          level e0 = (if bool_decide (Text.str (Text.upper (Text.chars lvl))
                                        ∈ ["INFO"; "DEBUG"])
                      then LogLevelParser.level_of (default EmptyString msg)
                      else Text.str (Text.upper (Text.chars lvl))) ∧
          is_upper (level e0)) as (Hm & Hf & Hl & Hu).
  { unfold e0, entry. simpl. case_bool_decide; simpl; repeat split.
    - apply level_of_is_upper.
    - apply is_upper_upper. }
  cbn zeta. destruct (PatternDetector.detect _); simpl; repeat split; assumption.
Qed.

Lemma log_stored_level_witness :
  let c := MeowLogger.core (MeowLogger.init fixed_size 0) in
  ∃ e,
    MeowLogger.storage
      (MeowLogger.log fixed_size "debug" (Some "cache warmed") (mkExtra None ∅) c)
    = @store _ (MeowLogger.Backend_LogStorage fixed_size) e (MeowLogger.storage c) ∧
    message e = "cache warmed" ∧ level e = "INFO".
Proof.
  intros c.
  destruct (log_stored_level fixed_size "debug" (Some "cache warmed") (mkExtra None ∅)
              c eq_refl) as (e & Hs & _ & Hm & _ & Hl & _).
  exists e. split; [exact Hs|]. split; [exact Hm | exact Hl].
Defined.

(** ** How processors compose *)
Section ProcessorFacts.
Import MeowLogger.

Lemma run_processors_app ps1 ps2 entry :
  run_processors (ps1 ++ ps2) entry = run_processors ps2 (run_processors ps1 entry).
Proof. unfold run_processors. apply foldl_app. Qed.

Lemma apply_result_patterns result entry names :
  r_patterns result = Some names →
  entry_patterns (apply_result result entry) = names.
Proof. unfold apply_result. by intros ->. Qed.

Lemma apply_result_no_patterns result entry :
  r_patterns result = None →
  extra_data (apply_result result entry) = extra_data entry.
Proof.
  unfold apply_result. intros ->.
  destruct (r_level result); [|done]. by case_bool_decide.
Qed.
End ProcessorFacts.

(** X3.  Along the list of processors, the level goes to the first
    processor that moves it away from INFO and DEBUG, and the patterns
    go to the last processor that reports some: once the entry has a
    level other than INFO and DEBUG, no later processor changes it;
    a list of patterns replaces the list an earlier processor
    reported, and a processor that reports none leaves the extra data
    as they are. *)
Theorem level_first_patterns_last (ps : list LogProcessor) (p : LogProcessor)
    (entry : LogEntry) :
  let e := MeowLogger.run_processors ps entry in
  let e' := MeowLogger.run_processors (ps ++ [p]) entry in
  (level e ∉ ["INFO"; "DEBUG"] → level e' = level e) ∧
  (∀ result names,
     p e = Some result → r_patterns result = Some names →
     MeowLogger.entry_patterns e' = names) ∧
  (∀ result,
     p e = Some result → r_patterns result = None → extra_data e' = extra_data e) ∧
  (p e = None → e' = e).
Proof.
  intros e e'. unfold e'. rewrite run_processors_app. fold e.
  unfold MeowLogger.run_processors at 1 2 3 4. simpl. repeat split.
  - intros Hl. destruct (p e); [|done]. by apply apply_result_keeps_level.
  - intros result names -> Hn. by apply apply_result_patterns.
  - intros result -> Hn. by apply apply_result_no_patterns.
  - by intros ->.
Qed.

Lemma level_first_patterns_last_witness :
  let escalate : LogProcessor := fun _ => Some (mkEnrich (Some "CRITICAL") None) in
  let entry := mkEntry 0 "INFO" "WARNING: low memory" None None None in
  level (MeowLogger.run_processors
           ([LogLevelParser.process; PatternDetector.process] ++ [escalate]) entry)
  = "WARNING".
Proof.
  intros escalate entry.
  apply (proj1 (level_first_patterns_last
                  [LogLevelParser.process; PatternDetector.process] escalate entry)).
  apply (bool_decide_unpack _). by vm_compute.
Defined.

(** X4.  The two processors that the example application adds never
    change an entry: their results carry the key [severity], or the
    keys [cat_related] and [cat_word], and the engine reads [level]
    and [patterns] only.  A logger of the application stores the same
    entry and counts the same as a logger with the built-in processors
    alone. *)
Theorem example_processors_change_nothing (json_size : LogEntry → nat)
    (cat_words : list string) :
  (∀ ps entry,
     MeowLogger.run_processors
       (ps ++ [CatProcessor.process cat_words; SeverityProcessor.process]) entry
     = MeowLogger.run_processors ps entry) ∧
  (∀ storage_file now entry,
     let app := MeowLogger.core (MeowLoggerApp.init json_size cat_words storage_file now) in
     let plain := MeowLogger.set_storage (MeowLogger.storage app)
                    (MeowLogger.core (MeowLogger.init json_size now)) in
     MeowLogger.storage (MeowLogger._process_and_store json_size entry app)
     = MeowLogger.storage (MeowLogger._process_and_store json_size entry plain) ∧
     MeowLogger.stats (MeowLogger._process_and_store json_size entry app)
     = MeowLogger.stats (MeowLogger._process_and_store json_size entry plain)).
Proof.
  assert (∀ ps entry,
     MeowLogger.run_processors
       (ps ++ [CatProcessor.process cat_words; SeverityProcessor.process]) entry
     = MeowLogger.run_processors ps entry) as H.
  { assert (∀ (p : LogProcessor) e,
              (p e = None ∨ p e = Some (mkEnrich None None)) →
              MeowLogger.run_processors [p] e = e) as Hone.
    { intros p e. unfold MeowLogger.run_processors. simpl. by intros [->| ->]. }
    intros ps entry.
    change [CatProcessor.process cat_words; SeverityProcessor.process]
      with ([CatProcessor.process cat_words] ++ [SeverityProcessor.process]).
    rewrite !run_processors_app.
    generalize (MeowLogger.run_processors ps entry). intros e.
    rewrite (Hone (CatProcessor.process cat_words) e).
    - apply Hone. unfold SeverityProcessor.process.
      destruct (SeverityProcessor.severity_of (message e)); auto.
    - unfold CatProcessor.process.
      destruct (CatProcessor.cat_word cat_words (message e)); auto. }
  split; [exact H|]. intros storage_file now entry app plain.
  unfold MeowLogger._process_and_store.
  change (MeowLogger.processors app)
    with ([LogLevelParser.process; PatternDetector.process]
          ++ [CatProcessor.process cat_words; SeverityProcessor.process]).
  by rewrite H.
Qed.

(** ** Invariants of the statistics *)
Section CounterFacts.
Import MeowLogger.
Variable json_size : LogEntry → nat.

Lemma sum_counts_bump d k : sum_counts (bump d k) = sum_counts d + 1.
Proof.
  assert (∀ (j1 j2 : string) (z1 z2 y : nat), z1 + (z2 + y) = z2 + (z1 + y)) as Hcomm
    by (intros; lia).
  unfold sum_counts, bump, count. destruct (d !! k) as [v|] eqn:Hk; simpl.
  - rewrite <- insert_delete_eq.
    rewrite map_fold_insert_L; [|by intros; apply Hcomm | apply lookup_delete_eq].
    rewrite (map_fold_delete_L _ _ k v d); [lia | by intros; apply Hcomm | done].
  - rewrite map_fold_insert_L; [lia | by intros; apply Hcomm | done].
Qed.

Lemma process_and_store_counted entry c :
  counted c → counted (_process_and_store json_size entry c).
Proof. unfold counted. simpl. rewrite sum_counts_bump. lia. Qed.

Lemma run_calls_inv {W} (P : W → Prop) (cs : list (Call W)) w :
  Forall (fun c : Call W => ∀ w, P w → P (c.1.1 c.1.2 c.2 w)) cs →
  P w → P (run_calls cs w).
Proof.
  revert w. induction cs as [|[[h p] l] cs IH]; intros w Hcs Hw; simpl; [done|].
  apply Forall_cons in Hcs as [Hc Hcs]. apply IH; [done|]. by apply (Hc w).
Qed.

Lemma run_counted op l :
  own_handler json_size l → counted (core l) → counted (core (run json_size op l)).
Proof.
  intros Hown Hc. destruct op; simpl; try done.
  - by apply process_and_store_counted.
  - by destruct (watch_preserves fs path l) as [-> _].
  - unfold poll. destruct (FileWatcher.running (watcher l)); [|done].
    pose proof (poll_spec fs (watcher l) (core l)) as H.
    destruct (FileWatcher.poll fs (watcher l) (core l)) as [[w' c'] evs]. simpl.
    destruct H as (_ & _ & _ & -> & _).
    apply run_calls_inv; [|done]. apply Forall_forall.
    intros call ([p n] & Hcall & _)%list_elem_of_bind.
    apply file_calls_handlers in Hcall as [Hh _]. rewrite Hown in Hh.
    apply list_elem_of_singleton in Hh. intros c. rewrite Hh.
    apply process_and_store_counted.
Qed.
End CounterFacts.

(** X5.  In every state that a fresh logger reaches through its
    operations (direct logging, lines delivered by the watcher, change
    of storage, added processors, watched paths, start and stop), the
    counters by level add up to the total count; clearing through the
    web API keeps that. *)
Theorem level_counts_add_up (json_size : LogEntry → nat) (now : Z)
    (ops : list MeowLogger.Op) :
  let c := MeowLogger.core (after_ops json_size now ops) in
  sum_counts (MeowLogger.by_level (MeowLogger.stats c))
  = MeowLogger.total_logs (MeowLogger.stats c) ∧
  sum_counts (MeowLogger.by_level (MeowLogger.stats (APIHandler.handle_clear c)))
  = MeowLogger.total_logs (MeowLogger.stats (APIHandler.handle_clear c)).
Proof.
  split; [|done]. unfold after_ops.
  induction ops as [|op ops IH] using rev_ind; [done|].
  rewrite foldl_snoc. apply run_counted; [apply after_ops_own_handler | exact IH].
Qed.

(** ** Retrieval with filters *)
Section FilteredRetrievalFacts.
Import Text.

Lemma strip_prefix_spec p t r : strip_prefix p t = Some r ↔ t = p ++ r.
Proof.
  revert t. induction p as [|a p IH]; intros t; simpl.
  - split; [by intros [= ->] | by intros ->].
  - destruct t as [|b t]; [done|]. case_bool_decide as Hab.
    + subst b. rewrite IH. split; [by intros -> | by intros [= ->]].
    + split; [done|]. intros [= ? ?]. done.
Qed.

Lemma starts_with_spec p t : starts_with p t = true ↔ ∃ r, t = p ++ r.
Proof.
  unfold starts_with. rewrite bool_decide_eq_true. split.
  - intros [r Hr]. exists r. by apply strip_prefix_spec.
  - intros [r Hr]. exists r. by apply strip_prefix_spec.
Qed.

(** [needle in hay] holds exactly when [needle] occurs in [hay]. *)
Lemma contains_spec needle hay : contains needle hay = true ↔ substring needle hay.
Proof.
  unfold substring. induction hay as [|c hay IH]; simpl.
  - rewrite orb_false_r, starts_with_spec. split.
    + intros [r Hr]. by exists [], r.
    + intros (pre & post & Heq). destruct pre; [|done]. by exists post.
  - rewrite orb_true_iff, starts_with_spec, IH. split.
    + intros [[r Hr]|(pre & post & ->)].
      * by exists [], r.
      * by exists (c :: pre), post.
    + intros ([|c' pre] & post & Heq).
      * left. by exists post.
      * right. injection Heq as _ ->. by exists pre, post.
Qed.

Lemma level_differs_spec filters e :
  level_differs e filters = false ↔
  ∀ v, active filters "level" = Some v → v = VStr (level e).
Proof.
  unfold level_differs. destruct (active filters "level") as [v|].
  - rewrite negb_false_iff, bool_decide_eq_true. split.
    + by intros <- ? [= <-].
    + intros H. symmetry. by apply H.
  - by split.
Qed.

Lemma search_misses_spec filters e :
  search_misses e filters = inr false ↔
  ∀ v, active filters "search" = Some v →
       ∃ s, v = VStr s ∧ substring_ci s (message e).
Proof.
  unfold search_misses, substring_ci. destruct (active filters "search") as [[s|n]|].
  - destruct (contains _ _) eqn:Hc; simpl; split.
    + intros _ v [= <-]. exists s. split; [done|]. by apply contains_spec.
    + done.
    + done.
    + intros H. destruct (H _ eq_refl) as (s' & [= <-] & Hsub).
      apply contains_spec in Hsub. congruence.
  - split; [done|]. intros H. by destruct (H _ eq_refl) as (s' & [=] & ?).
  - by split.
Qed.

Lemma path_differs_spec filters e :
  path_differs e filters = false ↔
  ∀ v, active filters "file_path" = Some v →
       ∃ p, v = VStr p ∧ file_path e = Some p.
Proof.
  unfold path_differs. destruct (active filters "file_path") as [v|].
  - rewrite negb_false_iff, bool_decide_eq_true. split.
    + intros H v' [= <-]. destruct (file_path e) as [p|]; [|done].
      injection H as <-. by exists p.
    + intros H. destruct (H _ eq_refl) as (p & -> & ->). done.
  - by split.
Qed.

(** The entries [retrieve] keeps are those with the level of the
    filter, a message that contains the searched text whatever the
    letter case, and the path of the filter. *)
Lemma keeps_accepts filters e : keeps filters e = true ↔ accepts filters e.
Proof.
  unfold accepts.
  rewrite <- level_differs_spec, <- search_misses_spec, <- path_differs_spec.
  unfold keeps, matches_filters.
  destruct (level_differs e filters); [by split; [|intros [? _]]|].
  destruct (search_misses e filters) as [exn|[|]];
    [by split; [|intros (_ & ? & _)]..|].
  destruct (path_differs e filters); [by split; [|intros (_ & _ & ?)] | done].
Qed.

Lemma matches_filters_text filters e :
  text_search filters → matches_filters e filters = inr (keeps filters e).
Proof.
  intros Htext. unfold keeps, matches_filters, search_misses.
  destruct (level_differs e filters); [done|].
  destruct (active filters "search") as [[s|n]|] eqn:Hs.
  - destruct (negb _); [done|]. by destruct (negb _).
  - by destruct (Htext n).
  - by destruct (negb _).
Qed.

(** The loop of the memory backend, for filters that do not raise. *)
Lemma retrieve_loop_filtered filters limit todo results :
  text_search filters →
  (Z.of_nat (length results) < limit)%Z →
  MemoryStorage.retrieve_loop filters limit todo results
  = inr (results ++ take (Z.to_nat limit - length results)
                         (filter (fun e => Is_true (keeps filters e)) todo)).
Proof.
  intros Htext. revert results.
  induction todo as [|e todo IH]; intros results Hlen; simpl.
  - by rewrite filter_nil, take_nil, app_nil_r.
  - rewrite matches_filters_text by done. rewrite filter_cons.
    destruct (keeps filters e); simpl.
    + rewrite length_app. simpl. case_bool_decide.
      * replace (Z.to_nat limit - length results) with 1 by lia. done.
      * rewrite IH by (rewrite length_app; simpl; lia).
        rewrite length_app. simpl.
        replace (Z.to_nat limit - length results)
          with (S (Z.to_nat limit - (length results + 1))) by lia.
        simpl. by rewrite <- app_assoc.
    + by apply IH.
Qed.

(** The loop of the file backend: a line that does not decode, or on
    which the filter raises, is one that is not kept. *)
Lemma scan_filtered filters limit todo entries :
  (Z.of_nat (length entries) < limit)%Z →
  FileStorage.scan filters limit todo entries
  = entries ++ take (Z.to_nat limit - length entries)
                    (filter (fun e => Is_true (keeps filters e)) (decoded todo)).
Proof.
  revert entries. unfold decoded.
  induction todo as [|line todo IH]; intros entries Hlen; simpl.
  - by rewrite filter_nil, take_nil, app_nil_r.
  - destruct (FileStorage.decode line) as [e|]; simpl; [|by apply IH].
    rewrite filter_cons.
    assert (match matches_filters e filters with
            | inr true => keeps filters e = true
            | _ => keeps filters e = false
            end) as Hk
      by (unfold keeps; by destruct (matches_filters e filters) as [|[|]]).
    destruct (matches_filters e filters) as [exn|[|]];
      [rewrite decide_False by (rewrite Hk; exact id); by apply IH
      |rewrite decide_True by (rewrite Hk; exact I)
      |rewrite decide_False by (rewrite Hk; exact id); by apply IH].
    rewrite length_app. simpl. case_bool_decide.
    + replace (Z.to_nat limit - length entries) with 1 by lia. done.
    + rewrite IH by (rewrite length_app; simpl; lia).
      rewrite length_app. simpl.
      replace (Z.to_nat limit - length entries)
        with (S (Z.to_nat limit - (length entries + 1))) by lia.
      simpl. by rewrite <- app_assoc.
Qed.

(** Both loops stop at the limit, or at one entry for a limit below 1. *)
Lemma retrieve_loop_bound filters limit todo results l :
  length results < Nat.max (Z.to_nat limit) 1 →
  MemoryStorage.retrieve_loop filters limit todo results = inr l →
  length l ≤ Nat.max (Z.to_nat limit) 1.
Proof.
  revert results. induction todo as [|e todo IH]; intros results Hlen; simpl.
  - intros [= <-]. lia.
  - destruct (matches_filters e filters) as [exn|[|]]; [done| |by apply IH].
    case_bool_decide as Hstop; rewrite length_app in Hstop; simpl in Hstop.
    + intros [= <-]. rewrite length_app. simpl. lia.
    + apply IH. rewrite length_app. simpl. lia.
Qed.

Lemma scan_bound filters limit todo entries :
  length entries < Nat.max (Z.to_nat limit) 1 →
  length (FileStorage.scan filters limit todo entries) ≤ Nat.max (Z.to_nat limit) 1.
Proof.
  revert entries. induction todo as [|line todo IH]; intros entries Hlen; simpl.
  - lia.
  - destruct (FileStorage.decode line) as [e|]; [|by apply IH].
    destruct (matches_filters e filters) as [exn|[|]]; [by apply IH| |by apply IH].
    case_bool_decide as Hstop; rewrite length_app in Hstop; simpl in Hstop.
    + rewrite length_app. simpl. lia.
    + apply IH. rewrite length_app. simpl. lia.
Qed.
End FilteredRetrievalFacts.

(** X6.  For filters whose search value is a text and a limit of at
    least 1, the memory backend returns, most recent first, the first
    [limit] of the entries that pass the filters: those whose level is
    the one of the [level] filter, whose message contains the [search]
    text whatever the letter case, and whose path is the one of the
    [file_path] filter; a filter that is absent, or empty, asks
    nothing. *)
Theorem memory_retrieve_filtered (filters : gmap string Value) (limit : Z)
    (s : MemoryStorage.t) :
  text_search filters → (1 ≤ limit)%Z →
  MemoryStorage.retrieve filters limit s
  = inr (take (Z.to_nat limit)
           (filter (fun e => Is_true (keeps filters e))
                   (reverse (MemoryStorage.entries s)))) ∧
  (∀ e, keeps filters e = true ↔ accepts filters e) ∧
  (∀ k, filters !! k = Some (VStr EmptyString) → active filters k = None).
Proof.
  intros Htext Hlimit. split; [|split].
  - unfold MemoryStorage.retrieve.
    rewrite retrieve_loop_filtered by (done || simpl; lia). simpl.
    by rewrite Nat.sub_0_r.
  - intros e. apply keeps_accepts.
  - intros k Hk. unfold active. by rewrite Hk.
Qed.

Lemma memory_retrieve_filtered_witness :
  let s := foldl (fun s e => store e s) (MemoryStorage.init 10)
             [plain_entry "INFO" "User logged in"; plain_entry "ERROR" "user db down";
              plain_entry "ERROR" "disk full"; plain_entry "ERROR" "USER quota"] in
  messages_of (MemoryStorage.retrieve
                 {["level" := VStr "ERROR"; "search" := VStr "User";
                   "file_path" := VStr EmptyString]} 5 s)
  = Some ["USER quota"; "user db down"].
Proof.
  intros s.
  destruct (memory_retrieve_filtered
              {["level" := VStr "ERROR"; "search" := VStr "User";
                "file_path" := VStr EmptyString]} 5 s) as (-> & _).
  - intros n. by vm_compute.
  - lia.
  - by vm_compute.
Defined.

(** X7.  Whatever the filters, a [retrieve] that returns holds at most
    [limit] entries, and at most one for a limit below 1; this holds
    for both backends. *)
Theorem retrieve_at_most_limit (filters : gmap string Value) (limit : Z) :
  (∀ s, match MemoryStorage.retrieve filters limit s with
        | inr l => length l ≤ Nat.max (Z.to_nat limit) 1
        | inl _ => True
        end) ∧
  (∀ s, match FileStorage.retrieve filters limit s with
        | inr l => length l ≤ Nat.max (Z.to_nat limit) 1
        | inl _ => True
        end).
Proof.
  split; intros s.
  - destruct (MemoryStorage.retrieve filters limit s) as [|l] eqn:Hr; [done|].
    eapply retrieve_loop_bound; [|exact Hr]. simpl. lia.
  - unfold FileStorage.retrieve. destruct (FileStorage.primary s); simpl; [|lia].
    apply scan_bound. simpl. lia.
Qed.

(** X8.  On the same entries, with a text as search value and a limit
    of at least 1, the file backend returns a prefix of what the memory
    backend returns, and the same list when the file has at most
    [2 * limit] lines.  In a longer file it can return fewer entries
    than match: it filters the last [2 * limit] lines only. *)
Theorem file_backend_returns_prefix (filters : gmap string Value) (limit : Z)
    (capacity : nat) (es : list LogEntry) :
  text_search filters → (1 ≤ limit)%Z →
  ∃ lm,
    MemoryStorage.retrieve filters limit (MemoryStorage.mk capacity es) = inr lm ∧
    FileStorage.retrieve_lines filters limit (FileStorage.Json <$> es) `prefix_of` lm ∧
    ((Z.of_nat (length es) ≤ 2 * limit)%Z →
     FileStorage.retrieve_lines filters limit (FileStorage.Json <$> es) = lm) ∧
    (∀ old recent,
       es = old ++ recent → length recent = Z.to_nat (2 * limit) →
       FileStorage.retrieve_lines filters limit (FileStorage.Json <$> es)
       = take (Z.to_nat limit)
           (filter (fun e => Is_true (keeps filters e)) (reverse recent))).
Proof.
  intros Htext Hlimit. eexists. split; [by apply memory_retrieve_filtered|].
  simpl. unfold FileStorage.retrieve_lines.
  rewrite scan_filtered by (simpl; lia). simpl. rewrite Nat.sub_0_r.
  assert (∀ ls, decoded (FileStorage.Json <$> ls) = ls) as Hdec.
  { intros ls. unfold decoded. induction ls as [|x ls IH]; [done|].
    cbn. f_equal. exact IH. }
  rewrite tail_window_positive by done.
  rewrite reverse_last_n, <- fmap_reverse, <- fmap_take, Hdec.
  split; [|split].
  - rewrite <- (take_drop (Z.to_nat (2 * limit)) (reverse es)) at 2.
    rewrite filter_app, take_app. eexists. reflexivity.
  - intros Hlen. rewrite (take_ge (reverse es)); [done|].
    rewrite length_reverse. lia.
  - intros old recent -> Hrecent. rewrite reverse_app.
    rewrite take_app_length'; [done|]. by rewrite length_reverse.
Qed.

Lemma file_backend_returns_prefix_witness :
  let es := [plain_entry "ERROR" "a"; plain_entry "INFO" "b";
             plain_entry "ERROR" "c"] in
  MemoryStorage.retrieve {["level" := VStr "ERROR"]} 2 (MemoryStorage.mk 10 es)
  = inr (FileStorage.retrieve_lines {["level" := VStr "ERROR"]} 2
           (FileStorage.Json <$> es)).
Proof.
  intros es.
  destruct (file_backend_returns_prefix {["level" := VStr "ERROR"]} 2 10 es)
    as (lm & Hm & _ & Hf & _).
  - intros n. by vm_compute.
  - lia.
  - rewrite Hm, Hf; [reflexivity | by vm_compute].
Defined.

Lemma retrieve_loop_integer_search filters n limit todo :
  active filters "search" = Some (VInt n) →
  MemoryStorage.retrieve_loop filters limit todo []
  = if existsb (fun e => negb (level_differs e filters)) todo
    then inl AttributeError else inr [].
Proof.
  intros Hs. induction todo as [|e todo IH]; simpl; [done|].
  unfold matches_filters, search_misses. rewrite Hs.
  by destruct (level_differs e filters).
Qed.

Lemma scan_integer_search filters n limit todo entries :
  active filters "search" = Some (VInt n) →
  FileStorage.scan filters limit todo entries = entries.
Proof.
  intros Hs. induction todo as [|line todo IH]; simpl; [done|].
  destruct (FileStorage.decode line) as [e|]; [|done].
  unfold matches_filters, search_misses. rewrite Hs.
  by destruct (level_differs e filters).
Qed.

Lemma existsb_reverse {A} (f : A → bool) (l : list A) :
  existsb f (reverse l) = existsb f l.
Proof.
  induction l as [|x l IH]; [done|].
  rewrite reverse_cons, existsb_app, IH. simpl.
  by rewrite orb_false_r, orb_comm.
Qed.

(** X9.  With an integer as [search] filter the two backends differ.
    The memory backend raises [AttributeError] as soon as an entry
    passes the level test, and returns no entry otherwise; the file
    backend never raises, and returns no entry, whatever the file
    holds. *)
Theorem integer_search_filter (filters : gmap string Value) (n limit : Z) :
  active filters "search" = Some (VInt n) →
  (∀ s, MemoryStorage.retrieve filters limit s
        = if existsb (fun e => negb (level_differs e filters))
                     (MemoryStorage.entries s)
          then inl AttributeError else inr []) ∧
  (∀ s, FileStorage.retrieve filters limit s = inr []).
Proof.
  intros Hs. split; intros s.
  - unfold MemoryStorage.retrieve.
    rewrite (retrieve_loop_integer_search _ n) by done.
    by rewrite existsb_reverse.
  - unfold FileStorage.retrieve, FileStorage.retrieve_lines.
    destruct (FileStorage.primary s); [|done].
    by rewrite (scan_integer_search _ n).
Qed.

Lemma integer_search_filter_witness :
  MemoryStorage.retrieve {["search" := VInt 404]} 10
    (MemoryStorage.mk 10 [plain_entry "INFO" "status 404"])
  = inl AttributeError ∧
  FileStorage.retrieve {["search" := VInt 404]} 10
    (FileStorage.mk 1000 5 (Some [FileStorage.Json (plain_entry "INFO" "status 404")])
                    ∅ true)
  = inr [].
Proof.
  destruct (integer_search_filter {["search" := VInt 404]} 404 10) as [Hm Hf].
  - by vm_compute.
  - split; [by rewrite Hm | by rewrite Hf].
Defined.

(** ** The web API *)
Section APIFacts.
Variable json_size : LogEntry → nat.
Variable int : string → option Z.

Lemma active_remove_empty (f : gmap string Value) k :
  active (APIHandler.remove_empty f) k = active f k.
Proof.
  unfold active, APIHandler.remove_empty. rewrite map_lookup_filter.
  destruct (f !! k) as [v|]; simpl; [|done].
  destruct (truthy v) eqn:Hv.
  - rewrite option_guard_True by exact I. simpl. by rewrite Hv.
  - by rewrite option_guard_False by exact id.
Qed.

Lemma matches_filters_active entry (f f' : gmap string Value) :
  (∀ k, k ∈ ["level"; "search"; "file_path"] → active f' k = active f k) →
  matches_filters entry f' = matches_filters entry f.
Proof.
  intros H. unfold matches_filters, level_differs, search_misses, path_differs.
  rewrite !H; [done|..]; set_solver.
Qed.

Lemma backend_retrieve_active (f f' : gmap string Value) limit
    (b : MeowLogger.Backend) :
  (∀ k, k ∈ ["level"; "search"; "file_path"] → active f' k = active f k) →
  @retrieve _ (MeowLogger.Backend_LogStorage json_size) f' limit b
  = @retrieve _ (MeowLogger.Backend_LogStorage json_size) f limit b.
Proof.
  intros H. destruct b as [m|fl]; simpl.
  - unfold MemoryStorage.retrieve. generalize (@nil LogEntry).
    induction (reverse (MemoryStorage.entries m)) as [|e todo IH]; intros results;
      simpl; [done|].
    rewrite (matches_filters_active e f f' H).
    destruct (matches_filters e f) as [|[|]]; [done|..]; by rewrite ?IH.
  - unfold FileStorage.retrieve. destruct (FileStorage.primary fl) as [lines|]; [|done].
    unfold FileStorage.retrieve_lines. f_equal. generalize (@nil LogEntry).
    induction (reverse (FileStorage.tail_window limit lines)) as [|line todo IH];
      intros entries; simpl; [done|].
    destruct (FileStorage.decode line) as [e|]; [|done].
    rewrite (matches_filters_active e f f' H).
    destruct (matches_filters e f) as [|[|]]; by rewrite ?IH.
Qed.

Lemma backend_retrieve_text (f : gmap string Value) limit (b : MeowLogger.Backend) :
  text_search f → (1 ≤ limit)%Z →
  ∃ l, @retrieve _ (MeowLogger.Backend_LogStorage json_size) f limit b = inr l ∧
       length l ≤ Z.to_nat limit.
Proof.
  intros Htext Hlimit. destruct b as [m|fl]; simpl.
  - eexists. split.
    + unfold MemoryStorage.retrieve. apply retrieve_loop_filtered; [done|]. simpl. lia.
    + simpl. rewrite length_take. lia.
  - unfold FileStorage.retrieve. destruct (FileStorage.primary fl) as [lines|].
    + eexists. split; [done|]. unfold FileStorage.retrieve_lines.
      rewrite scan_filtered by (simpl; lia). simpl. rewrite length_take. lia.
    + exists []. split; [done|]. simpl. lia.
Qed.

End APIFacts.

(** X10.  [handle_logs] answers with at most 100 entries, whatever the
    [limit] parameter says: the entries are those that the storage
    returns for the [level] and [search] parameters alone at the
    default limit of 100, and [total] is their number, not the number
    of matching entries.  The [limit] parameter is only parsed and
    echoed in [filters], from which empty values are removed.  The
    handler raises [IndexError] when a parameter has an empty list of
    values and [ValueError] when [limit] is no integer; the logger
    itself never raises here. *)
Theorem handle_logs_response (json_size : LogEntry → nat) (int : string → option Z)
    (params : gmap string (list string)) (c : MeowLogger.Core) :
  match APIHandler.handle_logs json_size int params c with
  | inr r =>
      ∃ lvl search lim n,
        APIHandler.first_value params "level" EmptyString = inr lvl ∧
        APIHandler.first_value params "search" EmptyString = inr search ∧
        APIHandler.first_value params "limit" "100" = inr lim ∧
        int lim = Some n ∧
        @retrieve _ (MeowLogger.Backend_LogStorage json_size)
          {["level" := VStr lvl; "search" := VStr search]} 100 (MeowLogger.storage c)
        = inr (APIHandler.logs r) ∧
        APIHandler.total r = length (APIHandler.logs r) ∧
        length (APIHandler.logs r) ≤ 100 ∧
        APIHandler.filters r
        = APIHandler.remove_empty
            {["level" := VStr lvl; "search" := VStr search; "limit" := VInt n]}
  | inl APIHandler.IndexError =>
      ∃ k, k ∈ ["level"; "search"; "limit"] ∧ params !! k = Some []
  | inl (APIHandler.IntValueError s) =>
      APIHandler.first_value params "limit" "100" = inr s ∧ int s = None
  | inl (APIHandler.Raised _) => False
  end.
Proof.
  assert (∀ k d, match APIHandler.first_value params k d with
                 | inl e => e = APIHandler.IndexError ∧ params !! k = Some []
                 | inr _ => True
                 end) as Hfirst.
  { intros k d. unfold APIHandler.first_value.
    by destruct (params !! k) as [[|v vs]|]. }
  unfold APIHandler.handle_logs.
  pose proof (Hfirst "level" EmptyString) as H1.
  destruct (APIHandler.first_value params "level" EmptyString) as [e1|lvl].
  { destruct H1 as [-> H1]. exists "level". split; [set_solver|done]. }
  pose proof (Hfirst "search" EmptyString) as H2.
  destruct (APIHandler.first_value params "search" EmptyString) as [e2|search].
  { destruct H2 as [-> H2]. exists "search". split; [set_solver|done]. }
  pose proof (Hfirst "limit" "100") as H3.
  destruct (APIHandler.first_value params "limit" "100") as [e3|lim].
  { destruct H3 as [-> H3]. exists "limit". split; [set_solver|done]. }
  destruct (int lim) as [n|] eqn:Hint; [|done].
  set (F := APIHandler.remove_empty _).
  assert (MeowLogger.get_logs json_size F c
          = @retrieve _ (MeowLogger.Backend_LogStorage json_size)
              {["level" := VStr lvl; "search" := VStr search]} 100
              (MeowLogger.storage c)) as Hget.
  { unfold MeowLogger.get_logs, DEFAULT_LIMIT. apply backend_retrieve_active.
    intros k Hk. unfold F. rewrite active_remove_empty. unfold active.
    repeat (apply elem_of_cons in Hk as [->|Hk]);
      [by simplify_map_eq..|by apply elem_of_nil in Hk]. }
  rewrite Hget.
  destruct (backend_retrieve_text json_size
              {["level" := VStr lvl; "search" := VStr search]}
              100 (MeowLogger.storage c)) as (l & Hl & Hlen).
  { intros m. unfold active. rewrite lookup_insert_ne by done.
    rewrite lookup_singleton_eq. destruct (truthy (VStr search)); congruence. }
  { lia. }
  rewrite Hl. exists lvl, search, lim, n. simpl.
  repeat split; try done; lia.
Qed.

(** X11.  [handle_clear] resets the counters and keeps the processors;
    it empties a memory storage, so that [handle_logs] then answers
    with no entry, but it leaves a file storage as it is: there
    [handle_logs] answers after the clear what it answered before. *)
Theorem handle_clear_then_logs (json_size : LogEntry → nat) (int : string → option Z)
    (params : gmap string (list string)) (c : MeowLogger.Core) :
  let c' := APIHandler.handle_clear c in
  MeowLogger.total_logs (MeowLogger.stats c') = 0 ∧
  MeowLogger.by_level (MeowLogger.stats c') = ∅ ∧
  MeowLogger.by_pattern (MeowLogger.stats c') = ∅ ∧
  MeowLogger.processors c' = MeowLogger.processors c ∧
  match MeowLogger.storage c with
  | MeowLogger.InMemory m =>
      MeowLogger.storage c'
      = MeowLogger.InMemory (MemoryStorage.init (MemoryStorage.max_entries m)) ∧
      match APIHandler.handle_logs json_size int params c' with
      | inr r => APIHandler.logs r = [] ∧ APIHandler.total r = 0
      | inl e => APIHandler.handle_logs json_size int params c = inl e
      end
  | MeowLogger.OnFile f =>
      MeowLogger.storage c' = MeowLogger.OnFile f ∧
      APIHandler.handle_logs json_size int params c'
      = APIHandler.handle_logs json_size int params c
  end.
Proof.
  intros c'. repeat split.
  destruct c as [[m|f] ps st clk]; simpl; (split; [done|]).
  - unfold APIHandler.handle_logs, MeowLogger.get_logs. simpl.
    destruct (APIHandler.first_value params "level" EmptyString); [done|].
    destruct (APIHandler.first_value params "search" EmptyString); [done|].
    destruct (APIHandler.first_value params "limit" "100") as [|lim]; [done|].
    by destruct (int lim).
  - done.
Qed.

(** ** The watcher over successive iterations *)
Section WatcherSequenceFacts.
Import Text FileWatcher.
Context {W : Type}.
Implicit Types (hs : list (Handler W)) (fs : gmap string FS.Node).

Lemma universal_newlines_cons_plain c t :
  c ≠ CR → universal_newlines (c :: t) = c :: universal_newlines t.
Proof. intros Hc. simpl. by rewrite bool_decide_false. Qed.

(** A text that ends with a line feed is translated on its own. *)
Lemma universal_newlines_app_LF x more :
  universal_newlines ((x ++ [LF]) ++ more)
  = universal_newlines (x ++ [LF]) ++ universal_newlines more ∧
  ∃ z, universal_newlines (x ++ [LF]) = z ++ [LF].
Proof.
  remember (length x) as n eqn:Hn. revert x Hn.
  induction n as [n IH] using lt_wf_ind. intros x Hn.
  destruct x as [|c x].
  - simpl. rewrite ?bool_decide_false by done. split; [done|]. by exists [].
  - destruct (decide (c = CR)) as [->|Hc].
    + destruct x as [|d x].
      * simpl. rewrite ?bool_decide_true by done. split; [done|]. by exists [].
      * destruct (decide (d = LF)) as [->|Hd].
        -- destruct (IH (length x) ltac:(simpl in Hn; lia) x eq_refl) as [IH1 [z IH2]].
           cbn [app universal_newlines]. rewrite ?bool_decide_true by done.
           cbn [app] in IH1. rewrite IH1. split; [done|].
           exists (LF :: z). by rewrite IH2.
        -- destruct (IH (length (d :: x)) ltac:(simpl in *; lia) (d :: x) eq_refl)
             as [IH1 [z IH2]].
           cbn [app universal_newlines] in *. rewrite ?bool_decide_true by done.
           rewrite !(bool_decide_false (d = LF)) in * by done.
           rewrite IH1. split; [done|]. exists (LF :: z). by rewrite IH2.
    + destruct (IH (length x) ltac:(simpl in Hn; lia) x eq_refl) as [IH1 [z IH2]].
      cbn [app]. rewrite !universal_newlines_cons_plain by done.
      cbn [app] in IH1. rewrite IH1. split; [done|].
      exists (c :: z). by rewrite IH2.
Qed.

Lemma readlines_nonempty t : t ≠ [] → readlines t ≠ [].
Proof.
  destruct t as [|c t]; [done|]. intros _. simpl.
  case_bool_decide; [done|]. by destruct (readlines t).
Qed.

(** The lines of a text that ends with a line feed are read on their
    own. *)
Lemma readlines_app_LF z more :
  readlines ((z ++ [LF]) ++ more) = readlines (z ++ [LF]) ++ readlines more.
Proof.
  induction z as [|c z IH]; simpl.
  - by rewrite ?bool_decide_true.
  - case_bool_decide; [by rewrite IH|]. rewrite IH.
    pose proof (readlines_nonempty (z ++ [LF])) as Hne.
    destruct (readlines (z ++ [LF])); [|done].
    exfalso. apply Hne; [|done]. by destruct z.
Qed.

(** A text with no line terminator is read as one line. *)
Lemma readlines_unterminated a :
  a ≠ [] → Forall (fun c => c ≠ LF) a → readlines a = [a].
Proof.
  intros Hne Ha. induction Ha as [|c a Hc Ha IH]; [done|]. simpl.
  rewrite bool_decide_false by done.
  destruct a as [|d a]; [done|]. by rewrite IH.
Qed.

Lemma calls_for_app hs path l1 l2 :
  calls_for hs path (l1 ++ l2) = calls_for hs path l1 ++ calls_for hs path l2.
Proof. unfold calls_for. apply bind_app. Qed.

Lemma new_position_idemp fs path last :
  new_position fs path (new_position fs path last) = new_position fs path last.
Proof. unfold new_position. destruct (fs !! path) as [[content|]|]; lia. Qed.

Lemma file_calls_new_position fs hs path last :
  file_calls fs hs path (new_position fs path last) = [].
Proof.
  unfold file_calls, new_position. destruct (fs !! path) as [[content|]|]; try done.
  rewrite bool_decide_false; [done | lia].
Qed.

Lemma file_calls_settled fs hs (m : gmap string nat) (items : list (string * nat)) :
  (∀ p n, m !! p = Some n → new_position fs p n = n) →
  Forall (fun item => m !! item.1 = Some item.2) items →
  (item ← items; file_calls fs hs item.1 item.2) = [].
Proof.
  intros Hfix Hall. induction Hall as [|[p n] items Hp _ IH]; [done|].
  cbn [mbind list_bind fst snd] in *.
  rewrite <- (Hfix p n Hp), file_calls_new_position. exact IH.
Qed.
End WatcherSequenceFacts.

(** X12.  When a watched file is polled, appended to, and polled again,
    and its content at the first poll ended with a line feed, the two
    polls together make the invocations that one poll of the final
    content makes: no line is lost and none is delivered twice. *)
Theorem watcher_polls_compose {W} (fs1 fs2 : gmap string FS.Node)
    (hs : list (FileWatcher.Handler W)) (path c1 c2 : string)
    (body more : text) (last : nat) :
  fs1 !! path = Some (FS.File c1) →
  fs2 !! path = Some (FS.File c2) →
  Text.chars c1 = body ++ [FileWatcher.LF] →
  Text.chars c2 = Text.chars c1 ++ more →
  file_calls fs2 hs path last
  = file_calls fs1 hs path last
    ++ file_calls fs2 hs path (new_position fs1 path last).
Proof.
  intros Hfs1 Hfs2 Hc1 Hc2. unfold new_position. rewrite Hfs1.
  assert (String.length c1 = length body + 1) as Hl1.
  { rewrite <- length_chars, Hc1, length_app. simpl. lia. }
  assert (String.length c2 = length body + 1 + length more) as Hl2.
  { rewrite <- length_chars, Hc2, Hc1, !length_app. simpl. lia. }
  unfold file_calls at 2. rewrite Hfs1. case_bool_decide as Hlast.
  - rewrite Nat.max_r by lia. unfold file_calls. rewrite Hfs2.
    rewrite bool_decide_true by lia.
    assert (calls_for hs path (FileWatcher.new_lines c2 (String.length c1))
            = if bool_decide (String.length c1 < String.length c2)
              then calls_for hs path (FileWatcher.new_lines c2 (String.length c1))
              else []) as <-.
    { case_bool_decide as Hgrow; [done|].
      assert (more = []) as -> by (apply nil_length_inv; lia).
      unfold FileWatcher.new_lines. rewrite Hc2, app_nil_r, <- length_chars.
      by rewrite drop_all. }
    rewrite <- calls_for_app. f_equal. unfold FileWatcher.new_lines.
    rewrite Hc2, <- length_chars, drop_app_length.
    rewrite drop_app_le by (rewrite length_chars; lia).
    rewrite Hc1, drop_app_le by lia.
    destruct (universal_newlines_app_LF (drop last body) more) as [-> [z ->]].
    apply readlines_app_LF.
  - by rewrite Nat.max_l by lia.
Qed.

Lemma watcher_polls_compose_witness :
  let fs1 : gmap string FS.Node := {["app.log" := FS.File (line_of "one")]} in
  let fs2 : gmap string FS.Node :=
    {["app.log" := FS.File (line_of "one" +:+ line_of "two")]} in
  file_calls fs2 [recorder] "app.log" 0
  = file_calls fs1 [recorder] "app.log" 0 ++ file_calls fs2 [recorder] "app.log" 4.
Proof.
  intros fs1 fs2.
  apply (watcher_polls_compose fs1 fs2 [recorder] "app.log"
           (line_of "one") (line_of "one" +:+ line_of "two")
           (Text.chars "one") (Text.chars (line_of "two")) 0).
  - reflexivity.
  - reflexivity.
  - reflexivity.
  - reflexivity.
Defined.

(** X13.  A line that is still being written when the loop reads it is
    delivered in two pieces: the part [a] present at the first poll is
    read as a line of its own, the recorded offset moves past it, and
    the next poll delivers the rest [b] as another line; the line
    [a ++ b] as a whole is what one poll of the finished file would
    have delivered. *)
Theorem watcher_splits_unterminated_line {W} (fs1 fs2 : gmap string FS.Node)
    (hs : list (FileWatcher.Handler W)) (path c1 c2 : string) (old a b : text) :
  fs1 !! path = Some (FS.File c1) →
  fs2 !! path = Some (FS.File c2) →
  Text.chars c1 = old ++ a →
  Text.chars c2 = old ++ a ++ b ++ [FileWatcher.LF] →
  a ≠ [] →
  Forall (fun c => c ≠ FileWatcher.LF ∧ c ≠ FileWatcher.CR) (a ++ b) →
  file_calls fs1 hs path (length old) = calls_for hs path [a] ∧
  new_position fs1 path (length old) = length (old ++ a) ∧
  file_calls fs2 hs path (length (old ++ a)) = calls_for hs path [b ++ [FileWatcher.LF]] ∧
  file_calls fs2 hs path (length old)
  = calls_for hs path [a ++ b ++ [FileWatcher.LF]].
Proof.
  intros Hfs1 Hfs2 Hc1 Hc2 Ha Hab.
  apply Forall_app in Hab as Hab'. destruct Hab' as [Hfa Hfb].
  assert (String.length c1 = length old + length a) as Hl1.
  { by rewrite <- length_chars, Hc1, length_app. }
  assert (String.length c2 = length old + length a + length b + 1) as Hl2.
  { rewrite <- length_chars, Hc2, !length_app. simpl. lia. }
  assert (0 < length a) as Hla by (destruct a; [done | simpl; lia]).
  split; [|split; [|split]].
  - unfold file_calls. rewrite Hfs1, bool_decide_true by lia. f_equal.
    unfold FileWatcher.new_lines. rewrite Hc1, drop_app_length.
    rewrite universal_newlines_plain.
    + apply readlines_unterminated; [done|].
      eapply Forall_impl; [exact Hfa|]. by intros c [? _].
    + eapply Forall_impl; [exact Hfa|]. by intros c [_ ?].
  - unfold new_position. rewrite Hfs1, length_app. lia.
  - unfold file_calls. rewrite Hfs2, bool_decide_true by (rewrite length_app; lia).
    f_equal. apply new_lines_appended; [|done]. by rewrite Hc2, <- app_assoc.
  - unfold file_calls. rewrite Hfs2, bool_decide_true by lia.
    f_equal. rewrite (app_assoc a b). apply new_lines_appended; [|done].
    by rewrite Hc2, <- !app_assoc.
Qed.

Lemma watcher_splits_unterminated_line_witness :
  let fs1 : gmap string FS.Node := {["app.log" := FS.File "payment fai"]} in
  let fs2 : gmap string FS.Node := {["app.log" := FS.File (line_of "payment failed")]} in
  file_calls fs1 [recorder] "app.log" 0 = [(recorder, "app.log", "payment fai")] ∧
  file_calls fs2 [recorder] "app.log" 11 = [(recorder, "app.log", "led")].
Proof.
  intros fs1 fs2.
  destruct (watcher_splits_unterminated_line fs1 fs2 [recorder] "app.log"
              "payment fai" (line_of "payment failed")
              [] (Text.chars "payment fai") (Text.chars "led"))
    as (H1 & _ & H2 & _).
  - reflexivity.
  - reflexivity.
  - reflexivity.
  - reflexivity.
  - discriminate.
  - repeat constructor; discriminate.
  - split; [exact H1 | exact H2].
Defined.

(** X14.  An iteration of the loop that follows another one on an
    unchanged file system changes nothing: the recorded offsets and the
    state of the handlers stay as they are and no handler is invoked.
    All it leaves is, again, the error of every watched path that is a
    directory. *)
Theorem poll_again_delivers_nothing {W} (fs : gmap string FS.Node)
    (w : FileWatcher.t W) (world0 : W) :
  let '(w1, world1, _) := FileWatcher.poll fs w world0 in
  let '(w2, world2, evs2) := FileWatcher.poll fs w1 world1 in
  w2 = w1 ∧ world2 = world1 ∧
  Forall (fun e => ∃ p, e = FileWatcher.EvError p ∧ FS.isdir fs p = true) evs2.
Proof.
  pose proof (poll_spec fs w world0) as H1.
  destruct (FileWatcher.poll fs w world0) as [[w1 world1] evs1].
  destruct H1 as (Hpos1 & Hhs1 & Hrun1 & _ & _).
  pose proof (poll_spec fs w1 world1) as H2.
  destruct (FileWatcher.poll fs w1 world1) as [[w2 world2] evs2].
  destruct H2 as (Hpos2 & Hhs2 & Hrun2 & Hworld & Hevs).
  assert (∀ p n, FileWatcher.watched_files w1 !! p = Some n →
                 new_position fs p n = n) as Hfix.
  { intros p n Hp. rewrite Hpos1 in Hp.
    destruct (FileWatcher.watched_files w !! p) as [n0|]; [|done].
    injection Hp as <-. apply new_position_idemp. }
  split; [|split].
  - destruct w1 as [m1 hs1 r1], w2 as [m2 hs2 r2]. simpl in *. f_equal; [|done..].
    apply map_eq. intros p. rewrite Hpos2.
    destruct (m1 !! p) as [n|] eqn:Hp; [|done]. simpl. f_equal. by apply Hfix.
  - rewrite Hworld.
    rewrite (file_calls_settled fs _ (FileWatcher.watched_files w1)); [done..|].
    apply Forall_forall. intros [p n] Hin. by apply elem_of_map_to_list.
  - eapply Forall_impl; [exact Hevs|]. intros [p off n|p]; simpl.
    + intros (Hin & Hn & content & Hfs & Hlen).
      apply elem_of_map_to_list in Hin. apply Hfix in Hin.
      unfold new_position in Hin. rewrite Hfs in Hin. lia.
    + intros Hdir. by exists p.
Qed.

(** ** Rotation of the log file *)
Section RotationFacts.
Import FileStorage.
Implicit Types (b : gmap nat (list FileLine)).

Lemma shift_backup_lookup b i j :
  shift_backup b i !! j
  = if decide (j = i) then None
    else if decide (j = S i)
         then match b !! i with Some c => Some c | None => b !! S i end
         else b !! j.
Proof.
  unfold shift_backup. destruct (b !! i) as [c|] eqn:Hi.
  - destruct (decide (j = i)) as [->|Hji].
    + rewrite lookup_insert_ne by lia. by rewrite lookup_delete_eq.
    + destruct (decide (j = S i)) as [->|HjS].
      * by rewrite lookup_insert_eq.
      * rewrite lookup_insert_ne by done. by rewrite lookup_delete_ne.
  - destruct (decide (j = i)) as [->|Hji]; [done|].
    by destruct (decide (j = S i)) as [->|HjS].
Qed.

(** The loop of [_rotate] over [range(n, 0, -1)]. *)
Lemma shift_range b n :
  let b' := foldl shift_backup b (reverse (seq 1 n)) in
  (1 ≤ n → b' !! 1 = None) ∧
  (∀ j, 2 ≤ j ≤ n → b' !! j = b !! (j - 1)) ∧
  (1 ≤ n → b' !! S n = match b !! n with Some c => Some c | None => b !! S n end) ∧
  (∀ j, S n < j → b' !! j = b !! j) ∧
  b' !! 0 = b !! 0.
Proof.
  revert b. induction n as [|n IH]; intros b.
  - simpl. repeat split; intros; lia.
  - cbv zeta. rewrite seq_S, reverse_app, reverse_singleton, foldl_app.
    cbn [foldl]. change (1 + n) with (S n).
    destruct (IH (shift_backup b (S n))) as (IH1 & IH2 & IH3 & IH4 & IH0).
    set (b' := foldl _ _ _) in *.
    split; [|split; [|split; [|split]]].
    + intros _. destruct n as [|n].
      * unfold b'. simpl. rewrite shift_backup_lookup. by rewrite decide_True.
      * by apply IH1; lia.
    + intros j Hj. destruct (decide (j = S n)) as [->|Hjn].
      * rewrite IH3 by lia. rewrite !shift_backup_lookup.
        rewrite decide_False by lia. rewrite decide_False by lia.
        rewrite decide_True by done. simpl. rewrite Nat.sub_0_r.
        by destruct (b !! n).
      * rewrite IH2 by lia. rewrite shift_backup_lookup.
        rewrite decide_False by lia. by rewrite decide_False by lia.
    + intros _. rewrite IH4 by lia. rewrite shift_backup_lookup.
      rewrite decide_False by lia. by rewrite decide_True.
    + intros j Hj. rewrite IH4 by lia. rewrite shift_backup_lookup.
      rewrite decide_False by lia. by rewrite decide_False by lia.
    + rewrite IH0, shift_backup_lookup.
      rewrite decide_False by lia. by rewrite decide_False by lia.
Qed.
End RotationFacts.

(** X15.  [_rotate] moves the log file to the backup [.1] and every
    backup [.i] below [backup_count] to [.(i+1)], from the highest
    one down; the content of the last backup, [.backup_count], is
    dropped when the one before it exists, and kept when it does not.
    Backups numbered above [backup_count] are left alone, and with a
    [backup_count] of at most 1 the log file replaces the backup [.1]. *)
Theorem rotate_shifts_backups (s : FileStorage.t) (lines : list FileStorage.FileLine) :
  FileStorage.primary s = Some lines →
  let n := Z.to_nat (FileStorage.backup_count s - 1) in
  let old := FileStorage.backups s in
  let new := FileStorage.backups (FileStorage.rotate s) in
  FileStorage.primary (FileStorage.rotate s) = None ∧
  new !! 1 = Some lines ∧
  (∀ j, 2 ≤ j ≤ n → new !! j = old !! (j - 1)) ∧
  (1 ≤ n → new !! S n = match old !! n with Some c => Some c | None => old !! S n end) ∧
  (∀ j, S n < j → new !! j = old !! j) ∧
  new !! 0 = old !! 0.
Proof.
  intros Hp n old new. unfold new, FileStorage.rotate, FileStorage.rotate_range.
  rewrite Hp. simpl.
  destruct (shift_range old n) as (H1 & H2 & H3 & H4 & H0).
  fold n. fold old. set (b' := foldl _ _ _) in *.
  split; [done|]. split; [by rewrite lookup_insert_eq|].
  split; [|split; [|split]].
  - intros j Hj. rewrite lookup_insert_ne by lia. by apply H2.
  - intros Hn. rewrite lookup_insert_ne by lia. by apply H3.
  - intros j Hj. destruct (decide (j = 1)) as [->|]; [lia|].
    rewrite lookup_insert_ne by done. by apply H4.
  - by rewrite lookup_insert_ne.
Qed.

Lemma rotate_shifts_backups_witness :
  let a := [FileStorage.Json (plain_entry "INFO" "a")] in
  let b := [FileStorage.Json (plain_entry "INFO" "b")] in
  let c := [FileStorage.Json (plain_entry "INFO" "c")] in
  let d := [FileStorage.Json (plain_entry "INFO" "d")] in
  FileStorage.backups
    (FileStorage.rotate (FileStorage.mk 10 3 (Some d) {[1 := c; 2 := b; 3 := a]} true))
  !! 3 = Some b.
Proof.
  intros a b c d.
  destruct (rotate_shifts_backups
              (FileStorage.mk 10 3 (Some d) {[1 := c; 2 := b; 3 := a]} true) d)
    as (_ & _ & _ & H3 & _).
  - reflexivity.
  - apply H3. simpl. lia.
Defined.

Section ArchiveFacts.
Import FileStorage.
Variable json_size : LogEntry → nat.



End ArchiveFacts.


(** ** Regular expressions: matching by derivatives is matching *)
Section RegexFacts.
Import Text.

Lemma lang_Empty t : lang Empty t ↔ False.
Proof. split; [inversion 1 | done]. Qed.

Lemma lang_Eps t : lang Eps t ↔ t = [].
Proof. split; [by inversion 1 | intros ->; constructor]. Qed.

Lemma lang_Chr p t : lang (Chr p) t ↔ ∃ c, t = [c] ∧ p c = true.
Proof.
  split.
  - inversion 1; subst. eauto.
  - intros (c & -> & Hc). by constructor.
Qed.

Lemma lang_Seq r1 r2 t :
  lang (Seq r1 r2) t ↔ ∃ t1 t2, t = t1 ++ t2 ∧ lang r1 t1 ∧ lang r2 t2.
Proof.
  split.
  - inversion 1; subst. eauto.
  - intros (t1 & t2 & -> & H1 & H2). by constructor.
Qed.

Lemma lang_Alt r1 r2 t : lang (Alt r1 r2) t ↔ lang r1 t ∨ lang r2 t.
Proof.
  split.
  - inversion 1; subst; eauto.
  - intros [H|H]; [by apply lang_alt_l | by apply lang_alt_r].
Qed.

(** A non-empty word of [Star r] starts with a non-empty word of [r]. *)
Lemma lang_Star_cons r c t :
  lang (Star r) (c :: t) ↔
  ∃ t1 t2, t = t1 ++ t2 ∧ lang r (c :: t1) ∧ lang (Star r) t2.
Proof.
  split.
  - intros H. remember (Star r) as r' eqn:Hr. remember (c :: t) as t' eqn:Ht.
    induction H as [| | | | | |r0 t1 t2 H1 _ H2 IH2]; try done.
    injection Hr as ->. destruct t1 as [|d t1].
    + by apply IH2.
    + injection Ht as -> <-. eauto.
  - intros (t1 & t2 & -> & H1 & H2).
    by apply (lang_star_cons r (c :: t1) t2).
Qed.

Lemma nullable_lang r : nullable r = true ↔ lang r [].
Proof.
  induction r as [| |p|r1 IH1 r2 IH2|r1 IH1 r2 IH2|r IH]; simpl.
  - by rewrite lang_Empty.
  - by rewrite lang_Eps.
  - rewrite lang_Chr. split; [done | by intros (c & ? & _)].
  - rewrite andb_true_iff, IH1, IH2, lang_Seq. split.
    + intros [H1 H2]. by exists [], [].
    + intros (t1 & t2 & Heq & H1 & H2). symmetry in Heq.
      apply app_eq_nil in Heq as [-> ->]. done.
  - by rewrite orb_true_iff, IH1, IH2, lang_Alt.
  - split; [constructor | done].
Qed.

Lemma lang_seq' r1 r2 t : lang (seq' r1 r2) t ↔ lang (Seq r1 r2) t.
Proof.
  assert (∀ r, lang (Seq Empty r) t ↔ False) as HE1.
  { intros r. rewrite lang_Seq. split; [|done].
    by intros (t1 & t2 & _ & H1%lang_Empty & _). }
  assert (∀ r, lang (Seq r Empty) t ↔ False) as HE2.
  { intros r. rewrite lang_Seq. split; [|done].
    by intros (t1 & t2 & _ & _ & H2%lang_Empty). }
  assert (∀ r, lang (Seq Eps r) t ↔ lang r t) as HEps.
  { intros r. rewrite lang_Seq. split.
    - by intros (t1 & t2 & -> & ->%lang_Eps & H2).
    - intros H. exists [], t. split; [done|]. split; [constructor | done]. }
  destruct r1, r2; simpl; rewrite ?HE1, ?HE2, ?HEps, ?lang_Empty; done.
Qed.

Lemma lang_alt' r1 r2 t : lang (alt' r1 r2) t ↔ lang (Alt r1 r2) t.
Proof.
  rewrite lang_Alt.
  destruct r1, r2; simpl; rewrite ?lang_Alt, ?lang_Empty; tauto.
Qed.

Lemma lang_deriv c r t : lang (deriv c r) t ↔ lang r (c :: t).
Proof.
  revert t. induction r as [| |p|r1 IH1 r2 IH2|r1 IH1 r2 IH2|r IH]; intros t; simpl.
  - by rewrite !lang_Empty.
  - rewrite lang_Empty, lang_Eps. done.
  - rewrite lang_Chr. destruct (p c) eqn:Hp.
    + rewrite lang_Eps. split.
      * intros ->. eauto.
      * by intros (d & [= -> ->] & _).
    + rewrite lang_Empty. split; [done|]. intros (d & [= -> ->] & Hd). congruence.
  - assert (lang (seq' (deriv c r1) r2) t ↔
            ∃ t1 t2, t = t1 ++ t2 ∧ lang r1 (c :: t1) ∧ lang r2 t2) as Hseq.
    { rewrite lang_seq', lang_Seq. by setoid_rewrite IH1. }
    rewrite (lang_Seq r1 r2). destruct (nullable r1) eqn:Hn.
    + rewrite lang_alt', lang_Alt, Hseq, IH2. split.
      * intros [(t1 & t2 & -> & H1 & H2)|H2].
        -- by exists (c :: t1), t2.
        -- exists [], (c :: t). split; [done|]. split; [|done].
           by apply nullable_lang.
      * intros (t1 & t2 & Heq & H1 & H2). destruct t1 as [|d t1].
        -- right. simpl in Heq. by subst.
        -- injection Heq as <- ->. left. eauto.
    + rewrite Hseq. split.
      * intros (t1 & t2 & -> & H1 & H2). by exists (c :: t1), t2.
      * intros (t1 & t2 & Heq & H1 & H2). destruct t1 as [|d t1].
        -- apply nullable_lang in H1. congruence.
        -- injection Heq as <- ->. eauto.
  - by rewrite lang_alt', !lang_Alt, IH1, IH2.
  - rewrite lang_seq', lang_Seq, lang_Star_cons. by setoid_rewrite IH.
Qed.

Lemma fullmatch_lang r t : fullmatch r t = true ↔ lang r t.
Proof.
  unfold fullmatch. revert r. induction t as [|c t IH]; intros r; simpl.
  - apply nullable_lang.
  - by rewrite IH, lang_deriv.
Qed.

Lemma lang_star_any t : lang (Star any) t.
Proof.
  induction t as [|c t IH]; [constructor|].
  apply (lang_star_cons any [c] t); [by constructor | done].
Qed.

(** [re.search] finds a match exactly when some substring is in the
    language of the pattern. *)
Lemma found_lang r t :
  found r t = true ↔ ∃ pre m post, t = pre ++ m ++ post ∧ lang r m.
Proof.
  unfold found. rewrite fullmatch_lang, lang_Seq. split.
  - intros (pre & rest & -> & _ & (m & post & -> & Hm & _)%lang_Seq). eauto.
  - intros (pre & m & post & -> & Hm). exists pre, (m ++ post).
    split; [done|]. split; [apply lang_star_any|].
    apply lang_Seq. exists m, post. split; [done|]. split; [done|].
    apply lang_star_any.
Qed.

Lemma lang_alts rs t : lang (alts rs) t ↔ ∃ r, r ∈ rs ∧ lang r t.
Proof.
  induction rs as [|r rs IH]; simpl.
  - rewrite lang_Empty. split; [done|]. by intros (r & ?%elem_of_nil & _).
  - rewrite lang_Alt, IH. split.
    + intros [H|(r' & Hin & H)]; [exists r; split; [by left|done]|].
      exists r'. split; [by right | done].
    + intros (r' & [->|Hin]%elem_of_cons & H); [by left|]. right. eauto.
Qed.

(** A literal matched with [re.I]: the same text, letter case apart. *)
Lemma lang_lit_ci s m : lang (lit_ci s) m ↔ lower m = lower (chars s).
Proof.
  unfold lit_ci. generalize (chars s). intros l. revert m.
  induction l as [|c l IH]; intros m; simpl.
  - rewrite lang_Eps. split; [by intros -> | by destruct m].
  - rewrite lang_Seq. split.
    + intros (t1 & t2 & -> & (d & -> & Hd)%lang_Chr & H2%IH).
      apply bool_decide_eq_true in Hd. simpl. unfold lower in *. simpl.
      by rewrite Hd, H2.
    + destruct m as [|d m]; [done|]. unfold lower. simpl. intros [= Hd Hm].
      exists [d], m. split; [done|]. split.
      * apply lang_Chr. exists d. split; [done|]. by apply bool_decide_eq_true.
      * by apply IH.
Qed.

(** A match of a literal with [re.I] somewhere in the message. *)
Lemma found_lit_ci s msg :
  (∃ pre m post, chars msg = pre ++ m ++ post ∧ lang (lit_ci s) m) ↔
  substring_ci s msg.
Proof.
  unfold substring_ci, substring. setoid_rewrite lang_lit_ci. split.
  - intros (pre & m & post & -> & Hm). exists (lower pre), (lower post).
    unfold lower in *. by rewrite !fmap_app, Hm.
  - intros (pre & post & Heq). unfold lower in Heq.
    apply fmap_app_inv in Heq as (pre' & rest & -> & Hrest & ->).
    symmetry in Hrest.
    apply fmap_app_inv in Hrest as (m & post' & Hm & -> & ->).
    exists pre', m, post'. split; [done|]. unfold lower. by rewrite Hm.
Qed.

Lemma found_alts_lit_ci (words : list string) msg :
  found (alts (lit_ci <$> words)) (chars msg) = true ↔
  ∃ w, w ∈ words ∧ substring_ci w msg.
Proof.
  rewrite found_lang. split.
  - intros (pre & m & post & Heq & (r & (w & -> & Hw)%list_elem_of_fmap & Hm)%lang_alts).
    exists w. split; [done|]. apply found_lit_ci. eauto.
  - intros (w & Hw & (pre & m & post & Heq & Hm)%found_lit_ci).
    exists pre, m, post. split; [done|]. apply lang_alts.
    exists (lit_ci w). split; [|done]. apply list_elem_of_fmap. eauto.
Qed.
End RegexFacts.

(** ** What the detector and the severity processor look for *)
Section KeywordFacts.
Import Text.

Lemma elem_of_detect name msg :
  name ∈ PatternDetector.detect msg ↔
  ∃ test, (name, test) ∈ PatternDetector.PATTERNS ∧ test (chars msg) = true.
Proof.
  unfold PatternDetector.detect. rewrite list_elem_of_fmap. split.
  - intros ([n test] & -> & [Ht Hin]%list_elem_of_filter). simpl in *.
    exists test. split; [done|]. by apply Is_true_true.
  - intros (test & Hin & Ht). exists (name, test). split; [done|].
    apply list_elem_of_filter. split; [|done]. simpl. by apply Is_true_true.
Qed.

Lemma found_words (words : list string) msg :
  found (alts (lit_ci <$> words)) (chars msg) = true ↔ mentions words msg.
Proof. apply found_alts_lit_ci. Qed.

Lemma has_any_spec (words : list string) msg :
  Forall (fun w => lower (chars w) = chars w) words →
  SeverityProcessor.has_any words (lower (chars msg)) = true ↔ mentions words msg.
Proof.
  intros Hlow. unfold SeverityProcessor.has_any, mentions, substring_ci.
  rewrite existsb_exists. rewrite Forall_forall in Hlow. split.
  - intros (w & Hin%list_elem_of_In & Hc%contains_spec).
    exists w. split; [done|]. by rewrite Hlow.
  - intros (w & Hin & Hsub). exists w. split; [by apply list_elem_of_In|].
    apply contains_spec. by rewrite <- Hlow.
Qed.

(** A word that holds another one is found wherever that one is. *)
Lemma substring_ci_longer (w1 w2 rest msg : string) :
  lower (chars w2) = lower (chars w1) ++ chars rest →
  substring_ci w2 msg → substring_ci w1 msg.
Proof.
  unfold substring_ci, substring. intros -> (pre & post & ->).
  exists pre, (chars rest ++ post). by rewrite <- !app_assoc.
Qed.
End KeywordFacts.


(** X18.  The severity processor classifies by the first group of
    words of which the message holds one, ASCII letter case apart:
    CRITICAL before HIGH before MEDIUM, and no result when it holds
    none.  For a message of ASCII characters, on which [re.I] and
    [str.lower] fold the same letters, a message that the detector tags
    with [error] has the severity HIGH or CRITICAL, and one that it
    tags with [warning] has a severity. *)
Theorem severity_classification (msg : string) :
  let critical := mentions ["critical"; "fatal"; "emergency"] msg in
  let high := mentions ["error"; "fail"; "exception"] msg in
  let medium := mentions ["warn"; "warning"; "caution"] msg in
  (SeverityProcessor.severity_of msg = Some "CRITICAL" ↔ critical) ∧
  (SeverityProcessor.severity_of msg = Some "HIGH" ↔ ¬ critical ∧ high) ∧
  (SeverityProcessor.severity_of msg = Some "MEDIUM" ↔
   ¬ critical ∧ ¬ high ∧ medium) ∧
  (SeverityProcessor.severity_of msg = None ↔ ¬ critical ∧ ¬ high ∧ ¬ medium) ∧
  (ascii_only msg →
   "error" ∈ PatternDetector.detect msg →
   SeverityProcessor.severity_of msg = Some "CRITICAL" ∨
   SeverityProcessor.severity_of msg = Some "HIGH") ∧
  (ascii_only msg →
   "warning" ∈ PatternDetector.detect msg →
   SeverityProcessor.severity_of msg ≠ None).
Proof.
  intros critical high medium.
  assert (SeverityProcessor.has_any ["critical"; "fatal"; "emergency"]
            (Text.lower (Text.chars msg)) = true ↔ critical) as Hc.
  { apply has_any_spec. by repeat constructor. }
  assert (SeverityProcessor.has_any ["error"; "fail"; "exception"]
            (Text.lower (Text.chars msg)) = true ↔ high) as Hh.
  { apply has_any_spec. by repeat constructor. }
  assert (SeverityProcessor.has_any ["warn"; "warning"; "caution"]
            (Text.lower (Text.chars msg)) = true ↔ medium) as Hm.
  { apply has_any_spec. by repeat constructor. }
  assert ("error" ∈ PatternDetector.detect msg → high) as Herr.
  { rewrite elem_of_detect. intros (test & Hin & Ht).
    unfold PatternDetector.PATTERNS in Hin.
    repeat (apply elem_of_cons in Hin as [Hin|Hin]); try discriminate;
      [|by apply elem_of_nil in Hin].
    injection Hin as ->.
    apply (found_words ["error"; "exception"; "failed"]) in Ht as (w & Hw & Hsub).
    repeat (apply elem_of_cons in Hw as [->|Hw]); [| | |by apply elem_of_nil in Hw].
    - exists "error". split; [by left | done].
    - exists "exception". split; [do 2 right; by left | done].
    - exists "fail". split; [right; by left|].
      by apply (substring_ci_longer "fail" "failed" "ed"). }
  assert ("warning" ∈ PatternDetector.detect msg → medium) as Hwarn.
  { rewrite elem_of_detect. intros (test & Hin & Ht).
    unfold PatternDetector.PATTERNS in Hin.
    repeat (apply elem_of_cons in Hin as [Hin|Hin]); try discriminate;
      [|by apply elem_of_nil in Hin].
    injection Hin as ->.
    apply (found_words ["warning"; "warn"; "caution"]) in Ht as (w & Hw & Hsub).
    exists w. split; [|done].
    repeat (apply elem_of_cons in Hw as [->|Hw]);
      [right; by left | by left | do 2 right; by left | by apply elem_of_nil in Hw]. }
  unfold SeverityProcessor.severity_of. cbv zeta.
  destruct (SeverityProcessor.has_any ["critical"; "fatal"; "emergency"] _) eqn:H1;
    [|destruct (SeverityProcessor.has_any ["error"; "fail"; "exception"] _) eqn:H2;
      [|destruct (SeverityProcessor.has_any ["warn"; "warning"; "caution"] _) eqn:H3]].
  - assert critical as Hyes by (by apply Hc).
    repeat split; try done; try tauto; intros; by left.
  - assert (¬ critical) as Hno by (rewrite <- Hc; congruence).
    assert high as Hyes by (by apply Hh).
    repeat split; try done; try tauto; intros; by right.
  - assert (¬ critical) as Hno by (rewrite <- Hc; congruence).
    assert (¬ high) as Hno2 by (rewrite <- Hh; congruence).
    assert medium as Hyes by (by apply Hm).
    repeat split; try done; tauto.
  - assert (¬ critical) as Hno by (rewrite <- Hc; congruence).
    assert (¬ high) as Hno2 by (rewrite <- Hh; congruence).
    assert (¬ medium) as Hno3 by (rewrite <- Hm; congruence).
    repeat split; try done; tauto.
Qed.

Lemma severity_classification_witness :
  SeverityProcessor.severity_of "Payment FAILED" = Some "CRITICAL" ∨
  SeverityProcessor.severity_of "Payment FAILED" = Some "HIGH".
Proof.
  apply (proj1 (proj2 (proj2 (proj2 (proj2
           (severity_classification "Payment FAILED")))))).
  - apply (bool_decide_unpack _). by vm_compute.
  - apply (bool_decide_unpack _). by vm_compute.
Defined.

(** ** From a call or an appended line to [get_logs] *)
Section EndToEndFacts.
Variable json_size : LogEntry → nat.

Lemma apply_result_fields result entry :
  message (MeowLogger.apply_result result entry) = message entry ∧
  file_path (MeowLogger.apply_result result entry) = file_path entry ∧
  timestamp (MeowLogger.apply_result result entry) = timestamp entry.
Proof.
  unfold MeowLogger.apply_result.
  destruct (r_level result), (r_patterns result); try case_bool_decide; done.
Qed.

Lemma run_processors_fields ps entry :
  message (MeowLogger.run_processors ps entry) = message entry ∧
  file_path (MeowLogger.run_processors ps entry) = file_path entry ∧
  timestamp (MeowLogger.run_processors ps entry) = timestamp entry.
Proof.
  revert entry. unfold MeowLogger.run_processors.
  induction ps as [|p ps IH]; intros entry; simpl; [done|].
  destruct (p entry) as [result|]; [|by apply IH].
  destruct (IH (MeowLogger.apply_result result entry)) as (-> & -> & ->).
  apply apply_result_fields.
Qed.

Lemma deque_append_reverse maxlen d x :
  0 < maxlen → ∃ rest, reverse (MemoryStorage.deque_append maxlen d x) = x :: rest.
Proof.
  intros Hmax. unfold MemoryStorage.deque_append. simpl.
  case_bool_decide as Hfull.
  - destruct d as [|y d]; [simpl in Hfull; lia|]. simpl. rewrite drop_0.
    rewrite reverse_snoc. eauto.
  - rewrite reverse_snoc. eauto.
Qed.

(** The entry stored last is the first one that [retrieve] returns,
    when the filters accept it. *)
Lemma stored_entry_first (filters : gmap string Value) limit
    (b : MeowLogger.Backend) e :
  accepting b → text_search filters → (1 ≤ limit)%Z → keeps filters e = true →
  ∃ rest, @retrieve _ (MeowLogger.Backend_LogStorage json_size) filters limit
            (@store _ (MeowLogger.Backend_LogStorage json_size) e b)
          = inr (e :: rest).
Proof.
  intros Hb Htext Hlimit He.
  assert (∀ l, ∃ rest,
            take (Z.to_nat limit)
              (filter (fun e => Is_true (keeps filters e)) (e :: l)) = e :: rest)
    as Hhead.
  { intros l. rewrite filter_cons, decide_True by (by rewrite He).
    destruct (Z.to_nat limit) as [|k] eqn:Hk; [lia|]. simpl. eauto. }
  destruct b as [m|f]; simpl in *.
  - unfold MemoryStorage.retrieve, MemoryStorage.store. simpl.
    rewrite retrieve_loop_filtered by (done || simpl; lia). simpl.
    rewrite Nat.sub_0_r.
    destruct (deque_append_reverse (MemoryStorage.max_entries m)
                (MemoryStorage.entries m) e Hb) as [rest ->].
    destruct (Hhead rest) as [rest' ->]. eauto.
  - assert (∃ lines, FileStorage.primary (FileStorage.store json_size e f)
                     = Some (lines ++ [FileStorage.Json e])) as [lines Hp].
    { destruct f as [ms bc [lines|] bk w]; simpl in Hb; subst w;
        unfold FileStorage.store, FileStorage.rotate; simpl;
        try case_bool_decide; simpl; (by exists []) || (by exists lines). }
    unfold FileStorage.retrieve. rewrite Hp. unfold FileStorage.retrieve_lines.
    rewrite scan_filtered by (simpl; lia). simpl. rewrite Nat.sub_0_r.
    rewrite tail_window_positive by done. rewrite reverse_last_n, reverse_snoc.
    destruct (Z.to_nat (2 * limit)) as [|k] eqn:Hk; [lia|]. simpl.
    unfold decoded in Hhead. unfold decoded. simpl.
    destruct (Hhead (omap FileStorage.decode (take k (reverse lines))))
      as [rest' ->].
    eauto.
Qed.
End EndToEndFacts.

(** X19.  [watch] on a file starts at its end: of a file that is then
    appended to, the next iteration of the loop reads the appended text
    only.  What the file held at the call is never delivered, also when
    the file was watched before and part of it was still unread. *)
Theorem watch_skips_existing_content {W} (fs fs' : gmap string FS.Node)
    (w : FileWatcher.t W) (path content content' : string) (more : text) :
  fs !! path = Some (FS.File content) →
  fs' !! path = Some (FS.File content') →
  Text.chars content' = Text.chars content ++ more →
  ∃ offset,
    FileWatcher.watched_files (FileWatcher.watch_file fs path w) !! path = Some offset ∧
    file_calls fs (FileWatcher.handlers w) path offset = [] ∧
    file_calls fs' (FileWatcher.handlers w) path offset
    = calls_for (FileWatcher.handlers w) path
        (FileWatcher.readlines (FileWatcher.universal_newlines more)).
Proof.
  intros Hfs Hfs' Hc. exists (String.length content).
  unfold FileWatcher.watch_file. rewrite Hfs. simpl.
  split; [by rewrite lookup_insert_eq|]. unfold file_calls. rewrite Hfs, Hfs'.
  split; [by rewrite bool_decide_false by lia|].
  assert (String.length content' = String.length content + length more) as Hlen.
  { by rewrite <- !length_chars, Hc, length_app. }
  case_bool_decide as Hgrow.
  - unfold FileWatcher.new_lines.
    by rewrite Hc, <- length_chars, drop_app_length.
  - assert (more = []) as -> by (apply nil_length_inv; lia). done.
Qed.

Lemma watch_skips_existing_content_witness :
  let fs : gmap string FS.Node := {["app.log" := FS.File (line_of "old")]} in
  let fs' : gmap string FS.Node :=
    {["app.log" := FS.File (line_of "old" +:+ line_of "new")]} in
  ∃ offset,
    FileWatcher.watched_files
      (FileWatcher.watch_file fs "app.log" (FileWatcher.mk ∅ [recorder] true))
    !! "app.log" = Some offset ∧
    file_calls fs [recorder] "app.log" offset = [] ∧
    file_calls fs' [recorder] "app.log" offset = [(recorder, "app.log", "new")].
Proof.
  intros fs fs'.
  exact (watch_skips_existing_content fs fs' (FileWatcher.mk ∅ [recorder] true)
           "app.log" (line_of "old") (line_of "old" +:+ line_of "new")
           (Text.chars (line_of "new")) eq_refl eq_refl eq_refl).
Defined.



(** X21.  A started logger that watches one file and whose backend
    takes records turns a line appended to the file into an entry: one
    iteration of the loop stores the entry that [get_logs] then returns
    first.  Its message is the line without the whitespace at its ends,
    its path is the one of the file, its time is the clock of the
    logger; the recorded offset moves to the end of the file and the
    total of the statistics grows by one. *)
Theorem appended_line_is_retrievable (json_size : LogEntry → nat)
    (fs : gmap string FS.Node) (l : MeowLogger.t) (path content : string)
    (old body : text) :
  own_handler json_size l →
  FileWatcher.running (MeowLogger.watcher l) = true →
  FileWatcher.watched_files (MeowLogger.watcher l) = {[path := length old]} →
  fs !! path = Some (FS.File content) →
  Text.chars content = old ++ body ++ [FileWatcher.LF] →
  Forall (fun c => c ≠ FileWatcher.LF ∧ c ≠ FileWatcher.CR) body →
  Text.strip body ≠ [] →
  accepting (MeowLogger.storage (MeowLogger.core l)) →
  let l' := MeowLogger.poll fs l in
  ∃ e rest,
    MeowLogger.get_logs json_size ∅ (MeowLogger.core l') = inr (e :: rest) ∧
    e = MeowLogger.run_processors (MeowLogger.processors (MeowLogger.core l))
          (mkEntry (MeowLogger.clock (MeowLogger.core l)) "INFO"
                   (Text.str (Text.strip body)) (Some path) None None) ∧
    message e = Text.str (Text.strip body) ∧
    file_path e = Some path ∧
    FileWatcher.watched_files (MeowLogger.watcher l')
    = {[path := String.length content]} ∧
    MeowLogger.total_logs (MeowLogger.stats (MeowLogger.core l'))
    = MeowLogger.total_logs (MeowLogger.stats (MeowLogger.core l)) + 1.
Proof.
  intros Hown Hrun Hwatched Hfs Hc Hbody Hstrip Hacc l'.
  assert (String.length content = length old + length body + 1) as Hlen.
  { rewrite <- length_chars, Hc, !length_app. simpl. lia. }
  assert (MeowLogger.core l'
          = MeowLogger._handle_new_line json_size path (Text.str (Text.strip body))
              (MeowLogger.core l) ∧
          FileWatcher.watched_files (MeowLogger.watcher l')
          = {[path := String.length content]}) as [Hcore Hoff].
  { unfold l', MeowLogger.poll. rewrite Hrun. unfold FileWatcher.poll.
    rewrite Hwatched, map_to_list_singleton. cbn [foldl].
    unfold FileWatcher.check_file. cbn [FileWatcher.files FileWatcher.world FileWatcher.log].
    rewrite Hfs. cbn [FS.node_size]. rewrite bool_decide_true by lia. simpl.
    rewrite (new_lines_appended content old body Hc Hbody). cbn [foldl].
    unfold FileWatcher.handle_line.
    rewrite strip_app_space by done. rewrite Hown.
    destruct (Text.strip body) as [|c t]; [done|]. simpl.
    split; [done|]. by rewrite insert_singleton_eq. }
  rewrite Hcore, Hoff.
  unfold MeowLogger._handle_new_line, MeowLogger._process_and_store.
  set (e0 := mkEntry _ _ _ _ _ _).
  destruct (run_processors_fields (MeowLogger.processors (MeowLogger.core l)) e0)
    as (Hm & Hf & _).
  destruct (stored_entry_first json_size ∅ 100 (MeowLogger.storage (MeowLogger.core l))
              (MeowLogger.run_processors (MeowLogger.processors (MeowLogger.core l)) e0))
    as [rest Hrest]; [done| |lia| |].
  { intros n. by rewrite active_empty. }
  { unfold keeps. by rewrite matches_filters_empty. }
  exists (MeowLogger.run_processors (MeowLogger.processors (MeowLogger.core l)) e0), rest.
  split; [exact Hrest|]. split; [done|]. split; [done|]. split; [done|].
  split; [done|]. simpl. lia.
Qed.

Lemma appended_line_is_retrievable_witness :
  let l := MeowLogger.mk
             (FileWatcher.mk {["app.log" := 4]} [MeowLogger._handle_new_line fixed_size] true)
             (MeowLogger.mkCore (MeowLogger.InMemory (MemoryStorage.init 10))
                [LogLevelParser.process; PatternDetector.process]
                (MeowLogger.mkStats 0 ∅ ∅ 0) 0) in
  let fs : gmap string FS.Node :=
    {["app.log" := FS.File (line_of "old" +:+ line_of "  [ERROR] disk full ")]} in
  ∃ e rest,
    MeowLogger.get_logs fixed_size ∅ (MeowLogger.core (MeowLogger.poll fs l))
    = inr (e :: rest) ∧
    message e = "[ERROR] disk full" ∧ file_path e = Some "app.log".
Proof.
  intros l fs.
  destruct (appended_line_is_retrievable fixed_size fs l "app.log"
              (line_of "old" +:+ line_of "  [ERROR] disk full ")
              (Text.chars (line_of "old")) (Text.chars "  [ERROR] disk full "))
    as (e & rest & Hget & _ & Hm & Hf & _).
  - reflexivity.
  - reflexivity.
  - reflexivity.
  - reflexivity.
  - reflexivity.
  - repeat constructor; discriminate.
  - by vm_compute.
  - unfold accepting. simpl. lia.
  - exists e, rest. split; [exact Hget|]. split; [exact Hm | exact Hf].
Defined.

(** X22.  The statistics count every entry that went through the
    pipeline, the storage holds the most recent ones only: after the
    entries [es] went through a logger that started with an empty
    memory storage of capacity [cap] and counters at zero, the total is
    the number of entries, the count of a level is the number of
    processed entries of that level, the count of a pattern name is the
    number of its occurrences in their pattern lists, and the storage
    holds the last [cap] processed entries; past the capacity the total
    is above the number of entries that can be retrieved. *)
Theorem stats_count_all_processed (json_size : LogEntry → nat) (cap : nat)
    (ps : list LogProcessor) (t0 clk : Z) (es : list LogEntry) :
  let c0 := MeowLogger.mkCore (MeowLogger.InMemory (MemoryStorage.init cap)) ps
              (MeowLogger.mkStats 0 ∅ ∅ t0) clk in
  let c := foldl (fun c e => MeowLogger._process_and_store json_size e c) c0 es in
  let processed := MeowLogger.run_processors ps <$> es in
  MeowLogger.total_logs (MeowLogger.stats c) = length es ∧
  (∀ k, MeowLogger.count (MeowLogger.by_level (MeowLogger.stats c)) k
        = length (filter (fun e => level e = k) processed)) ∧
  (∀ p, MeowLogger.count (MeowLogger.by_pattern (MeowLogger.stats c)) p
        = occurrences p (e ← processed; MeowLogger.entry_patterns e)) ∧
  MeowLogger.storage c
  = MeowLogger.InMemory (MemoryStorage.mk cap (last_n cap processed)) ∧
  (cap < length es →
   length (last_n cap processed) < MeowLogger.total_logs (MeowLogger.stats c)).
Proof.
  intros c0 c processed.
  assert (MeowLogger.processors c = ps ∧
          MeowLogger.total_logs (MeowLogger.stats c) = length es ∧
          (∀ k, MeowLogger.count (MeowLogger.by_level (MeowLogger.stats c)) k
                = length (filter (fun e => level e = k) processed)) ∧
          (∀ p, MeowLogger.count (MeowLogger.by_pattern (MeowLogger.stats c)) p
                = occurrences p (e ← processed; MeowLogger.entry_patterns e)) ∧
          MeowLogger.storage c
          = MeowLogger.InMemory (MemoryStorage.mk cap (last_n cap processed)))
    as (_ & Htotal & Hlevel & Hpattern & Hstorage).
  { unfold c, processed. clear c processed.
    induction es as [|e es IH] using rev_ind.
    - simpl. repeat split; done.
    - rewrite foldl_snoc, fmap_app.
      destruct IH as (Hps & Htotal & Hlevel & Hpattern & Hstorage).
      set (c := foldl _ c0 es) in *.
      unfold MeowLogger._process_and_store. simpl. rewrite Hps, Hstorage.
      split; [done|]. split; [|split; [|split]].
      + rewrite length_app, Htotal. simpl. lia.
      + intros k. rewrite count_bump, Hlevel, filter_app, length_app.
        rewrite filter_cons, filter_nil.
        destruct (decide (k = level (MeowLogger.run_processors ps e))) as [->|Hne].
        * by rewrite decide_True.
        * rewrite decide_False by done. done.
      + intros p. rewrite count_foldl_bump, Hpattern. unfold occurrences.
        rewrite bind_app, filter_app, length_app. simpl. by rewrite app_nil_r.
      + simpl. unfold MemoryStorage.store. simpl. f_equal. f_equal.
        rewrite deque_append_last_n by (rewrite last_n_length; lia).
        apply last_n_snoc. }
  split; [done|]. split; [done|]. split; [done|]. split; [done|].
  intros Hcap. rewrite Htotal, last_n_length. lia.
Qed.
